(** * golc: chain execution engine — shallow embedding and verification

    The development follows the layout of the Go repository:

    - [schema]   value mappings, documents, errors, the Memory / Callback /
                 Chain interfaces (package [schema], consumed by every file);
    - [callback] the run tracker that [golc.Call] drives;
    - [golc]     [Call], [SimpleCall], [BatchCall]            (src/golc.go);
    - [chain]    [LLM], [StuffDocuments], [RefineDocuments],
                 [Run], [Call]            (package [chain]);
    - [rag]      [ConversationalRetrieval]  (src/rag/conversational_retrieval.go);
    - [llm]      [Cohere.generateWithRetry] (package [llm]).

    Go maps are reference values: a [map[string]any] handed to a callee is
    the caller's object.  The embedding therefore keeps an explicit store of
    map objects and passes references, so that in-place assignments such as
    [inputs[k] = v] are visible through every alias. *)

From stdpp Require Import gmap strings list fin_maps.
From Stdlib Require Import ZArith Permutation.

Set Default Proof Using "Type".
Open Scope string_scope.
Open Scope list_scope.

(* ===================================================================== *)
(** * Package schema: data carried between units *)
(* ===================================================================== *)

Module schema.

(** Address of a map object in the store. *)
Definition loc := nat.

(** A Go value of type [map[string]any]: the nil map or a reference. *)
Inductive mapref :=
| NilMap
| MapAt (l : loc).

(** Dynamic values ([any]).  Only the dynamic types that the engine
    inspects are distinguished; every other type is an [AOther]. *)
Inductive any :=
| ANil                                (* the nil interface value *)
| AString (s : string)
| ADocs (ds : list Document)          (* []schema.Document *)
| AMap (r : mapref)                   (* map[string]any *)
| ARunID (id : nat)
| AOther (tag : nat)
with Document :=
| mkDocument (PageContent : string) (Metadata : gmap string any).

Definition PageContent (d : Document) : string :=
  match d with mkDocument c _ => c end.

Definition Metadata (d : Document) : gmap string any :=
  match d with mkDocument _ md => md end.

(** Contents of one map object (type [schema.ChainValues]). *)
Abbreviation ChainValues := (gmap string any).

(** The store of map objects. *)
Abbreviation heapT := (gmap loc (gmap string any)).

(** Error values.  [Errorf base msg] is [fmt.Errorf("%w" ++ msg, base)]:
    an error that wraps [base]. *)
Inductive error :=
| ErrMultipleInputs
| ErrMultipleOutputs
| ErrWrongOutputType
| ErrInvalidInputValues
| ErrInputValuesWrongType
| ErrMultipleInputsInRun
| ErrMultipleOutputsInRun
| ErrWrongOutputTypeInRun
| APIError (StatusCode : Z) (Message : string)   (* cohere.APIError *)
| Errorf (wrapped : error) (msg : string)
| ErrOther (tag : nat).

(** Result of running a Go function: a normal return, a returned non-nil
    [error], or a run-time panic. *)
Inductive outcome (A : Type) :=
| Ok (a : A)
| Err (e : error)
| Panic (msg : string).
Arguments Ok {A} a.
Arguments Err {A} e.
Arguments Panic {A} msg.

(** Interactions of the engine with its collaborators, in program order.
    Each record keeps the arguments as they were at the time of the call and
    what the collaborator returned.  The events of a unit's own [Call] are
    kept in the [sub] field of the [EvChainCall] that dispatched it, so the
    top level of a log holds exactly what the enclosing function did. *)
#[warnings="-register-all"]
Inductive event :=
| EvOnChainStart (run : nat) (kind : string) (inputs : gmap string any)
                 (res : option error)
| EvLoadMemoryVariables (inputs vars : gmap string any) (res : option error)
| EvChainCall (chain : nat) (inputs : mapref) (pre : heapT)
              (sub : list event) (ret : outcome mapref) (post : heapT)
| EvOnChainError (run : nat) (err : error) (res : option error)
| EvSaveContext (inputs outputs : gmap string any) (res : option error)
| EvOnChainEnd (run : nat) (outputs : gmap string any) (res : option error)
| EvClientGenerate (res : option error)
| EvSleep (delay : nat).

Section State.
Variable E : Type.

(** Program state: the store of map objects, the collaborators' own
    world [E] (memory contents, observers' sinks, backend state), the
    run tracker's identifier supply and the interaction log. *)
Record state := mkState {
  heap : heapT;
  ext : E;
  runs : nat;
  log : list event
}.

Definition M (A : Type) : Type := state → outcome A * state.

Definition ret {A} (a : A) : M A := λ st, (Ok a, st).

Definition bind {A B} (m : M A) (k : A → M B) : M B :=
  λ st, match m st with
        | (Ok a, st') => k a st'
        | (Err e, st') => (Err e, st')
        | (Panic msg, st') => (Panic msg, st')
        end.

(** [return ..., err] with a non-nil [err]. *)
Definition throw {A} (e : error) : M A := λ st, (Err e, st).

Definition panic {A} (msg : string) : M A := λ st, (Panic msg, st).

(** [v, err := f(...)] followed by an explicit test of [err]. *)
Definition attempt {A} (m : M A) : M (A + error) :=
  λ st, match m st with
        | (Ok a, st') => (Ok (inl a), st')
        | (Err e, st') => (Ok (inr e), st')
        | (Panic msg, st') => (Panic msg, st')
        end.

(** [if err != nil { return nil, err }]. *)
Definition check (e : option error) : M unit :=
  match e with
  | Some err => throw err
  | None => ret tt
  end.

Definition emit (ev : event) : M unit :=
  λ st, (Ok tt, mkState (heap st) (ext st) (runs st) (log st ++ [ev])).

(** A call into a collaborator: it sees its arguments by value and acts
    on its own world only. *)
Definition collab {A} (f : E → A * E) : M A :=
  λ st, let '(a, e') := f (ext st) in
        (Ok a, mkState (heap st) e' (runs st) (log st)).

(** ** Map objects *)

Definition deref (h : heapT) (r : mapref) : gmap string any :=
  match r with
  | NilMap => ∅
  | MapAt l => default ∅ (h !! l)
  end.

(** [m[k]] as a value: the zero value [nil] when the key is absent. *)
Definition index (m : gmap string any) (k : string) : any :=
  default ANil (m !! k).

(** Reading any key of a map (a nil map reads as empty). *)
Definition read (r : mapref) : M (gmap string any) :=
  λ st, (Ok (deref (heap st) r), st).

(** A map literal or [make]: a new object. *)
Definition alloc (m : gmap string any) : M mapref :=
  λ st, let l := fresh (dom (heap st)) in
        (Ok (MapAt l),
         mkState (<[l := m]> (heap st)) (ext st) (runs st) (log st)).

(** [r[k] = v]; assignment to an entry of a nil map panics. *)
Definition store (r : mapref) (k : string) (v : any) : M unit :=
  match r with
  | NilMap => panic "assignment to entry in nil map"
  | MapAt l =>
      λ st, (Ok tt,
             mkState (<[l := <[k := v]> (deref (heap st) r)]> (heap st))
                     (ext st) (runs st) (log st))
  end.

(** [for k, v := range vars { r[k] = v }]. *)
Definition range_assign (r : mapref) (vars : gmap string any) : M unit :=
  map_fold (λ k v (acc : M unit), bind acc (λ _, store r k v)) (ret tt) vars.

(** Indexing a slice of strings at 0. *)
Definition index0 (keys : list string) : M string :=
  match keys with
  | k :: _ => ret k
  | [] => panic "index out of range [0] with length 0"
  end.

(** Functional options: [for _, fn := range optFns { fn(&opts) }]. *)
Definition apply_opts {O} (optFns : list (O → O)) (o : O) : O :=
  fold_left (λ acc fn, fn acc) optFns o.

(** ** Interfaces *)

(** Memory Port ([schema.Memory]). [LoadMemoryVariables] returns both of
    its results, as in Go. *)
Record Memory := {
  LoadMemoryVariables :
    gmap string any → E → (gmap string any * option error) * E;
  SaveContext :
    gmap string any → gmap string any → E → option error * E
}.

(** Observer ([schema.Callback]). *)
Record Callback := {
  cbOnChainStart : string → gmap string any → nat → E → option error * E;
  cbOnChainEnd : gmap string any → nat → E → option error * E;
  cbOnChainError : error → nat → E → option error * E
}.

(** The notifier handed to a running unit
    ([schema.CallbackManagerForChainRun]). *)
Record RunManager := {
  rmRunID : nat;
  rmCallbacks : list Callback;
  rmInheritable : list Callback
}.

(** [schema.CallOptions]: the options of a unit's own [Call]. *)
Record CallOptions := {
  CallbackManger : option RunManager;
  Stop : list string
}.

(** [schema.Chain]: the unit-of-work interface.  [chainAddr] is the
    identity of the object behind the interface value. *)
Record Chain := {
  chainAddr : nat;
  chainCall : mapref → list (CallOptions → CallOptions) → M mapref;
  chainMemory : option Memory;
  chainType : string;
  chainVerbose : bool;
  chainCallbacks : list Callback;
  chainInputKeys : list string;
  chainOutputKeys : list string
}.

(** The dynamic dispatch [chain.Call(ctx, inputs, optFns...)]. The callee
    runs on the current state; what it logs is filed under this call. *)
Definition invoke (c : Chain) (inputs : mapref)
    (optFns : list (CallOptions → CallOptions)) : M mapref :=
  λ st,
    let '(r, st') :=
      chainCall c inputs optFns (mkState (heap st) (ext st) (runs st) []) in
    (r, mkState (heap st') (ext st') (runs st')
          (log st ++ [EvChainCall (chainAddr c) inputs (heap st)
                                  (log st') r (heap st')])).

End State.

Arguments mkState {E}.
Arguments heap {E}.
Arguments ext {E}.
Arguments runs {E}.
Arguments log {E}.
Arguments ret {E A}.
Arguments bind {E A B}.
Arguments throw {E A}.
Arguments panic {E A}.
Arguments attempt {E A}.
Arguments check {E}.
Arguments emit {E}.
Arguments collab {E A}.
Arguments read {E}.
Arguments alloc {E}.
Arguments store {E}.
Arguments range_assign {E}.
Arguments index0 {E}.
Arguments LoadMemoryVariables {E}.
Arguments SaveContext {E}.
Arguments cbOnChainStart {E}.
Arguments cbOnChainEnd {E}.
Arguments cbOnChainError {E}.
Arguments rmRunID {E}.
Arguments rmCallbacks {E}.
Arguments rmInheritable {E}.
Arguments CallbackManger {E}.
Arguments Stop {E}.
Arguments chainAddr {E}.
Arguments chainCall {E}.
Arguments chainMemory {E}.
Arguments chainType {E}.
Arguments chainVerbose {E}.
Arguments chainCallbacks {E}.
Arguments chainInputKeys {E}.
Arguments chainOutputKeys {E}.
Arguments invoke {E}.

End schema.

Export schema.

Declare Scope go_scope.
Delimit Scope go_scope with go.
Notation "x <- c1 ;; c2" := (bind c1 (λ x, c2))
  (at level 100, c1 at next level, right associativity) : go_scope.
Notation "c1 ;; c2" := (bind c1 (λ _, c2))
  (at level 100, right associativity) : go_scope.
Open Scope go_scope.

(* ===================================================================== *)
(** * Observations on interaction logs *)
(* ===================================================================== *)

Module trace.

(** The fail notifications of a log. *)
Definition isOnChainError (ev : event) : bool :=
  match ev with EvOnChainError _ _ _ => true | _ => false end.

Definition isOnChainEnd (ev : event) : bool :=
  match ev with EvOnChainEnd _ _ _ => true | _ => false end.

Definition isSaveContext (ev : event) : bool :=
  match ev with EvSaveContext _ _ _ => true | _ => false end.

Definition isChainCall (ev : event) : bool :=
  match ev with EvChainCall _ _ _ _ _ _ => true | _ => false end.

Definition isClientGenerate (ev : event) : bool :=
  match ev with EvClientGenerate _ => true | _ => false end.

Definition isSleep (ev : event) : bool :=
  match ev with EvSleep _ => true | _ => false end.

(** Number of events of a kind at the top level of a log. *)
Definition count (p : event → bool) (l : list event) : nat :=
  length (List.filter p l).

(** The dispatches [chain.Call(...)] at the top level of a log. *)
Definition chainCalls (l : list event) : list event :=
  List.filter isChainCall l.

(** The units dispatched at the top level of a log, by address. *)
Definition callees (l : list event) : list nat :=
  omap (λ ev, match ev with
              | EvChainCall a _ _ _ _ _ => Some a
              | _ => None
              end) l.

(** The results of the backend attempts of a log, in order. *)
Definition attemptResults (l : list event) : list (option error) :=
  omap (λ ev, match ev with EvClientGenerate res => Some res | _ => None end)
       l.

(** The pauses of a log, in order. *)
Definition sleeps (l : list event) : list nat :=
  omap (λ ev, match ev with EvSleep d => Some d | _ => None end) l.

(** The events added to the log between two states. *)
Definition since {E} (st st' : state E) : list event :=
  drop (length (log st)) (log st').

(** The start notifications of a log. *)
Definition isOnChainStart (ev : event) : bool :=
  match ev with EvOnChainStart _ _ _ _ => true | _ => false end.

(** The dispatches at the top level of a log: the unit, the mapping it was
    called on and what it returned. *)
Definition dispatches (l : list event)
    : list (nat * mapref * outcome mapref) :=
  omap (λ ev, match ev with
              | EvChainCall a i _ _ ret _ => Some (a, i, ret)
              | _ => None
              end) l.

End trace.

(* ===================================================================== *)
(** * Package callback: the run tracker *)
(* ===================================================================== *)

Module callback.
Section Callback.
Context {E : Type}.

(** Modelled from the spec: [callback.Manager] (package [callback] is not
    among the sources).  Section 4.2: a manager holds the observers of one
    invocation; the call-scoped (inheritable) observers come first, then
    the unit's own. *)
Record Manager := {
  inheritableCallbacks : list (Callback E);
  localCallbacks : list (Callback E);
  verbose : bool
}.

(** Modelled from the spec: [callback.NewManager(inheritable, local,
    verbose)]. *)
Definition NewManager (inheritable local : list (Callback E))
    (verbose : bool) : Manager :=
  {| inheritableCallbacks := inheritable;
     localCallbacks := local;
     verbose := verbose |}.

Definition observers (cm : Manager) : list (Callback E) :=
  inheritableCallbacks cm ++ localCallbacks cm.

(** Modelled from the spec: hooks fire in registration order and the
    first failing observer fails the notification (section 4.2). *)
Fixpoint notify (hooks : list (E → option error * E)) (e : E)
    : option error * E :=
  match hooks with
  | [] => (None, e)
  | h :: rest =>
      match h e with
      | (Some err, e') => (Some err, e')
      | (None, e') => notify rest e'
      end
  end.

(** Modelled from the spec: [cm.OnChainStart(kind, inputs)] allocates a
    fresh run identifier, fires every observer's start hook, and yields the
    notifier of the run, or fails when an observer fails (section 4.2). *)
Definition OnChainStart (cm : Manager) (kind : string) (inputs : mapref)
    : M E (RunManager E) :=
  m <- read inputs ;;
  λ st,
    let id := runs st in
    let '(res, e') :=
      notify (map (λ cb, cbOnChainStart cb kind m id) (observers cm))
             (ext st) in
    let st' := mkState (heap st) e' (S id)
                       (log st ++ [EvOnChainStart id kind m res]) in
    match res with
    | Some err => (Err err, st')
    | None =>
        (Ok {| rmRunID := id;
               rmCallbacks := observers cm;
               rmInheritable := inheritableCallbacks cm |}, st')
    end.

(** Modelled from the spec: [rm.OnChainError(err)] fires the error hooks
    and returns their verdict as an [error] value (section 4.2). *)
Definition OnChainError (rm : RunManager E) (err : error)
    : M E (option error) :=
  res <- collab (notify (map (λ cb, cbOnChainError cb err (rmRunID rm))
                             (rmCallbacks rm))) ;;
  emit (EvOnChainError (rmRunID rm) err res) ;;
  ret res.

(** Modelled from the spec: [rm.OnChainEnd(outputs)] (section 4.2). *)
Definition OnChainEnd (rm : RunManager E) (outputs : mapref)
    : M E (option error) :=
  m <- read outputs ;;
  res <- collab (notify (map (λ cb, cbOnChainEnd cb m (rmRunID rm))
                             (rmCallbacks rm))) ;;
  emit (EvOnChainEnd (rmRunID rm) m res) ;;
  ret res.

Definition GetInheritableCallbacks (rm : RunManager E)
    : list (Callback E) :=
  rmInheritable rm.

Definition RunID (rm : RunManager E) : nat := rmRunID rm.

End Callback.
Arguments Manager : clear implicits.
End callback.

(* ===================================================================== *)
(** * Package golc: execution entry points (src/golc.go) *)
(* ===================================================================== *)

Module golc.

(** [golc.Verbose]: the package-level default verbosity. *)
Definition Verbose : bool := false.

Section Golc.
Context {E : Type}.

Record CallOptions := {
  Callbacks : list (Callback E);
  IncludeRunInfo : bool;
  Stop : list string;
  (* written by package rag; [Call] below never reads it *)
  ParentRunID : option nat
}.

(** [chain.Memory().LoadMemoryVariables(ctx, inputs)]. *)
Definition loadMemoryVariables (mem : Memory E) (inputs : mapref)
    : M E (gmap string any * option error) :=
  m <- read inputs ;;
  r <- collab (LoadMemoryVariables mem m) ;;
  emit (EvLoadMemoryVariables m (fst r) (snd r)) ;;
  ret r.

(** [chain.Memory().SaveContext(ctx, inputs, outputs)]. *)
Definition saveContext (mem : Memory E) (inputs outputs : mapref)
    : M E (option error) :=
  mi <- read inputs ;;
  mo <- read outputs ;;
  res <- collab (SaveContext mem mi mo) ;;
  emit (EvSaveContext mi mo res) ;;
  ret res.

(** [golc.Call]: executes a chain with multiple inputs. *)
Definition Call (chain : Chain E) (inputs : mapref)
    (optFns : list (CallOptions → CallOptions)) : M E mapref :=
  let opts := apply_opts optFns
                {| Callbacks := []; IncludeRunInfo := false;
                   Stop := []; ParentRunID := None |} in
  let cm := callback.NewManager (Callbacks opts) (chainCallbacks chain)
                                (chainVerbose chain) in
  rm <- callback.OnChainStart cm (chainType chain) inputs ;;
  match chainMemory chain with
  | Some mem =>
      (* vars, _ := ...: the returned error is dropped *)
      r <- loadMemoryVariables mem inputs ;;
      range_assign inputs (fst r)
  | None => ret tt
  end ;;
  r <- attempt (invoke chain inputs
                  [λ o, {| CallbackManger := Some rm;
                           schema.Stop := Stop opts |}]) ;;
  match r with
  | inr err =>
      cbErr <- callback.OnChainError rm err ;;
      match cbErr with
      | Some e => throw e
      | None => throw err
      end
  | inl outputs =>
      match chainMemory chain with
      | Some mem => e <- saveContext mem inputs outputs ;; check e
      | None => ret tt
      end ;;
      e <- callback.OnChainEnd rm outputs ;;
      check e ;;
      (if IncludeRunInfo opts
       then store outputs "runInfo" (ARunID (callback.RunID rm))
       else ret tt) ;;
      ret outputs
  end.

Record SimpleCallOptions := {
  scCallbacks : list (Callback E);
  scStop : list string
}.

(** [golc.SimpleCall]: a chain with a single input and a single output. *)
Definition SimpleCall (chain : Chain E) (input : any)
    (optFns : list (SimpleCallOptions → SimpleCallOptions)) : M E string :=
  let opts := apply_opts optFns {| scCallbacks := []; scStop := [] |} in
  if negb (Nat.eqb (length (chainInputKeys chain)) 1)
  then throw ErrMultipleInputs
  else if negb (Nat.eqb (length (chainOutputKeys chain)) 1)
  then throw ErrMultipleOutputs
  else
    ikey <- index0 (chainInputKeys chain) ;;
    inputs <- alloc {[ ikey := input ]} ;;
    outputValues <-
      Call chain inputs
        [λ o, {| Callbacks := scCallbacks opts;
                 IncludeRunInfo := IncludeRunInfo o;
                 Stop := scStop opts;
                 ParentRunID := ParentRunID o |}] ;;
    okey <- index0 (chainOutputKeys chain) ;;
    m <- read outputValues ;;
    match m !! okey with
    | Some (AString outputValue) => ret outputValue
    | _ => throw ErrWrongOutputType
    end.

Record BatchCallOptions := {
  bcCallbacks : list (Callback E);
  bcStop : list string
}.

(** What cancelling the group's derived context does to the
    collaborators' world (package errgroup, [errgroup.WithContext]). *)
Variable cancel : E → E.

(** The state once the group's context has been cancelled. *)
Definition cancelled (st : state E) : state E :=
  mkState (heap st) (cancel (ext st)) (runs st) (log st).

(** The option function of the calls made by a batch. *)
Definition batchOption (opts : BatchCallOptions) (o : CallOptions)
    : CallOptions :=
  {| Callbacks := bcCallbacks opts;
     IncludeRunInfo := IncludeRunInfo o;
     Stop := bcStop opts;
     ParentRunID := ParentRunID o |}.

(** The closure handed to [errs.Go] for index [i]. *)
Definition batchTask (chain : Chain E) (opts : BatchCallOptions)
    (i : nat) (input : mapref) (chainValues : list mapref)
    : M E (list mapref) :=
  vals <- Call chain input [batchOption opts] ;;
  ret (<[i := vals]> chainValues).

(** The group: goroutines finish in the order [sched]; the group keeps
    the first non-nil error and cancels the shared context when it sees
    it.  Each goroutine body runs to completion before the next one in
    [sched]; a panic in a goroutine ends the program. *)
Fixpoint errgroupRun (chain : Chain E) (opts : BatchCallOptions)
    (inputs : list mapref) (sched : list nat)
    (firstErr : option error) (chainValues : list mapref)
    : M E (option error * list mapref) :=
  match sched with
  | [] => ret (firstErr, chainValues)
  | i :: rest =>
      match inputs !! i with
      | None => errgroupRun chain opts inputs rest firstErr chainValues
      | Some input =>
          r <- attempt (batchTask chain opts i input chainValues) ;;
          match r with
          | inl chainValues' =>
              errgroupRun chain opts inputs rest firstErr chainValues'
          | inr err =>
              match firstErr with
              | None =>
                  collab (λ e, (tt, cancel e)) ;;
                  errgroupRun chain opts inputs rest (Some err) chainValues
              | Some _ =>
                  errgroupRun chain opts inputs rest firstErr chainValues
              end
          end
      end
  end.

(** [golc.BatchCall]: one [Call] per input, run by an errgroup, results
    collected in the order of the inputs.  [sched] is the order in which
    the goroutines complete. *)
Definition BatchCall (chain : Chain E) (inputs : list mapref)
    (optFns : list (BatchCallOptions → BatchCallOptions))
    (sched : list nat) : M E (list mapref) :=
  let opts := apply_opts optFns {| bcCallbacks := []; bcStop := [] |} in
  let chainValues := replicate (length inputs) NilMap in
  r <- errgroupRun chain opts inputs sched None chainValues ;;
  match fst r with
  | Some err => throw err
  | None =>
      (* Wait cancels the derived context once every goroutine is done *)
      collab (λ e, (tt, cancel e)) ;;
      ret (snd r)
  end.

End Golc.
Arguments CallOptions : clear implicits.
Arguments BatchCallOptions : clear implicits.
Arguments SimpleCallOptions : clear implicits.
End golc.

(* ===================================================================== *)
(** * Collaborator packages used by the composite units *)
(* ===================================================================== *)

Module strings.

(** [strings.Join(elems, sep)]. *)
Fixpoint Join (elems : list string) (sep : string) : string :=
  match elems with
  | [] => EmptyString
  | [x] => x
  | x :: rest => x ++ sep ++ Join rest sep
  end.

(** The line feed character, written ["\n"] in Go. *)
Definition LF : string := String (Ascii.ascii_of_nat 10) EmptyString.

(** ASCII white space as tested by [strings.TrimSpace]:
    tab, line feed, vertical tab, form feed, carriage return, space. *)
Definition isSpace (a : Ascii.ascii) : bool :=
  let n := Ascii.nat_of_ascii a in
  (Nat.leb 9 n && Nat.leb n 13) || Nat.eqb n 32.

Fixpoint TrimLeft (s : string) : string :=
  match s with
  | String a rest => if isSpace a then TrimLeft rest else s
  | EmptyString => EmptyString
  end.

Fixpoint TrimRight (s : string) : string :=
  match s with
  | String a rest =>
      match TrimRight rest with
      | EmptyString => if isSpace a then EmptyString else String a EmptyString
      | t => String a t
      end
  | EmptyString => EmptyString
  end.

(** [strings.TrimSpace] on strings without multi-byte white space. *)
Definition TrimSpaceASCII (s : string) : string := TrimRight (TrimLeft s).

End strings.

Module util.
Section Util.
Context {E : Type}.

(** Modelled from the spec: [util.CopyMap] (package [util] is not among
    the sources).  Section 4.1: an independent shallow copy. *)
Definition CopyMap (r : mapref) : M E mapref :=
  m <- read r ;;
  alloc m.

(** Modelled from the spec: [util.OmitByKeys].  Section 4.1: a copy
    excluding the named keys. *)
Definition OmitByKeys (r : mapref) (keys : list string) : M E mapref :=
  m <- read r ;;
  alloc (foldr delete m keys).

End Util.
End util.

Module prompt.

(** Modelled from the spec: [prompt.Template] (section 6, Template
    Renderer): rendering is a function of the variable mapping and may
    fail. *)
Record Template := {
  Format : gmap string any → error + string;
  InputVariables : list string
}.

(** Modelled from the spec: [FormatPrompt] renders the prompt value handed
    to the generation backend. *)
Definition FormatPrompt (t : Template) (values : gmap string any)
    : error + string :=
  Format t values.

End prompt.

Module model.
Section Model.
Context {E : Type}.

Record Generation := { Text : string }.

(** [model.Options] as set by [LLM.Call]. *)
Record Options := {
  Stop : list string;
  Callbacks : list (Callback E);
  ParentRunID : option nat
}.

(** Modelled from the spec: a [schema.LLM] together with
    [model.GeneratePrompt] (section 6, Generation Backend): given the
    rendered prompts and the options it answers with the generations of
    each prompt, or fails. *)
Record LLM := {
  GeneratePrompt :
    list string → Options → E → (error + list (list Generation)) * E
}.

(** [schema.GenerateOptions]: the options of a backend's [Generate]. *)
Record GenerateOptions := {
  goCallbackManger : option (RunManager E);
  goStop : list string
}.

(** [schema.ModelResult]. *)
Record ModelResult := {
  Generations : list Generation;
  LLMOutput : gmap string any
}.

End Model.
Arguments Options : clear implicits.
Arguments GenerateOptions : clear implicits.
Arguments LLM : clear implicits.
End model.

(* ===================================================================== *)
(** * Package chain: LLM, StuffDocuments, RefineDocuments, Run *)
(* ===================================================================== *)

Module chain.
Section Chain.
Context {E : Type}.

(** [strings.TrimSpace] of the Go standard library. *)
Variable TrimSpace : string → string.

(** A pure fallible step: [v, err := f(...)]; [if err != nil] return it. *)
Definition lift {A} (r : error + A) : M E A :=
  match r with
  | inl e => throw e
  | inr a => ret a
  end.

Record CallbackOptions := {
  Callbacks : list (Callback E);
  Verbose : bool
}.

(** ** LLM *)

Record LLMOptions := {
  llmCallbackOptions : CallbackOptions;
  llmMemory : option (Memory E);
  OutputKey : string
}.

(** [addr] is the address of the object: units are held by pointer. *)
Record LLM := {
  addr : nat;
  llm : model.LLM E;
  prompt : prompt.Template;
  opts : LLMOptions
}.

Definition NewLLM (addr : nat) (llm : model.LLM E) (prompt : prompt.Template)
    (optFns : list (LLMOptions → LLMOptions)) : LLM :=
  let opts := apply_opts optFns
                {| OutputKey := "text";
                   llmMemory := None;
                   llmCallbackOptions :=
                     {| Callbacks := []; Verbose := golc.Verbose |} |} in
  {| addr := addr; prompt := prompt; llm := llm; opts := opts |}.

(** [getFinalOutput]: the trimmed text of the top generation of every
    prompt, of which the first is returned. *)
Fixpoint topTexts (generations : list (list model.Generation))
    : M E (list string) :=
  match generations with
  | [] => ret []
  | generation :: rest =>
      match generation with
      | [] => panic "index out of range [0] with length 0"
      | g :: _ =>
          output <- topTexts rest ;;
          ret (TrimSpace (model.Text g) :: output)
      end
  end.

Definition getFinalOutput (c : LLM)
    (generations : list (list model.Generation)) : M E string :=
  output <- topTexts generations ;;
  index0 output.

Definition LLM_Call (c : LLM) (inputs : mapref)
    (optFns : list (CallOptions E → CallOptions E)) : M E mapref :=
  let opts' := apply_opts optFns
                 {| CallbackManger := None; schema.Stop := [] |} in
  m <- read inputs ;;
  promptValue <- lift (prompt.FormatPrompt (prompt c) m) ;;
  generations <-
    (res <- collab (model.GeneratePrompt (llm c) [promptValue]
              {| model.Stop := schema.Stop opts';
                 model.Callbacks :=
                   match CallbackManger opts' with
                   | Some rm => callback.GetInheritableCallbacks rm
                   | None => []
                   end;
                 model.ParentRunID :=
                   match CallbackManger opts' with
                   | Some rm => Some (callback.RunID rm)
                   | None => None
                   end |}) ;;
     lift res) ;;
  text <- getFinalOutput c generations ;;
  alloc {[ OutputKey (opts c) := AString text ]}.

Definition LLM_Prompt (c : LLM) : prompt.Template := prompt c.
Definition LLM_Memory (c : LLM) : option (Memory E) := llmMemory (opts c).
Definition LLM_Type (c : LLM) : string := "LLM".
Definition LLM_Verbose (c : LLM) : bool :=
  Verbose (llmCallbackOptions (opts c)).
Definition LLM_Callbacks (c : LLM) : list (Callback E) :=
  Callbacks (llmCallbackOptions (opts c)).
Definition LLM_InputKeys (c : LLM) : list string :=
  prompt.InputVariables (prompt c).
Definition LLM_OutputKeys (c : LLM) : list string := [OutputKey (opts c)].

(** [var _ schema.Chain = ( *LLM)(nil)]. *)
Definition LLM_Chain (c : LLM) : Chain E :=
  {| chainAddr := addr c;
     chainCall := LLM_Call c;
     chainMemory := LLM_Memory c;
     chainType := LLM_Type c;
     chainVerbose := LLM_Verbose c;
     chainCallbacks := LLM_Callbacks c;
     chainInputKeys := LLM_InputKeys c;
     chainOutputKeys := LLM_OutputKeys c |}.

(** ** StuffDocuments *)

Record StuffDocumentsOptions := {
  sdCallbackOptions : CallbackOptions;
  sdInputKey : string;
  sdDocumentVariableName : string;
  Separator : string
}.

Record StuffDocuments := {
  sdAddr : nat;
  sdLlmChain : LLM;
  sdOpts : StuffDocumentsOptions
}.

Definition NewStuffDocuments (addr : nat) (llmChain : LLM)
    (optFns : list (StuffDocumentsOptions → StuffDocumentsOptions))
    : StuffDocuments :=
  let opts := apply_opts optFns
                {| sdInputKey := "inputDocuments";
                   sdDocumentVariableName := "context";
                   Separator := strings.LF ++ strings.LF;
                   sdCallbackOptions :=
                     {| Callbacks := []; Verbose := golc.Verbose |} |} in
  {| sdAddr := addr; sdLlmChain := llmChain; sdOpts := opts |}.

Definition StuffDocuments_Call (c : StuffDocuments) (values : mapref)
    (optFns : list (CallOptions E → CallOptions E)) : M E mapref :=
  let opts' := apply_opts optFns
                 {| CallbackManger := None; schema.Stop := [] |} in
  m <- read values ;;
  match m !! sdInputKey (sdOpts c) with
  | None =>
      throw (Errorf ErrInvalidInputValues
               (": no value for inputKey " ++ sdInputKey (sdOpts c)))
  | Some input =>
      match input with
      | ADocs docs =>
          let contents := map PageContent docs in
          inputValues <- util.CopyMap values ;;
          store inputValues (sdDocumentVariableName (sdOpts c))
                (AString (strings.Join contents (Separator (sdOpts c)))) ;;
          golc.Call (LLM_Chain (sdLlmChain c)) inputValues []
      | _ => throw ErrInputValuesWrongType
      end
  end.

(** The mapping handed to the inner unit: the caller's entries with the
    joined page contents under the document variable. *)
Definition stuffed (c : StuffDocuments) (m : gmap string any)
    (docs : list Document) : gmap string any :=
  <[sdDocumentVariableName (sdOpts c) :=
      AString (strings.Join (map PageContent docs) (Separator (sdOpts c)))]>
    m.

Definition StuffDocuments_Chain (c : StuffDocuments) : Chain E :=
  {| chainAddr := sdAddr c;
     chainCall := StuffDocuments_Call c;
     chainMemory := None;
     chainType := "StuffDocuments";
     chainVerbose := Verbose (sdCallbackOptions (sdOpts c));
     chainCallbacks := Callbacks (sdCallbackOptions (sdOpts c));
     chainInputKeys := [sdInputKey (sdOpts c)];
     chainOutputKeys := LLM_OutputKeys (sdLlmChain c) |}.

(** ** RefineDocuments *)

Record RefineDocumentsOptions := {
  rdCallbackOptions : CallbackOptions;
  rdInputKey : string;
  rdDocumentVariableName : string;
  InitialResponseName : string;
  DocumentPrompt : option prompt.Template;
  rdOutputKey : string
}.

Record RefineDocuments := {
  rdAddr : nat;
  rdLlmChain : LLM;
  refineLLMChain : LLM;
  rdOpts : RefineDocumentsOptions
}.

(** [prompt.NewTemplate], which parses a template text. *)
Variable NewTemplate : string → error + prompt.Template.

Definition NewRefineDocuments (addr : nat) (llmChain refineLLMChain : LLM)
    (optFns : list (RefineDocumentsOptions → RefineDocumentsOptions))
    : error + RefineDocuments :=
  let opts := apply_opts optFns
                {| rdInputKey := "inputDocuments";
                   rdDocumentVariableName := "context";
                   InitialResponseName := "existingAnswer";
                   rdOutputKey := "text";
                   DocumentPrompt := None;
                   rdCallbackOptions :=
                     {| Callbacks := []; Verbose := golc.Verbose |} |} in
  match DocumentPrompt opts with
  | Some _ =>
      inr {| rdAddr := addr; rdLlmChain := llmChain;
             refineLLMChain := refineLLMChain; rdOpts := opts |}
  | None =>
      match NewTemplate "{{.pageContent}}" with
      | inl err => inl err
      | inr p =>
          inr {| rdAddr := addr; rdLlmChain := llmChain;
                 refineLLMChain := refineLLMChain;
                 rdOpts :=
                   {| rdInputKey := rdInputKey opts;
                      rdDocumentVariableName := rdDocumentVariableName opts;
                      InitialResponseName := InitialResponseName opts;
                      rdOutputKey := rdOutputKey opts;
                      DocumentPrompt := Some p;
                      rdCallbackOptions := rdCallbackOptions opts |} |}
      end
  end.

(** [docInfo]: the page content, then every metadata entry over it. *)
Definition docInfo (doc : Document) : gmap string any :=
  Metadata doc ∪ {[ "pageContent" := AString (PageContent doc) ]}.

(** [c.opts.DocumentPrompt.Format(docInfo)]; a nil template pointer
    panics. *)
Definition formatDocument (c : RefineDocuments) (doc : Document)
    : M E string :=
  match DocumentPrompt (rdOpts c) with
  | None => panic "invalid memory address or nil pointer dereference"
  | Some p => lift (prompt.Format p (docInfo doc))
  end.

Definition constructInitialInputs (c : RefineDocuments) (doc : Document)
    (rest : mapref) : M E mapref :=
  inputs <- util.CopyMap rest ;;
  docText <- formatDocument c doc ;;
  store inputs (rdDocumentVariableName (rdOpts c)) (AString docText) ;;
  ret inputs.

Definition constructRefineInputs (c : RefineDocuments) (doc : Document)
    (lastResponse : string) (rest : mapref) : M E mapref :=
  inputs <- util.CopyMap rest ;;
  docText <- formatDocument c doc ;;
  store inputs (rdDocumentVariableName (rdOpts c)) (AString docText) ;;
  store inputs (InitialResponseName (rdOpts c)) (AString lastResponse) ;;
  ret inputs.

(** [for i := 1; i < len(docs); i++ { ... }] over [docs[1:]]. *)
Fixpoint refineLoop (c : RefineDocuments) (rest : mapref)
    (docs : list Document) (res : string) : M E string :=
  match docs with
  | [] => ret res
  | doc :: docs' =>
      refineInputs <- constructRefineInputs c doc res rest ;;
      res' <- golc.SimpleCall (LLM_Chain (refineLLMChain c))
                (AMap refineInputs) [] ;;
      refineLoop c rest docs' res'
  end.

Definition RefineDocuments_Call (c : RefineDocuments) (values : mapref)
    (optFns : list (CallOptions E → CallOptions E)) : M E mapref :=
  let opts' := apply_opts optFns
                 {| CallbackManger := None; schema.Stop := [] |} in
  m <- read values ;;
  match m !! rdInputKey (rdOpts c) with
  | None =>
      throw (Errorf ErrInvalidInputValues
               (": no value for inputKey " ++ rdInputKey (rdOpts c)))
  | Some input =>
      match input with
      | ADocs docs =>
          match docs with
          | [] =>
              throw (Errorf ErrInvalidInputValues
                       ": documents slice has no elements")
          | doc0 :: docs' =>
              rest <- util.OmitByKeys values [rdInputKey (rdOpts c)] ;;
              initialInputs <- constructInitialInputs c doc0 rest ;;
              res <- golc.SimpleCall (LLM_Chain (rdLlmChain c))
                       (AMap initialInputs) [] ;;
              res' <- refineLoop c rest docs' res ;;
              alloc {[ rdOutputKey (rdOpts c) := AString (TrimSpace res') ]}
          end
      | _ => throw ErrInputValuesWrongType
      end
  end.

Definition RefineDocuments_Chain (c : RefineDocuments) : Chain E :=
  {| chainAddr := rdAddr c;
     chainCall := RefineDocuments_Call c;
     chainMemory := None;
     chainType := "RefineDocuments";
     chainVerbose := Verbose (rdCallbackOptions (rdOpts c));
     chainCallbacks := Callbacks (rdCallbackOptions (rdOpts c));
     chainInputKeys := [rdInputKey (rdOpts c)];
     chainOutputKeys := LLM_OutputKeys (rdLlmChain c) |}.

(** What one dispatch [ev] of the inner unit [u] shows when it was made
    for document [doc] with running answer [prior]: the unit succeeded; the
    mapping it was called on holds, under the unit's single input key, the
    map built for the document (over the loaded variables of [u], if it
    has a Memory); that map holds the rendering of [doc] under the document
    variable and [prior] under the initial-response name; and the unit
    answered [answer] under its output key. *)
Definition refineStep (c : RefineDocuments) (u : LLM) (doc : Document)
    (prior : option string) (answer : string) (ev : event) : Prop :=
  ∃ wrapper pre sub out post ikey r vars p rendering,
    ev = EvChainCall (addr u) wrapper pre sub (Ok out) post ∧
    LLM_InputKeys u = [ikey] ∧
    deref pre wrapper = vars ∪ {[ ikey := AMap r ]} ∧
    (LLM_Memory u = None → vars = ∅) ∧
    DocumentPrompt (rdOpts c) = Some p ∧
    prompt.Format p (docInfo doc) = inr rendering ∧
    match prior with
    | None =>
        deref pre r !! rdDocumentVariableName (rdOpts c)
          = Some (AString rendering)
    | Some answer0 =>
        deref pre r !! InitialResponseName (rdOpts c)
          = Some (AString answer0) ∧
        (rdDocumentVariableName (rdOpts c) ≠ InitialResponseName (rdOpts c) →
         deref pre r !! rdDocumentVariableName (rdOpts c)
           = Some (AString rendering))
    end ∧
    deref post out !! OutputKey (opts u) = Some (AString answer).

(** The dispatches of the refine unit for the documents after the first,
    each one fed with the answer of the one before. *)
Fixpoint refineSteps (c : RefineDocuments) (docs : list Document)
    (prior : string) (evs : list event) (answers : list string) : Prop :=
  match docs, evs, answers with
  | [], [], [] => True
  | doc :: docs', ev :: evs', answer :: answers' =>
      refineStep c (refineLLMChain c) doc (Some prior) answer ev ∧
      refineSteps c docs' answer evs' answers'
  | _, _, _ => False
  end.

(** ** Run and Call of package chain *)

Definition Call (chain : Chain E) (inputs : mapref) : M E mapref :=
  invoke chain inputs [].

Definition Run (chain : Chain E) (input : any) : M E string :=
  let inputKeys := chainInputKeys chain in
  if negb (Nat.eqb (length inputKeys) 1) then throw ErrMultipleInputsInRun
  else
    let outputKeys := chainOutputKeys chain in
    if negb (Nat.eqb (length outputKeys) 1)
    then throw ErrMultipleOutputsInRun
    else
      ikey <- index0 inputKeys ;;
      inputValues <- alloc {[ ikey := input ]} ;;
      outputValues <- Call chain inputValues ;;
      okey <- index0 outputKeys ;;
      m <- read outputValues ;;
      match m !! okey with
      | Some (AString outputValue) => ret (TrimSpace outputValue)
      | _ => throw ErrWrongOutputTypeInRun
      end.

(** ** Apply *)

(** [ctx.Err()]: nil until the context is done.  The context is held by
    the collaborators' world. *)
Variable ctxErr : E → option error.

(** The loop of [Apply]; [chainValues] holds the outputs collected so
    far.  The [select] takes the [ctx.Done()] branch whenever the context
    is done, and the default branch otherwise. *)
Fixpoint applyLoop (chain : Chain E) (inputs : list mapref)
    (chainValues : list mapref) : M E (list mapref) :=
  match inputs with
  | [] => ret chainValues
  | input :: rest =>
      done <- collab (λ e, (ctxErr e, e)) ;;
      match done with
      | Some err => throw err
      | None =>
          vals <- invoke chain input [] ;;
          applyLoop chain rest (chainValues ++ [vals])
      end
  end.

Definition Apply (chain : Chain E) (inputs : list mapref)
    : M E (list mapref) :=
  applyLoop chain inputs [].

End Chain.
Arguments CallbackOptions : clear implicits.
Arguments LLMOptions : clear implicits.
Arguments LLM : clear implicits.
Arguments StuffDocumentsOptions : clear implicits.
Arguments StuffDocuments : clear implicits.
Arguments RefineDocumentsOptions : clear implicits.
Arguments RefineDocuments : clear implicits.
End chain.

(* ===================================================================== *)
(** * Package rag: ConversationalRetrieval
      (src/rag/conversational_retrieval.go) *)
(* ===================================================================== *)

Module rag.
Section Rag.
Context {E : Type}.

(** Modelled from the spec: [schema.ChainValues.GetString] (section 4.1,
    get-as-string): the text under [name]; a value that is not text is a
    type mismatch, and an absent key is a missing input. *)
Definition GetString (values : mapref) (name : string) : M E string :=
  m <- read values ;;
  match m !! name with
  | Some (AString s) => ret s
  | Some _ => throw ErrInputValuesWrongType
  | None =>
      throw (Errorf ErrInvalidInputValues
               (": no value for inputKey " ++ name))
  end.

(** Modelled from the spec: [callback.NoopManager], a notifier without
    observers (section 4.2). *)
Definition NoopManager : RunManager E :=
  {| rmRunID := 0; rmCallbacks := []; rmInheritable := [] |}.

Record ConversationalRetrievalOptions := {
  crCallbacks : list (Callback E);
  crVerbose : bool;
  ReturnSourceDocuments : bool;
  ReturnGeneratedQuestion : bool;
  CondenseQuestionPrompt : option prompt.Template;
  RetrievalQAPrompt : option prompt.Template;
  crMemory : option (Memory E);
  InputKey : string;
  OutputKey : string;
  MaxTokenLimit : nat
}.

(** [retrievalQAChain] has type [*RetrievalQA], whose source is not
    available; it is used through the [schema.Chain] methods only. *)
Record ConversationalRetrieval := {
  crAddr : nat;
  condenseQuestionChain : chain.LLM E;
  retrievalQAChain : Chain E;
  opts : ConversationalRetrievalOptions
}.

(** [v == the empty text] for a dynamic value [v]. *)
Definition isEmptyText (v : any) : bool :=
  match v with
  | AString EmptyString => true
  | _ => false
  end.

(** The option function handed to [golc.Call] by both stages; calling a
    method of a nil manager panics. *)
Definition inherit (opts' : CallOptions E)
    : M E (golc.CallOptions E → golc.CallOptions E) :=
  match CallbackManger opts' with
  | None => panic "invalid memory address or nil pointer dereference"
  | Some rm =>
      ret (λ co, {| golc.Callbacks := callback.GetInheritableCallbacks rm;
                    golc.IncludeRunInfo := golc.IncludeRunInfo co;
                    golc.Stop := golc.Stop co;
                    golc.ParentRunID := Some (callback.RunID rm) |})
  end.

Definition generateQuestion (TrimSpace : string → string)
    (c : ConversationalRetrieval) (inputs : mapref)
    (opts' : CallOptions E) : M E string :=
  m <- read inputs ;;
  if isEmptyText (index m "history")
  then GetString inputs (InputKey (opts c))
  else
    fn <- inherit opts' ;;
    output <- golc.Call (chain.LLM_Chain TrimSpace (condenseQuestionChain c))
                inputs [fn] ;;
    okey <- index0 (chain.LLM_OutputKeys (condenseQuestionChain c)) ;;
    GetString output okey.

Definition Call (TrimSpace : string → string)
    (c : ConversationalRetrieval) (inputs : mapref)
    (optFns : list (CallOptions E → CallOptions E)) : M E mapref :=
  let opts' := apply_opts optFns
                 {| CallbackManger := Some NoopManager;
                    schema.Stop := [] |} in
  generatedQuestion <- generateQuestion TrimSpace c inputs opts' ;;
  ikey <- index0 (chainInputKeys (retrievalQAChain c)) ;;
  question <- alloc {[ ikey := AString generatedQuestion ]} ;;
  fn <- inherit opts' ;;
  retrievalOutput <- golc.Call (retrievalQAChain c) question [fn] ;;
  okey <- index0 (chainOutputKeys (retrievalQAChain c)) ;;
  answer <- GetString retrievalOutput okey ;;
  returns <- alloc {[ OutputKey (opts c) := AString answer ]} ;;
  (if ReturnSourceDocuments (opts c)
   then
     ro <- read retrievalOutput ;;
     store returns "sourceDocuments" (index ro "sourceDocuments")
   else ret tt) ;;
  (if ReturnGeneratedQuestion (opts c)
   then store returns "generatedQuestion" (AString generatedQuestion)
   else ret tt) ;;
  ret returns.

Definition OutputKeys (c : ConversationalRetrieval) : list string :=
  [OutputKey (opts c)]
    ++ (if ReturnSourceDocuments (opts c) then ["sourceDocuments"] else [])
    ++ (if ReturnGeneratedQuestion (opts c)
        then ["generatedQuestion"] else []).

Definition ConversationalRetrieval_Chain (TrimSpace : string → string)
    (c : ConversationalRetrieval) : Chain E :=
  {| chainAddr := crAddr c;
     chainCall := Call TrimSpace c;
     chainMemory := crMemory (opts c);
     chainType := "ConversationalRetrieval";
     chainVerbose := crVerbose (opts c);
     chainCallbacks := crCallbacks (opts c);
     chainInputKeys := [InputKey (opts c)];
     chainOutputKeys := OutputKeys c |}.

End Rag.
Arguments ConversationalRetrievalOptions : clear implicits.
Arguments ConversationalRetrieval : clear implicits.
End rag.

(* ===================================================================== *)
(** * Package retry: the retry wrapper *)
(* ===================================================================== *)

Module retry.
Section Retry.
Context {E : Type}.

(** Modelled from the spec: the configuration of [retry.Do] (the retry
    package is not among the sources).  Section 4.3: a maximum attempt
    count, an inter-attempt delay and a retryable-error predicate.  The
    delay policy maps the attempt number, the error and the configured
    delay to the pause before the next attempt. *)
Record Config := {
  attempts : nat;
  delay : nat;
  delayType : nat → error → nat → nat;
  retryIf : error → bool
}.

(** Modelled from the spec: the options used by the callers. *)
Definition Attempts (n : nat) (c : Config) : Config :=
  {| attempts := n; delay := delay c;
     delayType := delayType c; retryIf := retryIf c |}.

Definition DelayType (f : nat → error → nat → nat) (c : Config)
    : Config :=
  {| attempts := attempts c; delay := delay c;
     delayType := f; retryIf := retryIf c |}.

Definition RetryIf (p : error → bool) (c : Config) : Config :=
  {| attempts := attempts c; delay := delay c;
     delayType := delayType c; retryIf := p |}.

(** Modelled from the spec: a fixed inter-attempt delay. *)
Definition FixedDelay (n : nat) (err : error) (d : nat) : nat := d.

(** Modelled from the spec: the attempt loop of section 4.3.  The
    operation is a closure; [S] is the type of the variables it captures.
    [n] counts the attempts already made, [budget] those left. *)
Fixpoint loop {S} (cfg : Config) (retryableFunc : S → M E (S * option error))
    (budget n : nat) (s : S) (last : option error)
    : M E (S * option error) :=
  match budget with
  | 0 => ret (s, last)
  | Datatypes.S budget' =>
      r <- retryableFunc s ;;
      match snd r with
      | None => ret (fst r, None)
      | Some err =>
          if retryIf cfg err
          then
            match budget' with
            | 0 => ret (fst r, Some err)
            | _ =>
                emit (EvSleep (delayType cfg n err (delay cfg))) ;;
                loop cfg retryableFunc budget' (Datatypes.S n) (fst r)
                     (Some err)
            end
          else ret (fst r, Some err)
      end
  end.

(** Modelled from the spec: [retry.Do(retryableFunc, opts...)]: invokes
    the operation until it succeeds, the attempt budget is exhausted, or
    the predicate rejects the error; returns the last error if
    exhausted. *)
Definition Do {S} (defaults : Config)
    (retryableFunc : S → M E (S * option error)) (s : S)
    (opts : list (Config → Config)) : M E (S * option error) :=
  let cfg := apply_opts opts defaults in
  loop cfg retryableFunc (attempts cfg) 0 s None.

End Retry.
Arguments Config : clear implicits.
End retry.

(* ===================================================================== *)
(** * Package llm: the Cohere model *)
(* ===================================================================== *)

Module llm.
Section Cohere.
Context {E : Type}.

(** [cohere.GenerateOptions] and [cohere.GenerateResponse]: request and
    response of the backend client, opaque to the retry wrapper. *)
Variables GenerateOptions GenerateResponse : Type.

(** [CohereClient]. *)
Record CohereClient := {
  Generate : GenerateOptions → E → (error + GenerateResponse) * E
}.

(** [CohereOptions].  The floating-point sampling parameters only flow
    into the request and are not represented. *)
Record CohereOptions := {
  Callbacks : list (Callback E);
  Verbose : bool;
  Model : string;
  NumGenerations : Z;
  MaxTokens : nat;
  K : Z;
  ReturnLikelihoods : string;
  MaxRetries : nat
}.

Record Cohere := {
  client : CohereClient;
  opts : CohereOptions
}.

Definition NewCohereFromClient (client : CohereClient)
    (optFns : list (CohereOptions → CohereOptions)) : Cohere :=
  let opts := apply_opts optFns
                {| Callbacks := []; Verbose := golc.Verbose;
                   Model := "medium";
                   NumGenerations := 1;
                   MaxTokens := 256;
                   K := 0;
                   ReturnLikelihoods := EmptyString;
                   MaxRetries := 3 |} in
  {| client := client; opts := opts |}.

(** [errors.As(err, &e)] for [e : *cohere.APIError]: the first API error
    along the chain of wrapped errors. *)
Fixpoint asAPIError (err : error) : option Z :=
  match err with
  | APIError code _ => Some code
  | Errorf wrapped _ => asAPIError wrapped
  | _ => None
  end.

(** The predicate given to [retry.RetryIf]. *)
Definition retryable (err : error) : bool :=
  match asAPIError err with
  | Some StatusCode =>
      if Z.eqb StatusCode 429 then true
      else if Z.eqb StatusCode 500 then true
      else false
  | None => false
  end.

(** The closure given to [retry.Do]; it captures [res]. *)
Definition generateOnce (l : Cohere) (opts' : GenerateOptions)
    (res : option GenerateResponse)
    : M E (option GenerateResponse * option error) :=
  r <- collab (Generate (client l) opts') ;;
  match r with
  | inl cErr => emit (EvClientGenerate (Some cErr)) ;; ret (res, Some cErr)
  | inr r' => emit (EvClientGenerate None) ;; ret (Some r', None)
  end.

(** The defaults of the retry package that the wrapper does not set. *)
Variable retryDefaults : retry.Config.

(** [retryOpts] of [generateWithRetry]. *)
Definition retryOpts (l : Cohere) : list (retry.Config → retry.Config) :=
  [ retry.Attempts (MaxRetries (opts l));
    retry.DelayType retry.FixedDelay;
    retry.RetryIf retryable ].

Definition generateWithRetry (l : Cohere) (opts' : GenerateOptions)
    : M E (option GenerateResponse * option error) :=
  retry.Do retryDefaults (generateOnce l opts') None (retryOpts l).

(** What the attempts of a run of the wrapper with attempt budget
    [budget] look like: [delta] are the events of the run, [last] the error
    known before it and [err] the error returned. *)
Definition attemptsPolicy (budget : nat) (last : option error)
    (delta : list event) (err : option error) : Prop :=
  let results := trace.attemptResults delta in
  (length results ≤ budget)%nat ∧
  (0 < budget → 0 < length results)%nat ∧
  (∀ k e, results !! k = Some (Some e) →
          (S k < length results)%nat ↔
          (retryable e = true ∧ (S k < budget)%nat)) ∧
  (∀ k, results !! k = Some None → S k = length results) ∧
  err = List.last results last ∧
  trace.sleeps delta
    = replicate (length results - 1) (retry.delay retryDefaults).

End Cohere.
Arguments CohereClient : clear implicits.
Arguments CohereOptions : clear implicits.
Arguments Cohere : clear implicits.
Arguments Generate {E GenerateOptions GenerateResponse}.
Arguments client {E GenerateOptions GenerateResponse}.
Arguments opts {E GenerateOptions GenerateResponse}.
Arguments NewCohereFromClient {E GenerateOptions GenerateResponse}.
Arguments generateOnce {E GenerateOptions GenerateResponse}.
Arguments retryOpts {E GenerateOptions GenerateResponse}.
Arguments generateWithRetry {E GenerateOptions GenerateResponse}.

Section Generate.
Context {E : Type}.

(** [cohere.GenerateOptions]: the request sent to the backend.  The
    floating-point sampling parameters are not represented. *)
Record GenerateOptions := {
  reqModel : string;
  reqNumGenerations : Z;
  reqMaxTokens : nat;
  reqK : Z;
  reqReturnLikelihoods : string;
  Prompt : string;
  StopSequences : list string
}.

(** [cohere.Generation] and [cohere.GenerateResponse]: the fields that
    [Generate] reads.  The likelihoods are carried as opaque dynamic
    values. *)
Record Generation := {
  Text : string;
  Likelihood : any;
  TokenLikelihoods : any
}.

Record GenerateResponse := {
  Generations : list Generation
}.

(** The defaults of the retry package that the wrapper does not set. *)
Variable retryDefaults : retry.Config.

(** [Cohere.Generate]: generates text based on the provided prompt and
    options. *)
Definition Cohere_Generate (l : Cohere E GenerateOptions GenerateResponse)
    (prompt : string)
    (optFns : list (model.GenerateOptions E → model.GenerateOptions E))
    : M E model.ModelResult :=
  let opts' := apply_opts optFns
                 {| model.goCallbackManger := Some rag.NoopManager;
                    model.goStop := [] |} in
  r <- generateWithRetry retryDefaults l
         {| reqModel := Model (opts l);
            reqNumGenerations := NumGenerations (opts l);
            reqMaxTokens := MaxTokens (opts l);
            reqK := K (opts l);
            reqReturnLikelihoods := ReturnLikelihoods (opts l);
            Prompt := prompt;
            StopSequences := model.goStop opts' |} ;;
  match snd r with
  | Some err => throw err
  | None =>
      match fst r with
      | None => panic "invalid memory address or nil pointer dereference"
      | Some res =>
          match Generations res with
          | [] => panic "index out of range [0] with length 0"
          | g :: _ =>
              ret {| model.Generations := [{| model.Text := Text g |}];
                     model.LLMOutput :=
                       <[ "Likelihood" := Likelihood g ]>
                         {[ "TokenLikelihoods" := TokenLikelihoods g ]} |}
          end
      end
  end.

End Generate.
End llm.


(* ===================================================================== *)
(** * Package chatmodel: the Ollama chat model
      (src/model/chatmodel/ollama.go) *)
(* ===================================================================== *)

Module chatmodel.
Section Ollama.
Context {E : Type}.

(** [schema.ChatMessageType] and the three constants that [Generate]
    names.  Package [schema] is not among the sources: the type, with its
    equality test, and the constants are parameters. *)
Context {ChatMessageType : Type} `{EqDecision ChatMessageType}.
Variables ChatMessageTypeSystem ChatMessageTypeAI ChatMessageTypeHuman
  : ChatMessageType.

(** [fmt.Errorf("unknown message type: %s", t)]. *)
Variable unknownMessageType : ChatMessageType → error.

(** [newChatGeneraton], a helper of the package outside the sources at
    hand: the generation that carries a reply. *)
Variable newChatGeneraton : string → model.Generation.

(** [schema.ChatMessage], through its methods [Type()] and
    [Content()]. *)
Record ChatMessage := {
  msgType : ChatMessageType;
  msgContent : string
}.

(** [ollama.Message]. *)
Record Message := {
  Role : string;
  Content : string
}.

(** [ollama.Options]; the floating-point fields are not represented. *)
Record Options := {
  NumPredict : Z;
  optTopK : Z;
  optStop : list string
}.

(** [ollama.ChatRequest]; [Stream] is a pointer to a boolean. *)
Record ChatRequest := {
  reqModel : string;
  Messages : list Message;
  Stream : option bool;
  reqOptions : Options
}.

(** [ollama.ChatResponse]. *)
Record ChatResponse := {
  respMessage : Message
}.

(** [OllamaClient]. *)
Record OllamaClient := {
  GenerateChat : ChatRequest → E → (error + ChatResponse) * E
}.

(** [OllamaOptions]; the floating-point sampling parameters are not
    represented. *)
Record OllamaOptions := {
  Callbacks : list (Callback E);
  Verbose : bool;
  ModelName : string;
  MaxTokens : Z;
  TopK : Z
}.

Record Ollama := {
  client : OllamaClient;
  opts : OllamaOptions
}.

(** The [switch m.Type()] of [Generate]: the role of a message, if its
    type is one of the three handled. *)
Definition role (t : ChatMessageType) : option string :=
  if decide (t = ChatMessageTypeSystem) then Some "system"
  else if decide (t = ChatMessageTypeAI) then Some "assistant"
  else if decide (t = ChatMessageTypeHuman) then Some "user"
  else None.

(** The loop that fills [ollamaMessages]: it returns at the first message
    of an unhandled type. *)
Fixpoint ollamaMessages (messages : list ChatMessage)
    : error + list Message :=
  match messages with
  | [] => inr []
  | m :: rest =>
      match role (msgType m) with
      | None => inl (unknownMessageType (msgType m))
      | Some r =>
          match ollamaMessages rest with
          | inl err => inl err
          | inr converted =>
              inr ({| Role := r; Content := msgContent m |} :: converted)
          end
      end
  end.

(** [Ollama.Generate]: generates text based on the provided chat messages
    and options. *)
Definition Generate (cm : Ollama) (messages : list ChatMessage)
    (optFns : list (model.GenerateOptions E → model.GenerateOptions E))
    : M E model.ModelResult :=
  let opts' := apply_opts optFns
                 {| model.goCallbackManger := Some rag.NoopManager;
                    model.goStop := [] |} in
  converted <- chain.lift (ollamaMessages messages) ;;
  r <- collab (GenerateChat (client cm)
         {| reqModel := ModelName (opts cm);
            Messages := converted;
            Stream := Some false;
            reqOptions :=
              {| NumPredict := MaxTokens (opts cm);
                 optTopK := TopK (opts cm);
                 optStop := model.goStop opts' |} |}) ;;
  match r with
  | inl err => throw err
  | inr res =>
      ret {| model.Generations :=
               [newChatGeneraton (Content (respMessage res))];
             model.LLMOutput := ∅ |}
  end.

(** [Type], [Verbose], [Callbacks]. *)
Definition Ollama_Type (cm : Ollama) : string := "chatmodel.Ollama".
Definition Ollama_Verbose (cm : Ollama) : bool := Verbose (opts cm).
Definition Ollama_Callbacks (cm : Ollama) : list (Callback E) :=
  Callbacks (opts cm).

(** The message types that the [switch] of [Generate] handles. *)
Definition handled (t : ChatMessageType) : Prop :=
  t = ChatMessageTypeSystem ∨ t = ChatMessageTypeAI
  ∨ t = ChatMessageTypeHuman.

(** A message [om] of the request stands for the chat message [m]: it has
    the content of [m] and the role that goes with the type of [m]. *)
Definition standsFor (m : ChatMessage) (om : Message) : Prop :=
  Content om = msgContent m ∧
  ((msgType m = ChatMessageTypeSystem ∧ Role om = "system") ∨
   (msgType m = ChatMessageTypeAI ∧ Role om = "assistant") ∨
   (msgType m = ChatMessageTypeHuman ∧ Role om = "user")).

End Ollama.
Arguments ChatMessage : clear implicits.
Arguments OllamaClient : clear implicits.
Arguments OllamaOptions : clear implicits.
Arguments Ollama : clear implicits.
End chatmodel.

(* ===================================================================== *)
(** * The interaction protocol of golc.Call *)
(* ===================================================================== *)

Module protocol.
Section Protocol.
Context {E : Type}.

(** The options with which [golc.Call] starts. *)
Definition defaultCallOptions : golc.CallOptions E :=
  {| golc.Callbacks := []; golc.IncludeRunInfo := false;
     golc.Stop := []; golc.ParentRunID := None |}.

(** The store after the range loop has assigned [vars] into [inputs]. *)
Definition merged (h0 : heapT) (inputs : mapref) (vars : gmap string any)
    (pre : heapT) : Prop :=
  (vars = ∅ ∧ pre = h0) ∨
  (∃ l, inputs = MapAt l ∧ vars ≠ ∅ ∧
        pre = <[l := vars ∪ deref h0 inputs]> h0).

(** The memory stage: the load event, the loaded variables and the store
    in which the unit's own call starts. *)
Definition Loaded (chain : Chain E) (h0 : heapT) (inputs : mapref)
    (vars : gmap string any) (loads : list event) (pre : heapT) : Prop :=
  match chainMemory chain with
  | None => vars = ∅ ∧ loads = [] ∧ pre = h0
  | Some _ =>
      (∃ lres, loads = [EvLoadMemoryVariables (deref h0 inputs) vars lres])
      ∧ merged h0 inputs vars pre
  end.

(** The save event of a successful call of a unit with Memory. *)
Definition saves (chain : Chain E) (inputs out : mapref) (post : heapT)
    : list event :=
  match chainMemory chain with
  | Some _ => [EvSaveContext (deref post inputs) (deref post out) None]
  | None => []
  end.

(** What follows the return [ret] of the unit's own call: the result [r]
    handed to the caller, the events after the dispatch and the final
    store. *)
Inductive Finished (chain : Chain E) (inputs : mapref)
    (opts : golc.CallOptions E) (run : nat) (post : heapT)
    : outcome mapref → outcome mapref → list event → heapT → Prop :=
| FinPanic msg :
    Finished chain inputs opts run post (Panic msg) (Panic msg) [] post
| FinError e cb :
    Finished chain inputs opts run post (Err e) (Err (default e cb))
      [EvOnChainError run e cb] post
| FinSaveFails out e :
    chainMemory chain ≠ None →
    Finished chain inputs opts run post (Ok out) (Err e)
      [EvSaveContext (deref post inputs) (deref post out) (Some e)] post
| FinEndFails out e :
    Finished chain inputs opts run post (Ok out) (Err e)
      (saves chain inputs out post
         ++ [EvOnChainEnd run (deref post out) (Some e)]) post
| FinOk out :
    golc.IncludeRunInfo opts = false →
    Finished chain inputs opts run post (Ok out) (Ok out)
      (saves chain inputs out post
         ++ [EvOnChainEnd run (deref post out) None]) post
| FinOkRunInfo lo :
    golc.IncludeRunInfo opts = true →
    Finished chain inputs opts run post (Ok (MapAt lo)) (Ok (MapAt lo))
      (saves chain inputs (MapAt lo) post
         ++ [EvOnChainEnd run (deref post (MapAt lo)) None])
      (<[lo := <["runInfo" := ARunID run]> (deref post (MapAt lo))]> post)
| FinRunInfoPanic msg :
    golc.IncludeRunInfo opts = true →
    Finished chain inputs opts run post (Ok NilMap) (Panic msg)
      (saves chain inputs NilMap post
         ++ [EvOnChainEnd run (deref post NilMap) None]) post.

(** One run of [golc.Call] from store [h0] with run identifier [run]: its
    result, the events it adds to the log and the store it leaves. *)
Inductive CallTrace (chain : Chain E) (inputs : mapref)
    (opts : golc.CallOptions E) (h0 : heapT) (run : nat)
    : outcome mapref → list event → heapT → Prop :=
| CallStartFails e :
    CallTrace chain inputs opts h0 run (Err e)
      [EvOnChainStart run (chainType chain) (deref h0 inputs) (Some e)] h0
| CallLoadPanics vars lres msg :
    chainMemory chain ≠ None → inputs = NilMap → vars ≠ ∅ →
    CallTrace chain inputs opts h0 run (Panic msg)
      [EvOnChainStart run (chainType chain) (deref h0 inputs) None;
       EvLoadMemoryVariables (deref h0 inputs) vars lres] h0
| CallRuns vars loads pre sub ret post r tail h' :
    Loaded chain h0 inputs vars loads pre →
    Finished chain inputs opts run post ret r tail h' →
    CallTrace chain inputs opts h0 run r
      (EvOnChainStart run (chainType chain) (deref h0 inputs) None
         :: loads
         ++ EvChainCall (chainAddr chain) inputs pre sub ret post :: tail)
      h'.

(** A unit whose own call does not look at the call-scoped options nor at
    the run tracker: its result and the store it leaves are determined by
    its inputs, the store and the collaborators' world. *)
Definition optionsInsensitive (c : Chain E) : Prop :=
  ∀ inputs optFns optFns' (st st' : state E),
    heap st = heap st' → ext st = ext st' →
    (chainCall c inputs optFns st).1 = (chainCall c inputs optFns' st').1 ∧
    heap (chainCall c inputs optFns st).2
      = heap (chainCall c inputs optFns' st').2.

(** A unit whose own call only adds map objects to the store: every
    object that was there when the call started is left as it was. *)
Definition storePreserving (c : Chain E) : Prop :=
  ∀ inputs optFns (st st' : state E) (r : outcome mapref),
    chainCall c inputs optFns st = (r, st') → heap st ⊆ heap st'.

End Protocol.
End protocol.

(* ===================================================================== *)
(** * A concrete world on which the engine is run *)
(* ===================================================================== *)

Module examples.

(** A world for running the engine: the collaborators' state is a counter
    of the records the memory has saved. *)
Definition question : gmap string any := {[ "question" := AString "q" ]}.

Definition st0 : state nat := mkState {[ 0 := question ]} 0 0 [].

(** A memory that supplies the conversation so far. *)
Definition historyMemory : Memory nat :=
  {| LoadMemoryVariables :=
       λ _ w, (({[ "history" := AString "h" ]}, None), w);
     SaveContext := λ _ _ w, (None, S w) |}.

(** A memory whose store cannot be read. *)
Definition brokenMemory : Memory nat :=
  {| LoadMemoryVariables := λ _ w, ((∅, Some (ErrOther 7)), w);
     SaveContext := λ _ _ w, (None, S w) |}.

(** A memory that cannot persist a turn. *)
Definition readOnlyMemory : Memory nat :=
  {| LoadMemoryVariables :=
       λ _ w, (({[ "history" := AString "h" ]}, None), w);
     SaveContext := λ _ _ w, (Some (ErrOther 5), w) |}.

(** A unit that answers with the question it was asked. *)
Definition echoCall (inputs : mapref)
    (optFns : list (CallOptions nat → CallOptions nat)) : M nat mapref :=
  m <- read inputs ;;
  alloc {[ "text" := index m "question" ]}.

Definition echo (mem : option (Memory nat)) : Chain nat :=
  {| chainAddr := 1; chainCall := echoCall; chainMemory := mem;
     chainType := "Echo"; chainVerbose := false; chainCallbacks := [];
     chainInputKeys := ["question"]; chainOutputKeys := ["text"] |}.

(** A unit whose own call always fails with [e]. *)
Definition failing (e : error) : Chain nat :=
  {| chainAddr := 2; chainCall := λ _ _, throw e; chainMemory := None;
     chainType := "Failing"; chainVerbose := false; chainCallbacks := [];
     chainInputKeys := ["question"]; chainOutputKeys := ["text"] |}.

(** An observer whose error hook itself fails with [e]. *)
Definition grumpy (e : error) : Callback nat :=
  {| cbOnChainStart := λ _ _ _ w, (None, w);
     cbOnChainEnd := λ _ _ w, (None, w);
     cbOnChainError := λ _ _ w, (Some e, w) |}.

Definition withCallbacks (cbs : list (Callback nat))
    (o : golc.CallOptions nat) : golc.CallOptions nat :=
  {| golc.Callbacks := cbs;
     golc.IncludeRunInfo := golc.IncludeRunInfo o;
     golc.Stop := golc.Stop o;
     golc.ParentRunID := golc.ParentRunID o |}.

(** A unit that insists on being run under a run tracker: its own call
    fails when it is given no callback manager. *)
Definition trackedCall (inputs : mapref)
    (optFns : list (CallOptions nat → CallOptions nat)) : M nat mapref :=
  match CallbackManger
          (apply_opts optFns {| CallbackManger := None; Stop := [] |}) with
  | None => throw (ErrOther 3)
  | Some _ => echoCall inputs optFns
  end.

Definition tracked : Chain nat :=
  {| chainAddr := 3; chainCall := trackedCall; chainMemory := None;
     chainType := "Tracked"; chainVerbose := false; chainCallbacks := [];
     chainInputKeys := ["question"]; chainOutputKeys := ["text"] |}.

(** A unit that answers with white space around the question. *)
Definition paddedCall (inputs : mapref)
    (optFns : list (CallOptions nat → CallOptions nat)) : M nat mapref :=
  m <- read inputs ;;
  match index m "question" with
  | AString q => alloc {[ "text" := AString (" " ++ q ++ " ")%string ]}
  | _ => throw ErrInputValuesWrongType
  end.

Definition padded : Chain nat :=
  {| chainAddr := 4; chainCall := paddedCall; chainMemory := None;
     chainType := "Padded"; chainVerbose := false; chainCallbacks := [];
     chainInputKeys := ["question"]; chainOutputKeys := ["text"] |}.

(** A batch of two questions, and a completion order in which the second
    goroutine finishes first. *)
Definition batchState : state nat :=
  mkState {[ 0 := {[ "question" := AString "a" ]};
             1 := {[ "question" := AString "b" ]} ]} 0 0 [].

Definition batchInputs : list mapref := [MapAt 0; MapAt 1].

Definition batchOpts : golc.BatchCallOptions nat :=
  {| golc.bcCallbacks := []; golc.bcStop := [] |}.

Definition batchRun : outcome (list mapref) * state nat :=
  golc.BatchCall S (echo None) batchInputs [] [1; 0] batchState.

(** A backend that is rate limited on its first request. *)
Definition busyClient : llm.CohereClient nat unit string :=
  {| llm.Generate :=
       λ _ w, match w with
              | 0 => (inl (APIError 429 "too many requests"), S w)
              | _ => (inr "song", S w)
              end |}.

(** A backend that rejects the credentials. *)
Definition lockedClient : llm.CohereClient nat unit string :=
  {| llm.Generate := λ _ w, (inl (APIError 401 "invalid api key"), S w) |}.

Definition retryDefaults : retry.Config :=
  {| retry.attempts := 10; retry.delay := 100;
     retry.delayType := λ n _ d, d * 2 ^ n;
     retry.retryIf := λ _, true |}.

Definition withMaxRetries (n : nat) (o : llm.CohereOptions nat)
    : llm.CohereOptions nat :=
  {| llm.Callbacks := llm.Callbacks o; llm.Verbose := llm.Verbose o;
     llm.Model := llm.Model o; llm.NumGenerations := llm.NumGenerations o;
     llm.MaxTokens := llm.MaxTokens o; llm.K := llm.K o;
     llm.ReturnLikelihoods := llm.ReturnLikelihoods o;
     llm.MaxRetries := n |}.

Definition busyRun
    : outcome (option string * option error) * state nat :=
  llm.generateWithRetry retryDefaults
    (llm.NewCohereFromClient busyClient [withMaxRetries 2]) tt st0.

Definition lockedRun
    : outcome (option string * option error) * state nat :=
  llm.generateWithRetry retryDefaults
    (llm.NewCohereFromClient lockedClient []) tt st0.

(** A template that renders the ["context"] variable, a backend that
    answers every prompt, and the units built from them. *)
Definition contextTemplate : prompt.Template :=
  {| prompt.Format :=
       λ m, match m !! "context" with
            | Some (AString s) => inr ("Context: " ++ s)%string
            | _ => inl (ErrOther 9)
            end;
     prompt.InputVariables := ["context"] |}.

Definition answering : model.LLM nat :=
  {| model.GeneratePrompt :=
       λ prompts _ w,
         (inr [[ {| model.Text := (" re: " ++ hd EmptyString prompts ++ " ")%string |} ]],
          S w) |}.

Definition answerUnit : chain.LLM nat :=
  chain.NewLLM 10 answering contextTemplate [].

Definition stuffUnit : chain.StuffDocuments nat :=
  chain.NewStuffDocuments 11 answerUnit [].

Definition docsAB : list Document :=
  [mkDocument "A" ∅; mkDocument "B" ∅].

Definition docsState : state nat :=
  mkState {[ 0 := {[ "inputDocuments" := ADocs docsAB ]} ]} 0 0 [].

Definition stuffRun : outcome mapref * state nat :=
  chain.StuffDocuments_Call strings.TrimSpaceASCII stuffUnit (MapAt 0) []
    docsState.

(** A conversational retrieval unit, asked without and with history. *)
Definition condenseTemplate : prompt.Template :=
  {| prompt.Format :=
       λ m, match m !! "history", m !! "question" with
            | Some (AString h), Some (AString q) => inr (h ++ "|" ++ q)%string
            | _, _ => inl (ErrOther 8)
            end;
     prompt.InputVariables := ["history"; "question"] |}.

Definition retrieval : rag.ConversationalRetrieval nat :=
  {| rag.crAddr := 22;
     rag.condenseQuestionChain :=
       chain.NewLLM 20 answering condenseTemplate [];
     rag.retrievalQAChain := echo None;
     rag.opts :=
       {| rag.crCallbacks := []; rag.crVerbose := false;
          rag.ReturnSourceDocuments := false;
          rag.ReturnGeneratedQuestion := false;
          rag.CondenseQuestionPrompt := Some condenseTemplate;
          rag.RetrievalQAPrompt := None;
          rag.crMemory := None;
          rag.InputKey := "question"; rag.OutputKey := "answer";
          rag.MaxTokenLimit := 0 |} |}.

Definition firstTurn : gmap string any :=
  {[ "question" := AString "q"; "history" := AString EmptyString ]}.

Definition followUp : gmap string any :=
  {[ "question" := AString "q"; "history" := AString "h" ]}.

Definition firstTurnState : state nat := mkState {[ 0 := firstTurn ]} 0 0 [].

Definition followUpState : state nat := mkState {[ 0 := followUp ]} 0 0 [].

Definition noopOptions : CallOptions nat :=
  {| CallbackManger := Some rag.NoopManager; Stop := [] |}.

Definition followUpRun : outcome string * state nat :=
  rag.generateQuestion strings.TrimSpaceASCII retrieval (MapAt 0)
    noopOptions followUpState.

(** A refine unit over three documents.  Its inner units take a single
    input, as [golc.SimpleCall] requires. *)
Definition pageTemplate : prompt.Template :=
  {| prompt.Format :=
       λ m, match m !! "pageContent" with
            | Some (AString s) => inr s
            | _ => inl (ErrOther 8)
            end;
     prompt.InputVariables := ["pageContent"] |}.

Definition wrappedTemplate (name : string) : prompt.Template :=
  {| prompt.Format :=
       λ m, match m !! "input" with
            | Some (AMap _) => inr name
            | _ => inl (ErrOther 8)
            end;
     prompt.InputVariables := ["input"] |}.

Definition refineUnit : chain.RefineDocuments nat :=
  {| chain.rdAddr := 30;
     chain.rdLlmChain :=
       chain.NewLLM 31 answering (wrappedTemplate "initial") [];
     chain.refineLLMChain :=
       chain.NewLLM 32 answering (wrappedTemplate "refine") [];
     chain.rdOpts :=
       {| chain.rdCallbackOptions :=
            {| chain.Callbacks := []; chain.Verbose := false |};
          chain.rdInputKey := "inputDocuments";
          chain.rdDocumentVariableName := "context";
          chain.InitialResponseName := "existingAnswer";
          chain.DocumentPrompt := Some pageTemplate;
          chain.rdOutputKey := "text" |} |}.

Definition docsABC : list Document :=
  [mkDocument "A" ∅; mkDocument "B" ∅; mkDocument "C" ∅].

Definition refineState : state nat :=
  mkState {[ 0 := {[ "inputDocuments" := ADocs docsABC ]} ]} 0 0 [].

Definition refineRun : outcome mapref * state nat :=
  chain.RefineDocuments_Call strings.TrimSpaceASCII refineUnit (MapAt 0) []
    refineState.

(** The runs used below. *)
Definition memoryChain : Chain nat := echo (Some historyMemory).

(** The store once the history has been merged into the question, and
    once the answer has been allocated. *)
Definition mergedHeap : heapT :=
  <[0 := {[ "history" := AString "h" ]} ∪ question]> (heap st0).

Definition answeredHeap : heapT :=
  <[1 := {[ "text" := AString "q" ]}]> mergedHeap.

Definition memoryRun : outcome mapref * state nat :=
  golc.Call memoryChain (MapAt 0) [] st0.

Definition brokenRun : outcome mapref * state nat :=
  golc.Call (echo (Some brokenMemory)) (MapAt 0) [] st0.

Definition plainRun : outcome mapref * state nat :=
  golc.Call (echo None) (MapAt 0) [] st0.

Definition unsavedRun : outcome mapref * state nat :=
  golc.Call (echo (Some readOnlyMemory)) (MapAt 0) [] st0.

Definition failingRun : outcome mapref * state nat :=
  golc.Call (failing (ErrOther 1)) (MapAt 0)
            [withCallbacks [grumpy (ErrOther 2)]] st0.

End examples.

(* ===================================================================== *)
(** * Further runs: entry points, Apply, backends *)
(* ===================================================================== *)

Module scenarios.
Import examples.

(** An observer that refuses the start of a run with [e]. *)
Definition refusing (e : error) : Callback nat :=
  {| cbOnChainStart := λ _ _ _ w, (Some e, w);
     cbOnChainEnd := λ _ _ w, (None, w);
     cbOnChainError := λ _ _ w, (None, w) |}.

Definition refusedRun : outcome mapref * state nat :=
  golc.Call memoryChain (MapAt 0) [withCallbacks [refusing (ErrOther 4)]]
    st0.

(** An observer that fails when told of the end of a run. *)
Definition sulking (e : error) : Callback nat :=
  {| cbOnChainStart := λ _ _ _ w, (None, w);
     cbOnChainEnd := λ _ _ w, (Some e, w);
     cbOnChainError := λ _ _ w, (None, w) |}.

Definition unendedRun : outcome mapref * state nat :=
  golc.Call memoryChain (MapAt 0) [withCallbacks [sulking (ErrOther 4)]]
    st0.

Definition withRunInfo (o : golc.CallOptions nat) : golc.CallOptions nat :=
  {| golc.Callbacks := golc.Callbacks o;
     golc.IncludeRunInfo := true;
     golc.Stop := golc.Stop o;
     golc.ParentRunID := golc.ParentRunID o |}.

Definition runInfoRun : outcome mapref * state nat :=
  golc.Call (echo None) (MapAt 0) [withRunInfo] st0.

(** A unit that answers with something that is not text. *)
Definition counting : Chain nat :=
  {| chainAddr := 5;
     chainCall := λ _ _, alloc {[ "text" := AOther 1 ]};
     chainMemory := None;
     chainType := "Counting"; chainVerbose := false; chainCallbacks := [];
     chainInputKeys := ["question"]; chainOutputKeys := ["text"] |}.

Definition countingRun : outcome string * state nat :=
  golc.SimpleCall counting (AString "q") [] st0.

(** [chain.Run] on a unit that declares a Memory. *)
Definition directRun : outcome string * state nat :=
  chain.Run strings.TrimSpaceASCII memoryChain (AString " q ") st0.

(** A unit that refuses the question ["bad"]. *)
Definition pickyCall (inputs : mapref)
    (optFns : list (CallOptions nat → CallOptions nat)) : M nat mapref :=
  m <- read inputs ;;
  match index m "question" with
  | AString "bad" => throw (ErrOther 6)
  | v => alloc {[ "text" := v ]}
  end.

Definition picky : Chain nat :=
  {| chainAddr := 6; chainCall := pickyCall; chainMemory := None;
     chainType := "Picky"; chainVerbose := false; chainCallbacks := [];
     chainInputKeys := ["question"]; chainOutputKeys := ["text"] |}.

(** Three questions, the second of which is refused. *)
Definition mixedState : state nat :=
  mkState {[ 0 := {[ "question" := AString "a" ]};
             1 := {[ "question" := AString "bad" ]};
             2 := {[ "question" := AString "c" ]} ]} 0 0 [].

Definition mixedInputs : list mapref := [MapAt 0; MapAt 1; MapAt 2].

Definition mixedBatch : outcome (list mapref) * state nat :=
  golc.BatchCall S picky mixedInputs [] [2; 0; 1] mixedState.

(** A context that is never done, and one that is done once the world
    has moved. *)
Definition neverDone : nat → option error := λ _, None.

Definition appliedRun : outcome (list mapref) * state nat :=
  chain.Apply neverDone (echo None) batchInputs batchState.

Definition brokenApply : outcome (list mapref) * state nat :=
  chain.Apply neverDone picky mixedInputs mixedState.

(** The answering unit asked about a context. *)
Definition contextState : state nat :=
  mkState {[ 0 := {[ "context" := AString "c" ]} ]} 0 0 [].

Definition answerRun : outcome mapref * state nat :=
  chain.LLM_Call strings.TrimSpaceASCII answerUnit (MapAt 0) []
    contextState.

(** A retrieval unit that also returns the question it generated. *)
Definition talkative : rag.ConversationalRetrieval nat :=
  {| rag.crAddr := 23;
     rag.condenseQuestionChain := rag.condenseQuestionChain retrieval;
     rag.retrievalQAChain := echo None;
     rag.opts :=
       {| rag.crCallbacks := []; rag.crVerbose := false;
          rag.ReturnSourceDocuments := false;
          rag.ReturnGeneratedQuestion := true;
          rag.CondenseQuestionPrompt := Some condenseTemplate;
          rag.RetrievalQAPrompt := None;
          rag.crMemory := None;
          rag.InputKey := "question"; rag.OutputKey := "answer";
          rag.MaxTokenLimit := 0 |} |}.

Definition firstTurnCall : outcome mapref * state nat :=
  rag.Call strings.TrimSpaceASCII talkative (MapAt 0) [] firstTurnState.

(** A backend that fails once with a server fault and then answers with
    two generations. *)
Definition twoSongs : llm.GenerateResponse :=
  {| llm.Generations :=
       [ {| llm.Text := "la"; llm.Likelihood := AOther 1;
            llm.TokenLikelihoods := AOther 2 |};
         {| llm.Text := "lo"; llm.Likelihood := AOther 3;
            llm.TokenLikelihoods := AOther 4 |} ] |}.

Definition songClient
    : llm.CohereClient nat llm.GenerateOptions llm.GenerateResponse :=
  {| llm.Generate :=
       λ _ w, match w with
              | 0 => (inl (APIError 500 "server fault"), S w)
              | _ => (inr twoSongs, S w)
              end |}.

Definition songRun : outcome model.ModelResult * state nat :=
  llm.Cohere_Generate retryDefaults (llm.NewCohereFromClient songClient [])
    "sing" [] st0.

(** A chat with the Ollama model; message types are named by strings. *)
Definition chat : list (chatmodel.ChatMessage string) :=
  [ {| chatmodel.msgType := "system"; chatmodel.msgContent := "be brief" |};
    {| chatmodel.msgType := "human"; chatmodel.msgContent := "hi" |};
    {| chatmodel.msgType := "ai"; chatmodel.msgContent := "hello" |} ].

Definition functionCall : chatmodel.ChatMessage string :=
  {| chatmodel.msgType := "function"; chatmodel.msgContent := "f()" |}.

Definition unknownType (t : string) : error :=
  match t with
  | "function" => ErrOther 11
  | _ => ErrOther 12
  end.

(** A backend that answers with the number of messages it was sent. *)
Definition tallying : chatmodel.Ollama nat :=
  {| chatmodel.client :=
       {| chatmodel.GenerateChat :=
            λ req w,
              (inr {| chatmodel.respMessage :=
                        {| chatmodel.Role := "assistant";
                           chatmodel.Content :=
                             match length (chatmodel.Messages req) with
                             | 3 => "three"
                             | _ => "some"
                             end |} |}, S w) |};
     chatmodel.opts :=
       {| chatmodel.Callbacks := []; chatmodel.Verbose := golc.Verbose;
          chatmodel.ModelName := "llama2";
          chatmodel.MaxTokens := 256; chatmodel.TopK := 0 |} |}.

Definition newGeneration (s : string) : model.Generation :=
  {| model.Text := s |}.

Definition chatRun : outcome model.ModelResult * state nat :=
  chatmodel.Generate "system" "ai" "human" unknownType newGeneration
    tallying chat [] st0.

(** A refine unit whose output key differs from that of its initial
    inner unit. *)
Definition mismatched : chain.RefineDocuments nat :=
  {| chain.rdAddr := 33;
     chain.rdLlmChain := chain.rdLlmChain refineUnit;
     chain.refineLLMChain := chain.refineLLMChain refineUnit;
     chain.rdOpts :=
       {| chain.rdCallbackOptions :=
            {| chain.Callbacks := []; chain.Verbose := false |};
          chain.rdInputKey := "inputDocuments";
          chain.rdDocumentVariableName := "context";
          chain.InitialResponseName := "existingAnswer";
          chain.DocumentPrompt := Some pageTemplate;
          chain.rdOutputKey := "answer" |} |}.

Definition mismatchedRun : outcome string * state nat :=
  golc.SimpleCall
    (chain.RefineDocuments_Chain strings.TrimSpaceASCII mismatched)
    (ADocs docsABC) [] st0.

(** The answering unit called with a stop word. *)
Definition withStop (stop : list string) (o : golc.SimpleCallOptions nat)
    : golc.SimpleCallOptions nat :=
  {| golc.scCallbacks := golc.scCallbacks o; golc.scStop := stop |}.

Definition stopRun : outcome string * state nat :=
  golc.SimpleCall (chain.LLM_Chain strings.TrimSpaceASCII answerUnit)
    (AString "c") [withStop ["END"]] st0.

(** A follow-up question to the retrieval unit. *)
Definition followUpCall : outcome mapref * state nat :=
  rag.Call strings.TrimSpaceASCII talkative (MapAt 0) [] followUpState.

End scenarios.

(* ===================================================================== *)
(** * Facts about the state monad and the store *)
(* ===================================================================== *)

Section MonadFacts.
Context {E : Type}.

Lemma since_app (st st' : state E) (delta : list event) :
  log st' = log st ++ delta → trace.since st st' = delta.
Proof.
  intros H. unfold trace.since. rewrite H. by rewrite drop_app_length.
Qed.

Lemma store_nonnil (l : loc) (k : string) (v : any) (st : state E) :
  store (MapAt l) k v st =
    (Ok tt, mkState (<[l := <[k := v]> (deref (heap st) (MapAt l))]> (heap st))
                    (ext st) (runs st) (log st)).
Proof. reflexivity. Qed.

(** The range loop over the loaded variables assigns every one of them:
    the target ends up as [vars ∪ old], the loaded value winning. *)
Lemma range_assign_cases (l : loc) (vars : gmap string any) :
  (vars = ∅ ∧ range_assign (E := E) (MapAt l) vars = ret tt) ∨
  (vars ≠ ∅ ∧ ∀ st : state E,
     range_assign (MapAt l) vars st =
       (Ok tt, mkState (<[l := vars ∪ deref (heap st) (MapAt l)]> (heap st))
                       (ext st) (runs st) (log st))).
Proof.
  unfold range_assign.
  apply (map_fold_weak_ind (λ (r : M E unit) (m : gmap string any),
    (m = ∅ ∧ r = ret tt) ∨
    (m ≠ ∅ ∧ ∀ st, r st =
       (Ok tt, mkState (<[l := m ∪ deref (heap st) (MapAt l)]> (heap st))
                       (ext st) (runs st) (log st))))).
  - by left.
  - intros i x m r Hi IH. right. split.
    { apply insert_non_empty. }
    intros st. unfold bind.
    destruct IH as [[-> ->] | [_ IH]].
    + unfold ret. rewrite store_nonnil. simpl.
      by rewrite insert_empty, <-insert_union_singleton_l.
    + rewrite IH, store_nonnil. simpl.
      rewrite lookup_insert_eq. simpl.
      by rewrite insert_insert_eq, insert_union_l.
Qed.

Lemma range_assign_nil (vars : gmap string any) :
  (vars = ∅ ∧ range_assign (E := E) NilMap vars = ret tt) ∨
  (vars ≠ ∅ ∧ ∀ st : state E,
     range_assign NilMap vars st =
       (Panic "assignment to entry in nil map", st)).
Proof.
  unfold range_assign.
  apply (map_fold_weak_ind (λ (r : M E unit) (m : gmap string any),
    (m = ∅ ∧ r = ret tt) ∨
    (m ≠ ∅ ∧ ∀ st, r st = (Panic "assignment to entry in nil map", st)))).
  - by left.
  - intros i x m r Hi IH. right. split.
    { apply insert_non_empty. }
    intros st. unfold bind.
    destruct IH as [[-> ->] | [_ IH]]; [done|].
    by rewrite IH.
Qed.

(** Whatever the loop does, a normal return leaves the target holding the
    loaded variables over its old contents, and touches nothing else. *)
Lemma range_assign_ok (r : mapref) (vars : gmap string any)
    (st st' : state E) :
  range_assign r vars st = (Ok tt, st') →
  deref (heap st') r = vars ∪ deref (heap st) r ∧
  ext st' = ext st ∧ runs st' = runs st ∧ log st' = log st ∧
  (∀ l, r ≠ MapAt l → heap st' !! l = heap st !! l).
Proof.
  destruct r as [|l].
  - destruct (range_assign_nil vars) as [[-> Hr] | [_ Hr]].
    + rewrite Hr. intros [= <-]. simpl. by rewrite (left_id_L ∅ (∪)).
    + by rewrite Hr.
  - destruct (range_assign_cases l vars) as [[-> Hr] | [_ Hr]].
    + rewrite Hr. intros [= <-]. simpl. by rewrite (left_id_L ∅ (∪)).
    + rewrite Hr. intros [= <-]. simpl. rewrite lookup_insert_eq. simpl.
      repeat split; try done.
      intros l' Hl'. rewrite lookup_insert_ne; [done | congruence].
Qed.

Lemma range_assign_outcome (r : mapref) (vars : gmap string any)
    (st : state E) (o : outcome unit) (st' : state E) :
  range_assign r vars st = (o, st') →
  ext st' = ext st ∧ runs st' = runs st ∧ log st' = log st ∧
  (o = Ok tt ∨ ∃ msg, o = Panic msg ∧ st' = st).
Proof.
  destruct r as [|l].
  - destruct (range_assign_nil vars) as [[-> Hr] | [_ Hr]].
    + rewrite Hr. intros [= <- <-]. eauto.
    + rewrite Hr. intros [= <- <-]. repeat split; try done. right. eauto.
  - destruct (range_assign_cases l vars) as [[-> Hr] | [_ Hr]].
    + rewrite Hr. intros [= <- <-]. eauto.
    + rewrite Hr. intros [= <- <-]. simpl. eauto.
Qed.

End MonadFacts.

(** Forward execution of a [bind] in a hypothesis: name the run of the
    first computation and case on it. *)
Ltac fwd H :=
  unfold bind in H at 1;
  match type of H with
  | (match ?x with _ => _ end) = _ =>
      let Hrun := fresh "Hrun" in
      destruct x as [? ?] eqn:Hrun
  end.

Section Steps.
Context {E : Type}.

Lemma bind_inv {A B} (m : M E A) (k : A → M E B) (st st' : state E)
    (r : outcome B) :
  bind m k st = (r, st') →
  (∃ a st1, m st = (Ok a, st1) ∧ k a st1 = (r, st')) ∨
  (∃ e, m st = (Err e, st') ∧ r = Err e) ∨
  (∃ msg, m st = (Panic msg, st') ∧ r = Panic msg).
Proof.
  unfold bind. destruct (m st) as [[a|e|msg] st1]; intros H.
  - left. eauto.
  - right. left. injection H as <- <-. eauto.
  - right. right. injection H as <- <-. eauto.
Qed.

Lemma attempt_inv {A} (m : M E A) (st st' : state E)
    (r : outcome (A + error)) :
  attempt m st = (r, st') →
  (∃ a, m st = (Ok a, st') ∧ r = Ok (inl a)) ∨
  (∃ e, m st = (Err e, st') ∧ r = Ok (inr e)) ∨
  (∃ msg, m st = (Panic msg, st') ∧ r = Panic msg).
Proof.
  unfold attempt. destruct (m st) as [[a|e|msg] st1]; intros [= <- <-]; eauto.
Qed.

Lemma OnChainStart_inv (cm : callback.Manager E) (kind : string)
    (inputs : mapref) (st st' : state E) (r : outcome (RunManager E)) :
  callback.OnChainStart cm kind inputs st = (r, st') →
  heap st' = heap st ∧ runs st' = S (runs st) ∧
  ∃ res,
    callback.notify
      (map (λ cb, cbOnChainStart cb kind (deref (heap st) inputs) (runs st))
           (callback.observers cm)) (ext st) = (res, ext st') ∧
    log st' = log st ++ [EvOnChainStart (runs st) kind
                           (deref (heap st) inputs) res] ∧
    match res with
    | Some e => r = Err e
    | None => r = Ok {| rmRunID := runs st;
                        rmCallbacks := callback.observers cm;
                        rmInheritable := callback.inheritableCallbacks cm |}
    end.
Proof.
  unfold callback.OnChainStart, bind, read. simpl.
  destruct (callback.notify _ _) as [[e|] e1]; intros [= <- <-]; simpl;
    eauto 10.
Qed.

Lemma OnChainError_inv (rm : RunManager E) (err : error)
    (st st' : state E) (r : outcome (option error)) :
  callback.OnChainError rm err st = (r, st') →
  heap st' = heap st ∧ runs st' = runs st ∧
  ∃ res,
    callback.notify
      (map (λ cb, cbOnChainError cb err (rmRunID rm)) (rmCallbacks rm))
      (ext st) = (res, ext st') ∧
    r = Ok res ∧
    log st' = log st ++ [EvOnChainError (rmRunID rm) err res].
Proof.
  unfold callback.OnChainError, bind, collab, emit, ret. simpl.
  destruct (callback.notify _ _) as [res e1]; intros [= <- <-]; simpl;
    eauto 10.
Qed.

Lemma OnChainEnd_inv (rm : RunManager E) (outputs : mapref)
    (st st' : state E) (r : outcome (option error)) :
  callback.OnChainEnd rm outputs st = (r, st') →
  heap st' = heap st ∧ runs st' = runs st ∧
  ∃ res,
    callback.notify
      (map (λ cb, cbOnChainEnd cb (deref (heap st) outputs) (rmRunID rm))
           (rmCallbacks rm))
      (ext st) = (res, ext st') ∧
    r = Ok res ∧
    log st' = log st ++ [EvOnChainEnd (rmRunID rm)
                           (deref (heap st) outputs) res].
Proof.
  unfold callback.OnChainEnd, bind, collab, emit, ret, read. simpl.
  destruct (callback.notify _ _) as [res e1]; intros [= <- <-]; simpl;
    eauto 10.
Qed.

Lemma loadMemoryVariables_inv (mem : Memory E) (inputs : mapref)
    (st st' : state E) (r : outcome (gmap string any * option error)) :
  golc.loadMemoryVariables mem inputs st = (r, st') →
  heap st' = heap st ∧ runs st' = runs st ∧
  ∃ vars lres,
    LoadMemoryVariables mem (deref (heap st) inputs) (ext st)
      = ((vars, lres), ext st') ∧
    r = Ok (vars, lres) ∧
    log st' = log st ++ [EvLoadMemoryVariables (deref (heap st) inputs)
                           vars lres].
Proof.
  unfold golc.loadMemoryVariables, bind, collab, emit, ret, read. simpl.
  destruct (LoadMemoryVariables _ _ _) as [[vars lres] e1];
    intros [= <- <-]; simpl; eauto 10.
Qed.

Lemma saveContext_inv (mem : Memory E) (inputs outputs : mapref)
    (st st' : state E) (r : outcome (option error)) :
  golc.saveContext mem inputs outputs st = (r, st') →
  heap st' = heap st ∧ runs st' = runs st ∧
  ∃ res,
    SaveContext mem (deref (heap st) inputs) (deref (heap st) outputs)
      (ext st) = (res, ext st') ∧
    r = Ok res ∧
    log st' = log st ++ [EvSaveContext (deref (heap st) inputs)
                           (deref (heap st) outputs) res].
Proof.
  unfold golc.saveContext, bind, collab, emit, ret, read. simpl.
  destruct (SaveContext _ _ _ _) as [res e1];
    intros [= <- <-]; simpl; eauto 10.
Qed.

Lemma invoke_inv (c : Chain E) (inputs : mapref)
    (optFns : list (CallOptions E → CallOptions E))
    (st st' : state E) (r : outcome mapref) :
  invoke c inputs optFns st = (r, st') →
  ∃ sub,
    chainCall c inputs optFns (mkState (heap st) (ext st) (runs st) [])
      = (r, mkState (heap st') (ext st') (runs st') sub) ∧
    log st' = log st ++ [EvChainCall (chainAddr c) inputs (heap st) sub r
                           (heap st')].
Proof.
  unfold invoke.
  destruct (chainCall _ _ _ _) as [r1 [h1 e1 n1 l1]]; intros [= <- <-];
    simpl; eauto.
Qed.

Lemma check_inv (o : option error) (st st' : state E) (r : outcome unit) :
  check o st = (r, st') →
  st' = st ∧ match o with Some e => r = Err e | None => r = Ok tt end.
Proof. destruct o; intros [= <- <-]; done. Qed.

End Steps.

Ltac inv_bind H :=
  let H' := fresh "Hm" in
  apply bind_inv in H as [(? & ? & H' & H) | [(? & H & ?) | (? & H & ?)]];
  simplify_eq.

Section CallProtocol.
Context {E : Type}.
Import protocol.

(** The memory stage of [golc.Call]. *)
Lemma load_stage (chain : Chain E) (inputs : mapref) (st st' : state E)
    (r : outcome unit) :
  match chainMemory chain with
  | Some mem =>
      r <- golc.loadMemoryVariables mem inputs ;;
      range_assign inputs (fst r)
  | None => ret tt
  end st = (r, st') →
  runs st' = runs st ∧
  ((∃ vars loads, r = Ok tt ∧ log st' = log st ++ loads ∧
      Loaded chain (heap st) inputs vars loads (heap st')) ∨
   (∃ vars lres msg, r = Panic msg ∧ heap st' = heap st ∧
      chainMemory chain ≠ None ∧ inputs = NilMap ∧ vars ≠ ∅ ∧
      log st' = log st ++ [EvLoadMemoryVariables (deref (heap st) inputs)
                             vars lres])).
Proof.
  unfold Loaded.
  destruct (chainMemory chain) as [mem|].
  - intros H. inv_bind H;
      apply loadMemoryVariables_inv in Hm || apply loadMemoryVariables_inv in H.
    2,3: by destruct H as (_ & _ & ? & ? & _ & [=] & _).
    destruct Hm as (Hh & Hr & vars & lres & Hload & [= ->] & Hlog).
    simpl in H.
    destruct inputs as [|l].
    + destruct (range_assign_nil (E := E) vars) as [[-> Hra] | [Hne Hra]];
        rewrite Hra in H; injection H as <- <-; (split; [done|]).
      * left. do 2 eexists.
        split; [done|]. split; [exact Hlog|].
        split; [eauto|]. left. by rewrite Hh.
      * right. exists vars, lres. eexists. repeat split; eauto.
    + destruct (range_assign_cases (E := E) l vars)
        as [[-> Hra] | [Hne Hra]];
        rewrite Hra in H; injection H as <- <-; simpl; (split; [done|]);
        left; do 2 eexists;
        (split; [done|]); (split; [exact Hlog|]); (split; [eauto|]).
      * left. by rewrite Hh.
      * right. exists l. by rewrite Hh.
  - intros [= <- <-]. split; [done|]. left. exists ∅, [].
    by rewrite app_nil_r.
Qed.

Lemma end_stage (chain : Chain E) (inputs : mapref)
    (opts : golc.CallOptions E) (rm : RunManager E)
    (outputs : mapref) (st st' : state E) (r : outcome mapref) :
  (e <- callback.OnChainEnd rm outputs ;;
   check e ;;
   (if golc.IncludeRunInfo opts
    then store outputs "runInfo" (ARunID (callback.RunID rm))
    else ret tt) ;;
   ret outputs) st = (r, st') →
  ∃ tail, log st' = log st ++ tail ∧
    Finished chain inputs opts (rmRunID rm) (heap st) (Ok outputs) r
      (saves chain inputs outputs (heap st) ++ tail) (heap st').
Proof.
  intros H. fwd H.
  apply OnChainEnd_inv in Hrun as (Hh1 & _ & res & _ & -> & Hl1).
  eexists. split; [|].
  2: { destruct res as [e|].
    - injection H as <- <-. rewrite Hh1. apply FinEndFails.
    - unfold bind at 1 in H. simpl in H.
      destruct (golc.IncludeRunInfo opts) eqn:Hinfo.
      + destruct outputs as [|lo].
        * injection H as <- <-. rewrite Hh1. by apply FinRunInfoPanic.
        * injection H as <- <-. simpl. rewrite Hh1.
          by apply FinOkRunInfo.
      + injection H as <- <-. rewrite Hh1. by apply FinOk. }
  destruct res as [e|].
  - injection H as <- <-. done.
  - unfold bind at 1 in H. simpl in H.
    destruct (golc.IncludeRunInfo opts).
    + destruct outputs as [|lo]; injection H as <- <-; done.
    + injection H as <- <-. done.
Qed.

Lemma finish_stage (chain : Chain E) (inputs : mapref)
    (opts : golc.CallOptions E) (rm : RunManager E)
    (ret0 : outcome mapref) (st st' : state E) (r : outcome mapref) :
  match ret0 with
  | Ok outputs =>
      match chainMemory chain with
      | Some mem => e <- golc.saveContext mem inputs outputs ;; check e
      | None => ret tt
      end ;;
      e <- callback.OnChainEnd rm outputs ;;
      check e ;;
      (if golc.IncludeRunInfo opts
       then store outputs "runInfo" (ARunID (callback.RunID rm))
       else ret tt) ;;
      ret outputs
  | Err err =>
      cbErr <- callback.OnChainError rm err ;;
      match cbErr with
      | Some e => throw e
      | None => throw err
      end
  | Panic msg => panic msg
  end st = (r, st') →
  ∃ tail, log st' = log st ++ tail ∧
    Finished chain inputs opts (rmRunID rm) (heap st) ret0 r tail (heap st').
Proof.
  destruct ret0 as [outputs|err|msg]; intros H.
  - destruct (chainMemory chain) as [mem|] eqn:Hmem.
    + fwd H. fwd Hrun.
      apply saveContext_inv in Hrun0 as (Hh & _ & res & _ & -> & Hl).
      destruct res as [e|]; simpl in Hrun; injection Hrun as <- <-.
      * injection H as <- <-. eexists. split; [exact Hl|]. rewrite Hh.
        apply FinSaveFails. by rewrite Hmem.
      * apply (end_stage chain inputs) in H as (tail & Hl1 & Hfin).
        exists ([EvSaveContext (deref (heap st) inputs)
                   (deref (heap st) outputs) None] ++ tail).
        split. { by rewrite Hl1, Hl, <-app_assoc. }
        unfold saves in *. rewrite Hmem in *. rewrite Hh in Hfin.
        exact Hfin.
    + unfold bind at 1 in H. simpl in H.
      apply (end_stage chain inputs) in H as (tail & Hl1 & Hfin).
      exists tail. split; [done|].
      unfold saves in *. rewrite Hmem in *. exact Hfin.
  - fwd H.
    apply OnChainError_inv in Hrun as (Hh & _ & res & _ & -> & Hl).
    destruct res as [e|]; injection H as <- <-;
      (eexists; split; [exact Hl|]); rewrite Hh.
    + apply (FinError _ _ _ _ _ err (Some e)).
    + apply (FinError _ _ _ _ _ err None).
  - injection H as <- <-. exists []. rewrite app_nil_r. split; [done|].
    apply FinPanic.
Qed.

Lemma Call_trace (chain : Chain E) (inputs : mapref)
    (optFns : list (golc.CallOptions E → golc.CallOptions E))
    (st st' : state E) (r : outcome mapref) :
  golc.Call chain inputs optFns st = (r, st') →
  ∃ delta, log st' = log st ++ delta ∧
    CallTrace chain inputs (apply_opts optFns defaultCallOptions)
      (heap st) (runs st) r delta (heap st').
Proof.
  unfold golc.Call. fold (defaultCallOptions (E := E)).
  set (opts := apply_opts optFns defaultCallOptions).
  intros H. fwd H.
  apply OnChainStart_inv in Hrun as (Hh & Hr & res & _ & Hl & Hres).
  destruct res as [e|]; subst o.
  { injection H as <- <-. eexists. split; [exact Hl|]. rewrite Hh.
    apply CallStartFails. }
  fwd H.
  apply load_stage in Hrun as [Hr1 [(vars & loads & -> & Hl1 & Hloaded) |
    (vars & lres & msg & -> & Hh1 & Hmem & -> & Hne & Hl1)]].
  2: { injection H as <- <-. eexists. split.
       { rewrite Hl1, Hl, <-app_assoc. done. }
       rewrite Hh1, Hh. by apply CallLoadPanics. }
  fwd H. unfold attempt in Hrun.
  destruct (invoke _ _ _ _) as [ret0 st2] eqn:Hinv.
  apply invoke_inv in Hinv as (sub & _ & Hl2).
  set (rm := {| rmRunID := runs st |}) in H.
  assert (∃ tail, log st' = log st2 ++ tail ∧
            Finished chain inputs opts (rmRunID rm) (heap st2) ret0 r tail
              (heap st')) as (tail & Hl3 & Hfin).
  { destruct ret0 as [out|e|msg]; injection Hrun as <- <-.
    - by apply (finish_stage chain inputs opts rm (Ok out)) in H.
    - by apply (finish_stage chain inputs opts rm (Err e)) in H.
    - by apply (finish_stage chain inputs opts rm (Panic msg)). }
  eexists. split.
  { rewrite Hl3, Hl2, Hl1, Hl. rewrite <-!app_assoc. simpl. done. }
  rewrite Hh in Hloaded.
  by eapply CallRuns.
Qed.


End CallProtocol.

(* ===================================================================== *)
(** * golc.Call: memory, notifications, aliasing *)
(* ===================================================================== *)

Section CallFacts.
Context {E : Type}.
Import protocol.

Lemma merged_deref (h0 pre : heapT) (inputs : mapref)
    (vars : gmap string any) :
  merged h0 inputs vars pre →
  deref pre inputs = vars ∪ deref h0 inputs ∧
  (∀ l, inputs ≠ MapAt l → pre !! l = h0 !! l).
Proof.
  intros [[-> ->] | (l & -> & _ & ->)].
  - by rewrite (left_id_L ∅ (∪)).
  - simpl. rewrite lookup_insert_eq. simpl. split; [done|].
    intros l' Hl'. rewrite lookup_insert_ne; [done | congruence].
Qed.

(** C1 (amended): for a chain that declares a Memory, a successful
    [golc.Call] performs exactly the interactions start, load, the chain's
    own call, save, end; [SaveContext] receives the caller's input mapping
    as it stands after the chain's own call, that is the mapping into which
    the loaded variables were assigned in place before that call, together
    with the chain's outputs.  When the chain's own call does not return
    normally, [SaveContext] is not called. *)
Theorem Call_saves_merged_inputs (chain : Chain E) (mem : Memory E)
    (inputs : mapref)
    (optFns : list (golc.CallOptions E → golc.CallOptions E))
    (st st' : state E) (r : outcome mapref) :
  chainMemory chain = Some mem →
  golc.Call chain inputs optFns st = (r, st') →
  (∀ out, r = Ok out →
     ∃ vars lres pre sub post,
       trace.since st st' =
         [EvOnChainStart (runs st) (chainType chain)
            (deref (heap st) inputs) None;
          EvLoadMemoryVariables (deref (heap st) inputs) vars lres;
          EvChainCall (chainAddr chain) inputs pre sub (Ok out) post;
          EvSaveContext (deref post inputs) (deref post out) None;
          EvOnChainEnd (runs st) (deref post out) None] ∧
       deref pre inputs = vars ∪ deref (heap st) inputs) ∧
  (∀ a i pre sub ret post,
     In (EvChainCall a i pre sub ret post) (trace.since st st') →
     (∀ out, ret ≠ Ok out) →
     trace.count trace.isSaveContext (trace.since st st') = 0).
Proof.
  intros Hmem H.
  apply Call_trace in H as (delta & Hlog & Htr).
  rewrite (since_app _ _ _ Hlog).
  inversion Htr as [e | vars lres msg | vars loads pre sub ret post r' tail h'
                                         Hloaded Hfin]; subst.
  - split; [done|]. intros ?????? [?|[]]; done.
  - split; [done|]. intros ?????? [?|[?|[]]]; done.
  - unfold Loaded in Hloaded. rewrite Hmem in Hloaded.
    destruct Hloaded as [[lres ->] Hmerged].
    apply merged_deref in Hmerged as [Hderef _].
    split.
    + intros out ->.
      inversion Hfin; subst; unfold saves; rewrite Hmem; simpl; eauto 10.
    + intros a i pre' sub' ret' post' Hin Hfail.
      simpl in Hin. destruct Hin as [?|[?|[Heq|Hin]]]; try done.
      * injection Heq as <- <- <- <- <- <-.
        inversion Hfin; subst; try done; exfalso; by eapply Hfail.
      * inversion Hfin; subst; unfold saves in Hin;
          try rewrite Hmem in Hin; simpl in Hin; intuition congruence.
Qed.

Lemma Loaded_no_chain_call (chain : Chain E) (h0 pre : heapT)
    (inputs : mapref) (vars : gmap string any) (loads : list event) :
  Loaded chain h0 inputs vars loads pre →
  List.filter trace.isChainCall loads = [] ∧
  List.filter trace.isOnChainError loads = [] ∧
  List.filter trace.isOnChainEnd loads = [].
Proof.
  unfold Loaded. destruct (chainMemory chain).
  - by intros [[lres ->] _].
  - by intros (_ & -> & _).
Qed.

Lemma Finished_no_chain_call (chain : Chain E) (inputs : mapref)
    (opts : golc.CallOptions E) (run : nat) (post h' : heapT)
    (ret r : outcome mapref) (tail : list event) :
  Finished chain inputs opts run post ret r tail h' →
  List.filter trace.isChainCall tail = [].
Proof.
  intros Hfin. inversion Hfin; subst; unfold saves;
    destruct (chainMemory chain); reflexivity.
Qed.

(** The dispatch of the unit's own call is the only one at the top level
    of a run of [golc.Call]. *)
Lemma CallTrace_chain_call (chain : Chain E) (inputs : mapref)
    (opts : golc.CallOptions E) (h0 h' : heapT) (run : nat)
    (r : outcome mapref) (delta : list event)
    (a : nat) (i : mapref) (pre : heapT) (sub : list event)
    (ret : outcome mapref) (post : heapT) :
  CallTrace chain inputs opts h0 run r delta h' →
  In (EvChainCall a i pre sub ret post) delta →
  ∃ vars loads tail,
    a = chainAddr chain ∧ i = inputs ∧
    Loaded chain h0 inputs vars loads pre ∧
    Finished chain inputs opts run post ret r tail h' ∧
    delta = EvOnChainStart run (chainType chain) (deref h0 inputs) None
              :: loads ++ EvChainCall a i pre sub ret post :: tail.
Proof.
  intros Htr Hin.
  inversion Htr as [e | vars lres msg | vars loads pre' sub' ret' post' r'
                                         tail h'' Hloaded Hfin]; subst.
  - destruct Hin as [?|[]]; done.
  - destruct Hin as [?|[?|[]]]; done.
  - assert (In (EvChainCall a i pre sub ret post)
              (List.filter trace.isChainCall
                 (loads ++ EvChainCall (chainAddr chain) inputs pre' sub'
                                       ret' post' :: tail))) as Hf.
    { apply filter_In. split; [|done]. by destruct Hin as [?|?]. }
    rewrite List.filter_app in Hf. simpl in Hf.
    destruct (Loaded_no_chain_call _ _ _ _ _ _ Hloaded) as [Hl _].
    rewrite Hl in Hf.
    rewrite (Finished_no_chain_call _ _ _ _ _ _ _ _ _ Hfin) in Hf.
    destruct Hf as [Heq|[]]. injection Heq as <- <- <- <- <- <-.
    eauto 10.
Qed.

(** C3 (amended): when the chain's own call fails with [e], [golc.Call]
    emits exactly one fail notification, for its own run and carrying [e],
    and no end notification; the caller receives [e] unchanged when that
    notification succeeds and the notification's own error otherwise. *)
Theorem Call_fail_notification (chain : Chain E) (inputs : mapref)
    (optFns : list (golc.CallOptions E → golc.CallOptions E))
    (st st' : state E) (r : outcome mapref)
    (a : nat) (i : mapref) (pre : heapT) (sub : list event) (e : error)
    (post : heapT) :
  golc.Call chain inputs optFns st = (r, st') →
  In (EvChainCall a i pre sub (Err e) post) (trace.since st st') →
  ∃ cb,
    List.filter trace.isOnChainError (trace.since st st')
      = [EvOnChainError (runs st) e cb] ∧
    trace.count trace.isOnChainEnd (trace.since st st') = 0 ∧
    r = Err (default e cb).
Proof.
  intros H Hin.
  apply Call_trace in H as (delta & Hlog & Htr).
  rewrite (since_app _ _ _ Hlog) in *.
  destruct (CallTrace_chain_call _ _ _ _ _ _ _ _ _ _ _ _ _ _ Htr Hin)
    as (vars & loads & tail & -> & -> & Hloaded & Hfin & ->).
  destruct (Loaded_no_chain_call _ _ _ _ _ _ Hloaded) as (_ & He & Hd).
  inversion Hfin; subst. exists cb.
  unfold trace.count. simpl. rewrite !List.filter_app, He, Hd. done.
Qed.

(** C9 (amended): [golc.Call] takes no copy of the caller's mapping: the
    chain's own call is dispatched on the caller's mapping object.  For a
    chain without Memory the store is unchanged when that call starts; for
    a chain with Memory the caller's mapping then holds the loaded
    variables assigned over its entries, every other map object being
    unchanged.  After the chain's own call has returned, [golc.Call] writes
    nothing to the store unless [IncludeRunInfo] is set. *)
Theorem Call_shares_inputs (chain : Chain E) (inputs : mapref)
    (optFns : list (golc.CallOptions E → golc.CallOptions E))
    (st st' : state E) (r : outcome mapref)
    (a : nat) (i : mapref) (pre : heapT) (sub : list event)
    (ret : outcome mapref) (post : heapT) :
  golc.Call chain inputs optFns st = (r, st') →
  In (EvChainCall a i pre sub ret post) (trace.since st st') →
  i = inputs ∧
  match chainMemory chain with
  | None => pre = heap st
  | Some _ =>
      ∃ vars lres,
        In (EvLoadMemoryVariables (deref (heap st) inputs) vars lres)
           (trace.since st st') ∧
        deref pre inputs = vars ∪ deref (heap st) inputs ∧
        (∀ l, inputs ≠ MapAt l → pre !! l = heap st !! l)
  end ∧
  (golc.IncludeRunInfo (apply_opts optFns defaultCallOptions) = false →
   heap st' = post).
Proof.
  intros H Hin.
  apply Call_trace in H as (delta & Hlog & Htr).
  rewrite (since_app _ _ _ Hlog) in *.
  destruct (CallTrace_chain_call _ _ _ _ _ _ _ _ _ _ _ _ _ _ Htr Hin)
    as (vars & loads & tail & -> & -> & Hloaded & Hfin & ->).
  split; [done|]. split.
  - unfold Loaded in Hloaded. destruct (chainMemory chain).
    + destruct Hloaded as [[lres ->] Hmerged].
      apply merged_deref in Hmerged as [Hd Hother].
      exists vars, lres. split; [|done]. simpl. auto.
    + by destruct Hloaded as (_ & _ & ->).
  - intros Hinfo. inversion Hfin; subst; congruence.
Qed.

(** A load that reports an error does not end the run: the chain's own
    call is dispatched all the same (unless the range loop panics on a nil
    mapping). *)
Lemma Call_continues_after_load_error (chain : Chain E) (inputs : mapref)
    (optFns : list (golc.CallOptions E → golc.CallOptions E))
    (st st' : state E) (r : outcome mapref)
    (m vars : gmap string any) (e : error) :
  golc.Call chain inputs optFns st = (r, st') →
  In (EvLoadMemoryVariables m vars (Some e)) (trace.since st st') →
  (∃ pre sub ret post,
     In (EvChainCall (chainAddr chain) inputs pre sub ret post)
        (trace.since st st')) ∨
  (∃ msg, r = Panic msg).
Proof.
  intros H Hin.
  apply Call_trace in H as (delta & Hlog & Htr).
  rewrite (since_app _ _ _ Hlog) in *.
  inversion Htr as [e0 | vars0 lres msg | vars0 loads pre sub ret post r'
                                            tail h' Hloaded Hfin]; subst.
  - destruct Hin as [?|[]]; done.
  - right. eauto.
  - left. exists pre, sub, ret, post. right.
    apply in_or_app. right. by left.
Qed.

End CallFacts.


Lemma Call_saves_merged_inputs_witness :
  chainMemory examples.memoryChain = Some examples.historyMemory ∧
  examples.memoryRun = (Ok (MapAt 1), examples.memoryRun.2) ∧
  ∃ vars lres pre sub post,
    trace.since examples.st0 examples.memoryRun.2 =
      [EvOnChainStart 0 "Echo" examples.question None;
       EvLoadMemoryVariables examples.question vars lres;
       EvChainCall 1 (MapAt 0) pre sub (Ok (MapAt 1)) post;
       EvSaveContext (deref post (MapAt 0)) (deref post (MapAt 1)) None;
       EvOnChainEnd 0 (deref post (MapAt 1)) None] ∧
    deref pre (MapAt 0) = vars ∪ examples.question.
Proof.
  assert (Hmem : chainMemory examples.memoryChain
                 = Some examples.historyMemory) by reflexivity.
  assert (Hrun : golc.Call examples.memoryChain (MapAt 0) [] examples.st0
                 = (Ok (MapAt 1), examples.memoryRun.2))
    by (vm_compute; reflexivity).
  split; [exact Hmem|]. split; [exact Hrun|].
  exact (proj1 (Call_saves_merged_inputs examples.memoryChain
                  examples.historyMemory (MapAt 0) [] examples.st0
                  examples.memoryRun.2 (Ok (MapAt 1)) Hmem Hrun)
               (MapAt 1) eq_refl).
Defined.

(** C1 fails as stated: with a Memory that supplies ["history"], the
    mapping handed to [SaveContext] is not the mapping the caller
    supplied: it also holds the loaded variable. *)
Lemma Call_SaveContext_not_original_inputs :
  examples.memoryRun = (Ok (MapAt 1), examples.memoryRun.2) ∧
  ∃ saved outputs,
    In (EvSaveContext saved outputs None)
       (trace.since examples.st0 examples.memoryRun.2) ∧
    saved !! "history" = Some (AString "h") ∧
    deref (heap examples.st0) (MapAt 0) !! "history" = None ∧
    saved ≠ deref (heap examples.st0) (MapAt 0).
Proof.
  split; [vm_compute; reflexivity|].
  eexists _, _. split.
  { vm_compute. do 3 right. left. reflexivity. }
  split; [vm_compute; reflexivity|].
  split; [vm_compute; reflexivity|].
  intros Heq.
  apply (f_equal (λ m : gmap string any, m !! "history")) in Heq.
  vm_compute in Heq. discriminate.
Qed.

(** C2 on the code: the Memory fails to load with error 7, yet
    [golc.Call] carries on and returns the chain's outputs; the error
    appears in the load interaction only. *)
Lemma Call_drops_load_error :
  examples.brokenRun = (Ok (MapAt 1), examples.brokenRun.2) ∧
  In (EvLoadMemoryVariables examples.question ∅ (Some (ErrOther 7)))
     (trace.since examples.st0 examples.brokenRun.2).
Proof.
  split; [vm_compute; reflexivity|].
  vm_compute. right. left. reflexivity.
Qed.

Lemma Call_fail_notification_witness :
  examples.failingRun = (Err (ErrOther 2), examples.failingRun.2) ∧
  In (EvChainCall 2 (MapAt 0) (heap examples.st0) [] (Err (ErrOther 1))
                  (heap examples.st0))
     (trace.since examples.st0 examples.failingRun.2) ∧
  ∃ cb,
    List.filter trace.isOnChainError
      (trace.since examples.st0 examples.failingRun.2)
      = [EvOnChainError 0 (ErrOther 1) cb] ∧
    trace.count trace.isOnChainEnd
      (trace.since examples.st0 examples.failingRun.2) = 0 ∧
    @Err mapref (ErrOther 2) = Err (default (ErrOther 1) cb).
Proof.
  assert (Hrun : golc.Call (examples.failing (ErrOther 1)) (MapAt 0)
                   [examples.withCallbacks [examples.grumpy (ErrOther 2)]]
                   examples.st0
                 = (Err (ErrOther 2), examples.failingRun.2))
    by (vm_compute; reflexivity).
  assert (Hin : In (EvChainCall 2 (MapAt 0) (heap examples.st0) []
                      (Err (ErrOther 1)) (heap examples.st0))
                   (trace.since examples.st0 examples.failingRun.2))
    by (vm_compute; right; left; reflexivity).
  split; [exact Hrun|]. split; [exact Hin|].
  exact (Call_fail_notification _ _ _ _ _ _ _ _ _ _ _ _ Hrun Hin).
Defined.

(** C3 fails as stated: the chain's own call fails with error 1, the
    observer's error hook fails with error 2, and the caller receives
    error 2: the chain's error is not propagated unchanged.  And when
    [SaveContext] fails with error 5 the call fails with it without any
    fail notification. *)
Lemma Call_error_replaced_by_callback_error :
  (examples.failingRun = (Err (ErrOther 2), examples.failingRun.2) ∧
   In (EvChainCall 2 (MapAt 0) (heap examples.st0) [] (Err (ErrOther 1))
                   (heap examples.st0))
      (trace.since examples.st0 examples.failingRun.2) ∧
   examples.failingRun.1 ≠ Err (ErrOther 1)) ∧
  (examples.unsavedRun.1 = Err (ErrOther 5) ∧
   trace.count trace.isOnChainError
     (trace.since examples.st0 examples.unsavedRun.2) = 0).
Proof.
  split.
  - split; [vm_compute; reflexivity|].
    split; [vm_compute; right; left; reflexivity|].
    vm_compute. discriminate.
  - split; vm_compute; reflexivity.
Qed.

Lemma Call_shares_inputs_witness :
  examples.memoryRun = (Ok (MapAt 1), examples.memoryRun.2) ∧
  In (EvChainCall 1 (MapAt 0) examples.mergedHeap [] (Ok (MapAt 1))
                  examples.answeredHeap)
     (trace.since examples.st0 examples.memoryRun.2) ∧
  ∃ vars lres,
    In (EvLoadMemoryVariables examples.question vars lres)
       (trace.since examples.st0 examples.memoryRun.2) ∧
    deref examples.mergedHeap (MapAt 0) = vars ∪ examples.question ∧
    (∀ l, MapAt 0 ≠ MapAt l →
          examples.mergedHeap !! l = heap examples.st0 !! l).
Proof.
  assert (Hrun : golc.Call examples.memoryChain (MapAt 0) [] examples.st0
                 = (Ok (MapAt 1), examples.memoryRun.2))
    by (vm_compute; reflexivity).
  assert (Hin : In (EvChainCall 1 (MapAt 0) examples.mergedHeap []
                      (Ok (MapAt 1)) examples.answeredHeap)
                   (trace.since examples.st0 examples.memoryRun.2))
    by (vm_compute; do 2 right; left; reflexivity).
  split; [exact Hrun|]. split; [exact Hin|].
  exact (proj1 (proj2 (Call_shares_inputs _ _ _ _ _ _ _ _ _ _ _ _
                         Hrun Hin))).
Defined.

(** C9 fails as stated: after a call of a chain with Memory the caller's
    own mapping holds the loaded variable ["history"], which it did not
    hold before. *)
Lemma Call_changes_caller_mapping :
  examples.memoryRun = (Ok (MapAt 1), examples.memoryRun.2) ∧
  deref (heap examples.st0) (MapAt 0) !! "history" = None ∧
  deref (heap examples.memoryRun.2) (MapAt 0) !! "history"
    = Some (AString "h").
Proof.
  split; [vm_compute; reflexivity|].
  split; vm_compute; reflexivity.
Qed.

(* ===================================================================== *)
(** * chain.Run against golc.SimpleCall *)
(* ===================================================================== *)

Section RunFacts.
Context {E : Type}.
Variable TrimSpace : string → string.
Import protocol.

(** Both wrappers read the single output of the unit the same way. *)
Lemma index0_inv (keys : list string) (st st' : state E)
    (r : outcome string) :
  index0 keys st = (r, st') →
  st' = st ∧
  match keys with
  | k :: _ => r = Ok k
  | [] => ∃ msg, r = Panic msg
  end.
Proof. destruct keys; intros [= <- <-]; eauto. Qed.

(** Without Memory, observers and run info, [golc.Call] hands back what
    the unit's own call returns and leaves the store as that call left it. *)
Lemma Call_quiet (chain : Chain E) (inputs : mapref)
    (optFns : list (golc.CallOptions E → golc.CallOptions E))
    (st : state E) :
  chainMemory chain = None →
  chainCallbacks chain = [] →
  golc.Callbacks (apply_opts optFns defaultCallOptions) = [] →
  golc.IncludeRunInfo (apply_opts optFns defaultCallOptions) = false →
  let fn : CallOptions E → CallOptions E :=
    λ _, {| CallbackManger :=
              Some {| rmRunID := runs st; rmCallbacks := [];
                      rmInheritable := [] |};
            Stop := golc.Stop (apply_opts optFns defaultCallOptions) |} in
  let inner := chainCall chain inputs [fn]
                 (mkState (heap st) (ext st) (S (runs st)) []) in
  (golc.Call chain inputs optFns st).1 = inner.1 ∧
  heap (golc.Call chain inputs optFns st).2 = heap inner.2.
Proof.
  intros Hmem Hcb Hocb Hinfo.
  unfold golc.Call. fold (defaultCallOptions (E := E)).
  set (opts := apply_opts optFns defaultCallOptions) in *.
  rewrite Hmem, Hcb, Hocb, Hinfo.
  cbv zeta.
  unfold callback.OnChainStart, callback.OnChainError, callback.OnChainEnd.
  unfold bind, ret, read, collab, emit, attempt, invoke, check, throw.
  simpl.
  destruct (chainCall chain inputs _ _) as [[out|e|msg] st2]; simpl; done.
Qed.

(** C10 (amended): for a chain without Memory and without registered
    callbacks whose own call does not depend on the call-scoped options or
    on the run tracker, [chain.Run] and [golc.SimpleCall] succeed together,
    and the result of [Run] is the result of [SimpleCall] with the
    surrounding white space trimmed. *)
Theorem Run_refines_SimpleCall (chain : Chain E) (input : any)
    (st : state E) :
  chainMemory chain = None →
  chainCallbacks chain = [] →
  optionsInsensitive chain →
  match (chain.Run TrimSpace chain input st).1,
        (golc.SimpleCall chain input [] st).1 with
  | Ok s, Ok s' => s = TrimSpace s'
  | Ok _, _ | _, Ok _ => False
  | _, _ => True
  end.
Proof.
  intros Hmem Hcb Hins.
  destruct (chain.Run TrimSpace chain input st) as [a sa] eqn:HA.
  destruct (golc.SimpleCall chain input [] st) as [b sb] eqn:HB.
  simpl.
  unfold chain.Run in HA. unfold golc.SimpleCall in HB.
  destruct (Nat.eqb (length (chainInputKeys chain)) 1); simpl in HA, HB;
    [|by (unfold bind, throw, ret, panic in HA, HB; simpl in HA, HB; simplify_eq; simpl)].
  destruct (Nat.eqb (length (chainOutputKeys chain)) 1); simpl in HA, HB;
    [|by (unfold bind, throw, ret, panic in HA, HB; simpl in HA, HB; simplify_eq; simpl)].
  destruct (chainInputKeys chain) as [|ikey ikeys];
    [by (unfold bind, throw, ret, panic in HA, HB; simpl in HA, HB; simplify_eq; simpl)|].
  unfold bind at 1 in HA. unfold bind at 1 in HB. simpl in HA, HB.
  unfold bind at 1 in HA. unfold bind at 1 in HB. simpl in HA, HB.
  set (l := fresh (dom (heap st))) in *.
  set (st1 := mkState (<[l := {[ikey := input]}]> (heap st)) (ext st)
                      (runs st) (log st)) in *.
  destruct (Call_quiet chain (MapAt l)
              [λ o, {| golc.Callbacks := [];
                       golc.IncludeRunInfo := golc.IncludeRunInfo o;
                       golc.Stop := [];
                       golc.ParentRunID := golc.ParentRunID o |}]
              st1 Hmem Hcb eq_refl eq_refl) as (Hres & Hheap).
  simpl in Hres, Hheap.
  match type of Hres with _ = (chainCall _ _ ?fns ?s2).1 =>
    destruct (Hins (MapAt l) [] fns
                (mkState (heap st1) (ext st1) (runs st1) []) s2
                eq_refl eq_refl) as (Hr & Hh)
  end.
  rewrite <-Hres in Hr. rewrite <-Hheap in Hh. clear Hres Hheap.
  unfold bind at 1 in HA. unfold bind at 1 in HB.
  unfold chain.Call, invoke in HA.
  destruct (chainCall chain (MapAt l) [] _) as [r1 s1].
  destruct (golc.Call chain (MapAt l) _ st1) as [r2 s2].
  simpl in Hr, Hh. subst r2.
  destruct r1 as [out|e|msg]; simpl in HA, HB;
    [|by (unfold bind, throw, ret, panic in HA, HB; simpl in HA, HB; simplify_eq; simpl)..].
  unfold bind at 1 in HA. unfold bind at 1 in HB.
  destruct (chainOutputKeys chain) as [|okey okeys]; simpl in HA, HB;
    [by (unfold bind, throw, ret, panic in HA, HB; simpl in HA, HB; simplify_eq; simpl)|].
  unfold bind, read in HB. simpl in HB. rewrite <-Hh in HB.
  unfold bind in HA. simpl in HA.
  destruct (deref (heap s1) out !! okey) as [[]|];
    by (unfold bind, throw, ret, panic in HA, HB; simpl in HA, HB; simplify_eq; simpl).
Qed.

End RunFacts.

Lemma padded_optionsInsensitive :
  protocol.optionsInsensitive examples.padded.
Proof.
  intros inputs fns fns' st st' Hh He. simpl.
  unfold examples.paddedCall, bind, read. simpl. rewrite Hh.
  destruct (index (deref (heap st') inputs) "question"); simpl;
    try done.
  by rewrite Hh.
Qed.

Lemma Run_refines_SimpleCall_witness :
  chainMemory examples.padded = None ∧
  chainCallbacks examples.padded = [] ∧
  protocol.optionsInsensitive examples.padded ∧
  (golc.SimpleCall examples.padded (AString "q") [] examples.st0).1
    = Ok " q " ∧
  (chain.Run strings.TrimSpaceASCII examples.padded (AString "q")
             examples.st0).1 = Ok "q" ∧
  match (chain.Run strings.TrimSpaceASCII examples.padded (AString "q")
                   examples.st0).1,
        (golc.SimpleCall examples.padded (AString "q") [] examples.st0).1
  with
  | Ok s, Ok s' => s = strings.TrimSpaceASCII s'
  | Ok _, _ | _, Ok _ => False
  | _, _ => True
  end.
Proof.
  split; [reflexivity|]. split; [reflexivity|].
  split; [exact padded_optionsInsensitive|].
  split; [vm_compute; reflexivity|]. split; [vm_compute; reflexivity|].
  exact (Run_refines_SimpleCall strings.TrimSpaceASCII examples.padded
           (AString "q") examples.st0 eq_refl eq_refl
           padded_optionsInsensitive).
Defined.

(** C10 fails as stated: a chain with one input key, one output key, no
    Memory and no callbacks that requires a callback manager among its call
    options fails under [chain.Run], which passes no options, and succeeds
    under [golc.SimpleCall], which passes the run's manager. *)
Lemma Run_fails_where_SimpleCall_succeeds :
  length (chainInputKeys examples.tracked) = 1 ∧
  length (chainOutputKeys examples.tracked) = 1 ∧
  chainMemory examples.tracked = None ∧
  chainCallbacks examples.tracked = [] ∧
  (chain.Run strings.TrimSpaceASCII examples.tracked (AString "q")
             examples.st0).1 = Err (ErrOther 3) ∧
  (golc.SimpleCall examples.tracked (AString "q") [] examples.st0).1
    = Ok "q".
Proof. repeat split; vm_compute; reflexivity. Qed.

(* ===================================================================== *)
(** * golc.BatchCall *)
(* ===================================================================== *)

Section BatchFacts.
Context {E : Type}.
Variable cancel : E → E.
Variable chain : Chain E.
Variable opts : golc.BatchCallOptions E.
Variable inputs : list mapref.

Local Abbreviation run := (golc.errgroupRun cancel chain opts inputs).

(** One goroutine of the group. *)
Lemma errgroupRun_cons (i : nat) (sched : list nat)
    (firstErr : option error) (cv : list mapref) (st : state E) :
  run (i :: sched) firstErr cv st =
    match inputs !! i with
    | None => run sched firstErr cv st
    | Some input =>
        match golc.Call chain input [golc.batchOption opts] st with
        | (Ok out, st1) => run sched firstErr (<[i := out]> cv) st1
        | (Err err, st1) =>
            match firstErr with
            | Some _ => run sched firstErr cv st1
            | None => run sched (Some err) cv (golc.cancelled cancel st1)
            end
        | (Panic msg, st1) => (Panic msg, st1)
        end
    end.
Proof.
  simpl. destruct (inputs !! i) as [input|]; [|done].
  unfold bind at 1. unfold attempt, golc.batchTask. unfold bind at 1.
  destruct (golc.Call chain input _ st) as [[out|err|msg] st1]; simpl;
    try done.
  by destruct firstErr.
Qed.

(** Running a schedule is running its prefix and then the rest. *)
Lemma errgroupRun_app (pre post : list nat) (firstErr : option error)
    (cv : list mapref) (st : state E) :
  run (pre ++ post) firstErr cv st =
    match run pre firstErr cv st with
    | (Ok r, st1) => run post (fst r) (snd r) st1
    | (Err e, st1) => (Err e, st1)
    | (Panic msg, st1) => (Panic msg, st1)
    end.
Proof.
  revert firstErr cv st. induction pre as [|i pre IH]; intros fe cv st.
  - reflexivity.
  - rewrite <-app_comm_cons, !errgroupRun_cons.
    destruct (inputs !! i) as [input|]; [|apply IH].
    destruct (golc.Call chain input _ st) as [[out|err|msg] st1].
    + apply IH.
    + destruct fe; apply IH.
    + reflexivity.
Qed.

(** The group never returns an error of its own: it records it. *)
Lemma errgroupRun_no_Err (sched : list nat) (firstErr : option error)
    (cv : list mapref) (st st' : state E) (e : error) :
  run sched firstErr cv st ≠ (Err e, st').
Proof.
  revert firstErr cv st. induction sched as [|i sched IH]; intros fe cv st.
  - discriminate.
  - rewrite errgroupRun_cons.
    destruct (inputs !! i) as [input|]; [|apply IH].
    destruct (golc.Call chain input _ st) as [[out|err|msg] st1].
    + apply IH.
    + destruct fe; apply IH.
    + discriminate.
Qed.

(** Once an error is recorded it is the one the group reports. *)
Lemma errgroupRun_first_error_sticks (sched : list nat) (e : error)
    (cv cv' : list mapref) (st st' : state E) (fe' : option error) :
  run sched (Some e) cv st = (Ok (fe', cv'), st') → fe' = Some e.
Proof.
  revert cv st. induction sched as [|i sched IH]; intros cv st.
  - by intros [= <- <- <-].
  - rewrite errgroupRun_cons.
    destruct (inputs !! i) as [input|]; [|apply IH].
    destruct (golc.Call chain input _ st) as [[out|err|msg] st1].
    + apply IH.
    + apply IH.
    + discriminate.
Qed.

(** A run that ends without a recorded error started without one, and
    wrote only at the indices it scheduled. *)
Lemma errgroupRun_clean (sched : list nat) (firstErr : option error)
    (cv cv' : list mapref) (st st' : state E) :
  run sched firstErr cv st = (Ok (None, cv'), st') →
  firstErr = None ∧ length cv' = length cv ∧
  (∀ j, j ∉ sched → cv' !! j = cv !! j).
Proof.
  revert firstErr cv st. induction sched as [|i sched IH]; intros fe cv st.
  - by intros [= <- <- <-].
  - rewrite errgroupRun_cons.
    destruct (inputs !! i) as [input|].
    + destruct (golc.Call chain input _ st) as [[out|err|msg] st1].
      * intros H. apply IH in H as (-> & Hlen & Hother).
        rewrite length_insert in Hlen. repeat split; [done|].
        intros j Hj. apply not_elem_of_cons in Hj as [Hne Hj].
        rewrite Hother by done.
        by apply list_lookup_insert_ne.
      * destruct fe as [e0|]; intros H; by apply IH in H as ([=] & _).
      * discriminate.
    + intros H. apply IH in H as (-> & Hlen & Hother).
      repeat split; [done|]. intros j Hj.
      apply not_elem_of_cons in Hj as [_ Hj]. by apply Hother.
Qed.

(** A recorded error is that of the first goroutine, in completion order,
    whose call failed. *)
Lemma errgroupRun_first_error (sched : list nat) (cv cv' : list mapref)
    (st st' : state E) (e : error) :
  run sched None cv st = (Ok (Some e, cv'), st') →
  ∃ pre i post input cvi sti sti',
    sched = pre ++ i :: post ∧ inputs !! i = Some input ∧
    run pre None cv st = (Ok (None, cvi), sti) ∧
    golc.Call chain input [golc.batchOption opts] sti = (Err e, sti').
Proof.
  revert cv st. induction sched as [|i sched IH]; intros cv st.
  - discriminate.
  - rewrite errgroupRun_cons.
    destruct (inputs !! i) as [input|] eqn:Hi.
    + destruct (golc.Call chain input _ st) as [[out|err|msg] st1] eqn:Hc.
      * intros H.
        apply IH in H as (pre & j & post & inp & cvi & sti & sti' &
                          -> & Hj & Hpre & Hcall).
        exists (i :: pre), j, post, inp, cvi, sti, sti'.
        repeat split; try done.
        by rewrite errgroupRun_cons, Hi, Hc.
      * intros H.
        pose proof (errgroupRun_first_error_sticks _ _ _ _ _ _ _ H)
          as [= ->].
        exists [], i, sched, input, cv, st, st1. done.
      * discriminate.
    + intros H.
      apply IH in H as (pre & j & post & inp & cvi & sti & sti' &
                        -> & Hj & Hpre & Hcall).
      exists (i :: pre), j, post, inp, cvi, sti, sti'.
      repeat split; try done.
      by rewrite errgroupRun_cons, Hi.
Qed.


End BatchFacts.


(* ===================================================================== *)
(** * The retry wrapper around the Cohere generate operation *)
(* ===================================================================== *)

Section RetryFacts.
Context {E : Type}.
Variables GenerateOptions GenerateResponse : Type.
Variable retryDefaults : retry.Config.
Variable l : llm.Cohere E GenerateOptions GenerateResponse.
Variable opts' : GenerateOptions.

(** The predicate accepts exactly the API errors with status 429 or 500,
    found anywhere along the chain of wrapped errors. *)
Lemma retryable_iff (err : error) :
  llm.retryable err = true ↔
  ∃ code, llm.asAPIError err = Some code ∧ (code = 429 ∨ code = 500)%Z.
Proof.
  unfold llm.retryable. destruct (llm.asAPIError err) as [code|].
  - destruct (Z.eqb_spec code 429) as [->|H1].
    { split; [intros _; exists 429%Z; auto | done]. }
    destruct (Z.eqb_spec code 500) as [->|H2].
    { split; [intros _; exists 500%Z; auto | done]. }
    split; [done|]. intros (c & [= <-] & [?|?]); done.
  - split; [done|]. intros (c & [=] & _).
Qed.

(** One attempt: one request to the backend, logged with its result. *)
Lemma generateOnce_run (res : option GenerateResponse) (st : state E) :
  ∃ res' err st1,
    llm.generateOnce l opts' res st
      = (Ok (res', err), st1) ∧
    log st1 = log st ++ [EvClientGenerate err].
Proof.
  unfold llm.generateOnce, bind, collab, emit, ret. simpl.
  destruct (llm.Generate _ _ _) as [[cErr|r'] w1]; simpl; eauto.
Qed.

Lemma last_cons_default {A} (x : A) (xs : list A) (d d' : A) :
  List.last (x :: xs) d = List.last (x :: xs) d'.
Proof.
  revert x. induction xs as [|y ys IH]; intros x; [done|].
  change (List.last (y :: ys) d = List.last (y :: ys) d'). apply IH.
Qed.

Lemma policy_single (budget : nat) (last res : option error) :
  0 < budget →
  (∀ e, res = Some e → llm.retryable e = true → budget = 1) →
  llm.attemptsPolicy retryDefaults budget last [EvClientGenerate res] res.
Proof.
  intros Hb Hres. unfold llm.attemptsPolicy. simpl.
  split; [lia|]. split; [lia|]. split; [|split; [|done]].
  - intros [|k] e Hk; simpl in Hk; [|done]. injection Hk as ->.
    split; [lia|]. intros [Hr Hlt]. specialize (Hres e eq_refl Hr). lia.
  - intros [|k] Hk; simpl in Hk; done.
Qed.

Lemma policy_cons (budget : nat) (last : option error) (e : error)
    (delta : list event) (err : option error) :
  llm.retryable e = true → 0 < budget →
  llm.attemptsPolicy retryDefaults budget (Some e) delta err →
  llm.attemptsPolicy retryDefaults (S budget) last
    (EvClientGenerate (Some e)
       :: EvSleep (retry.delay retryDefaults) :: delta) err.
Proof.
  intros Hr Hb (Hle & Hpos & Hretry & Hstop & Herr & Hsl).
  specialize (Hpos Hb).
  unfold llm.attemptsPolicy. simpl.
  set (results := trace.attemptResults delta) in *.
  split; [lia|]. split; [lia|]. split; [|split; [|split]].
  - intros [|k] e' Hk; simpl in Hk.
    + injection Hk as <-.
      split; [intros _; split; [done|lia] | intros _; lia].
    + apply Hretry in Hk. split.
      * intros Hlt. destruct Hk as [Hk _]. split; [|lia]. apply Hk. lia.
      * intros [Hr' Hlt]. destruct Hk as [_ Hk].
        assert (S k < length results) by (apply Hk; split; [done|lia]). lia.
  - intros [|k] Hk; simpl in Hk; [done|]. apply Hstop in Hk. lia.
  - rewrite Herr. clearbody results.
    destruct results as [|x xs]; [simpl in Hpos; lia|].
    apply last_cons_default.
  - rewrite Hsl. clearbody results.
    destruct results as [|x xs]; [simpl in Hpos; lia|].
    simpl. by rewrite Nat.sub_0_r.
Qed.

Lemma loop_policy (budget n : nat) (s : option GenerateResponse)
    (last : option error) (st st' : state E)
    (r : outcome (option GenerateResponse * option error)) :
  retry.loop (apply_opts (llm.retryOpts l) retryDefaults)
    (llm.generateOnce l opts') budget n s last st = (r, st') →
  ∃ delta res err,
    log st' = log st ++ delta ∧ r = Ok (res, err) ∧
    llm.attemptsPolicy retryDefaults budget last delta err.
Proof.
  revert n s last st. induction budget as [|b IH]; intros n s last st.
  - intros [= <- <-]. exists [], s, last. rewrite app_nil_r.
    split; [done|]. split; [done|].
    unfold llm.attemptsPolicy. simpl.
    split; [lia|]. split; [lia|]. done.
  - simpl. unfold bind at 1.
    destruct (generateOnce_run s st) as (res' & err & st1 & -> & Hl1).
    simpl. destruct err as [e|].
    + destruct (llm.retryable e) eqn:Hre.
      * destruct b as [|b'].
        -- intros [= <- <-]. exists [EvClientGenerate (Some e)], res', (Some e).
           split; [done|]. split; [done|].
           apply policy_single; [lia|done].
        -- unfold bind at 1. unfold emit at 1.
           intros H. apply IH in H as (delta & res & err & Hl2 & -> & Hpol).
           simpl in Hl2.
           exists (EvClientGenerate (Some e)
                     :: EvSleep (retry.delay retryDefaults) :: delta),
                  res, err.
           split. { rewrite Hl2, Hl1, <-!app_assoc. done. }
           split; [done|].
           apply policy_cons; [done|lia|done].
      * intros [= <- <-]. exists [EvClientGenerate (Some e)], res', (Some e).
        split; [done|]. split; [done|].
        apply policy_single; [lia|]. intros e' [= <-]. congruence.
    + intros [= <- <-]. exists [EvClientGenerate None], res', None.
      split; [done|]. split; [done|].
      apply policy_single; [lia|done].
Qed.

(** C8: a run of the retry wrapper around the Cohere generate operation
    makes at most [MaxRetries] attempts (3 by default); a failed attempt is
    followed by another one exactly when its error is an API error with
    status code 429 or 500 and the budget is not used up, so a
    non-retryable error ends the run at once; a successful attempt ends the
    run; the error returned is that of the last attempt; and the pauses
    between attempts all have the one configured delay. *)
Theorem generateWithRetry_policy (st st' : state E)
    (r : outcome (option GenerateResponse * option error)) :
  llm.generateWithRetry retryDefaults l opts' st = (r, st') →
  (∃ res err,
     r = Ok (res, err) ∧
     llm.attemptsPolicy retryDefaults (llm.MaxRetries (llm.opts l)) None
       (trace.since st st') err) ∧
  (∀ e, llm.retryable e = true ↔
        ∃ code, llm.asAPIError e = Some code ∧ (code = 429 ∨ code = 500)%Z) ∧
  (∀ client : llm.CohereClient E GenerateOptions GenerateResponse,
     llm.MaxRetries (llm.opts (llm.NewCohereFromClient client [])) = 3).
Proof.
  intros H. split; [|split; [exact retryable_iff | done]].
  unfold llm.generateWithRetry, retry.Do in H.
  apply loop_policy in H as (delta & res & err & Hl & -> & Hpol).
  rewrite (since_app _ _ _ Hl). eauto.
Qed.

End RetryFacts.

Lemma generateWithRetry_policy_witness :
  examples.busyRun = (Ok (Some "song", None), examples.busyRun.2) ∧
  trace.attemptResults (trace.since examples.st0 examples.busyRun.2)
    = [Some (APIError 429 "too many requests"); None] ∧
  ∃ res err,
    @Ok (option string * option error) (Some "song", None) = Ok (res, err) ∧
    llm.attemptsPolicy examples.retryDefaults 2 None
      (trace.since examples.st0 examples.busyRun.2) err.
Proof.
  assert (Hrun : llm.generateWithRetry examples.retryDefaults
                   (llm.NewCohereFromClient examples.busyClient
                      [examples.withMaxRetries 2]) tt examples.st0
                 = (Ok (Some "song", None), examples.busyRun.2))
    by (vm_compute; reflexivity).
  split; [exact Hrun|]. split; [vm_compute; reflexivity|].
  exact (proj1 (generateWithRetry_policy unit string examples.retryDefaults
                  _ tt examples.st0 examples.busyRun.2 _ Hrun)).
Defined.

(** A credentials error is not retried: one attempt, and its error comes
    back. *)
Example generateWithRetry_permanent_failure :
  examples.lockedRun.1 = Ok (None, Some (APIError 401 "invalid api key")) ∧
  trace.attemptResults (trace.since examples.st0 examples.lockedRun.2)
    = [Some (APIError 401 "invalid api key")].
Proof. split; vm_compute; reflexivity. Qed.

(* ===================================================================== *)
(** * StuffDocuments *)
(* ===================================================================== *)

Section StuffFacts.
Context {E : Type}.
Variable TrimSpace : string → string.
Import protocol.

Lemma StuffDocuments_Call_delegates (c : chain.StuffDocuments E)
    (values : mapref) (optFns : list (CallOptions E → CallOptions E))
    (st : state E) (docs : list Document) :
  deref (heap st) values !! chain.sdInputKey (chain.sdOpts c)
    = Some (ADocs docs) →
  chain.StuffDocuments_Call TrimSpace c values optFns st
    = golc.Call (chain.LLM_Chain TrimSpace (chain.sdLlmChain c))
        (MapAt (fresh (dom (heap st)))) []
        (mkState (<[fresh (dom (heap st)) :=
                     chain.stuffed c (deref (heap st) values) docs]>
                    (heap st))
                 (ext st) (runs st) (log st)).
Proof.
  intros Hdocs. unfold chain.StuffDocuments_Call.
  unfold bind at 1. unfold read at 1. rewrite Hdocs.
  unfold bind at 1. unfold util.CopyMap, bind at 1. simpl.
  unfold bind at 1. simpl.
  rewrite lookup_insert_eq. simpl. rewrite insert_insert_eq. done.
Qed.

(** C7: on a Document sequence [StuffDocuments.Call] is the [golc.Call] of
    its inner unit on a fresh copy of the inputs that binds the document
    variable to the page contents joined with the separator; the inner
    unit's start notification and own call see that mapping; page contents
    ["A"], ["B"] with the default separator give exactly ["A\n\nB"]; the
    call fails without reaching the inner unit when the input key is
    absent or holds something other than a Document sequence. *)
Theorem StuffDocuments_Call_stuffs (c : chain.StuffDocuments E)
    (values : mapref) (optFns : list (CallOptions E → CallOptions E))
    (st : state E) :
  let l := fresh (dom (heap st)) in
  let inner := chain.LLM_Chain TrimSpace (chain.sdLlmChain c) in
  match deref (heap st) values !! chain.sdInputKey (chain.sdOpts c) with
  | None =>
      chain.StuffDocuments_Call TrimSpace c values optFns st
        = (Err (Errorf ErrInvalidInputValues
                  (": no value for inputKey "
                     ++ chain.sdInputKey (chain.sdOpts c))), st)
  | Some (ADocs docs) =>
      let augmented := chain.stuffed c (deref (heap st) values) docs in
      chain.StuffDocuments_Call TrimSpace c values optFns st
        = golc.Call inner (MapAt l) []
            (mkState (<[l := augmented]> (heap st)) (ext st) (runs st)
                     (log st))
      ∧
      (∀ r st',
         chain.StuffDocuments_Call TrimSpace c values optFns st = (r, st') →
         (∃ res rest,
            trace.since st st'
              = EvOnChainStart (runs st) "LLM" augmented res :: rest) ∧
         (∀ a i pre sub ret post,
            In (EvChainCall a i pre sub ret post) (trace.since st st') →
            a = chain.addr (chain.sdLlmChain c) ∧ i = MapAt l ∧
            ∃ vars, deref pre (MapAt l) = vars ∪ augmented ∧
                    (chainMemory inner = None → vars = ∅)))
  | Some _ =>
      chain.StuffDocuments_Call TrimSpace c values optFns st
        = (Err ErrInputValuesWrongType, st)
  end ∧
  (∀ addr llmChain,
     strings.Join ["A"; "B"]
       (chain.Separator
          (chain.sdOpts (chain.NewStuffDocuments (E := E) addr llmChain [])))
     = "A" ++ strings.LF ++ strings.LF ++ "B")%string.
Proof.
  intros l inner. split; [|done].
  destruct (deref (heap st) values !! chain.sdInputKey (chain.sdOpts c))
    as [v|] eqn:Hv.
  2: { unfold chain.StuffDocuments_Call, bind, read. simpl.
       by rewrite Hv. }
  destruct v as [|s|docs|r0|id|tag];
    try (unfold chain.StuffDocuments_Call, bind, read; simpl;
         by rewrite Hv).
  intros augmented.
  pose proof (StuffDocuments_Call_delegates c values optFns st docs Hv)
    as Heq.
  split; [exact Heq|].
  intros r st' Hrun. rewrite Heq in Hrun.
  apply Call_trace in Hrun as (delta & Hlog & Htr).
  cbn [heap runs log ext] in Hlog, Htr. fold l augmented in Htr.
  rewrite (since_app _ _ _ Hlog).
  assert (Hderef : deref (<[l := augmented]> (heap st)) (MapAt l)
                   = augmented).
  { simpl. by rewrite lookup_insert_eq. }
  split.
  - inversion Htr; subst; rewrite Hderef; eauto.
  - intros a i pre sub ret post Hin.
    destruct (CallTrace_chain_call _ _ _ _ _ _ _ _ _ _ _ _ _ _ Htr Hin)
      as (vars & loads & tail & -> & -> & Hloaded & _ & _).
    split; [done|]. split; [done|].
    unfold Loaded in Hloaded. fold inner in Hloaded.
    destruct (chainMemory inner) eqn:Hmem.
    + destruct Hloaded as [_ Hmerged].
      apply merged_deref in Hmerged as [Hd _]. rewrite Hderef in Hd.
      exists vars. split; [done|]. done.
    + destruct Hloaded as (-> & _ & ->).
      exists ∅. rewrite Hderef. by rewrite (left_id_L ∅ (∪)).
Qed.

End StuffFacts.

(** The unit built with the defaults, run on the documents ["A"] and
    ["B"]: the inner unit is started once, on the inputs extended with
    ["context" := "A\n\nB"]. *)
Lemma StuffDocuments_Call_stuffs_witness :
  deref (heap examples.docsState) (MapAt 0) !! "inputDocuments"
    = Some (ADocs examples.docsAB) ∧
  examples.stuffRun.1 = Ok (MapAt 2) ∧
  deref (heap examples.stuffRun.2) (MapAt 2)
    = {[ "text" := AString "re: Context: A

B" ]} ∧
  ∃ res rest,
    trace.since examples.docsState examples.stuffRun.2
      = EvOnChainStart 0 "LLM"
          (<[ "context" := AString ("A" ++ strings.LF ++ strings.LF ++ "B") ]>
             {[ "inputDocuments" := ADocs examples.docsAB ]}) res :: rest.
Proof.
  split; [vm_compute; reflexivity|].
  split; [vm_compute; reflexivity|].
  split; [vm_compute; reflexivity|].
  pose proof (proj1 (StuffDocuments_Call_stuffs strings.TrimSpaceASCII
                       examples.stuffUnit (MapAt 0) [] examples.docsState))
    as H.
  change (deref (heap examples.docsState) (MapAt 0)
            !! chain.sdInputKey (chain.sdOpts examples.stuffUnit))
    with (Some (ADocs examples.docsAB)) in H.
  exact (proj1 (proj2 H examples.stuffRun.1 examples.stuffRun.2
                  (surjective_pairing _))).
Defined.

(* ===================================================================== *)
(** * ConversationalRetrieval: the question-condensing stage *)
(* ===================================================================== *)

Section RagFacts.
Context {E : Type}.
Variable TrimSpace : string → string.
Import protocol.

Lemma isEmptyText_iff (m : gmap string any) :
  rag.isEmptyText (index m "history") = true ↔
  m !! "history" = Some (AString EmptyString).
Proof.
  unfold index. destruct (m !! "history") as [[|s| | | |]|]; simpl;
    try (split; [done | by intros [=]]).
  destruct s; simpl; split; try done; by intros [=].
Qed.

Lemma GetString_state (values : mapref) (name : string) (st st' : state E)
    (r : outcome string) :
  rag.GetString values name st = (r, st') → st' = st.
Proof.
  unfold rag.GetString, bind, read. simpl.
  destruct (deref (heap st) values !! name) as [[]|]; by intros [= <- <-].
Qed.

(** The condensing unit of a retrieval chain is built without Memory. *)
Lemma NewLLM_no_memory (addr : nat) (llm : model.LLM E)
    (p : prompt.Template) :
  chainMemory (chain.LLM_Chain TrimSpace (chain.NewLLM addr llm p []))
    = None.
Proof. reflexivity. Qed.


End RagFacts.


(* ===================================================================== *)
(** * RefineDocuments *)
(* ===================================================================== *)

Section RefineFacts.
Context {E : Type}.
Variable TrimSpace : string → string.
Import protocol.

Lemma length_one_inv {A} (l : list A) :
  Nat.eqb (length l) 1 = true → ∃ x, l = [x].
Proof. destruct l as [|x [|y l]]; try done. eauto. Qed.

Lemma fresh_not_in_heap (h : heapT) : h !! fresh (dom h) = None.
Proof. apply not_elem_of_dom. apply is_fresh. Qed.

(** A successful [golc.SimpleCall]: one dispatch of the unit, on a fresh
    mapping that holds the input under the unit's single input key. *)
Lemma SimpleCall_ok (u : Chain E) (input : any) (st st' : state E)
    (s : string) :
  golc.SimpleCall u input [] st = (Ok s, st') →
  ∃ ikey okey pre sub out post vars delta,
    chainInputKeys u = [ikey] ∧ chainOutputKeys u = [okey] ∧
    log st' = log st ++ delta ∧
    trace.chainCalls delta
      = [EvChainCall (chainAddr u) (MapAt (fresh (dom (heap st)))) pre sub
                     (Ok out) post] ∧
    deref pre (MapAt (fresh (dom (heap st))))
      = vars ∪ {[ ikey := input ]} ∧
    (chainMemory u = None → vars = ∅) ∧
    (∀ l', l' ≠ fresh (dom (heap st)) → pre !! l' = heap st !! l') ∧
    heap st' = post ∧
    deref post out !! okey = Some (AString s).
Proof.
  unfold golc.SimpleCall. intros H.
  destruct (Nat.eqb (length (chainInputKeys u)) 1) eqn:Hi; [|done].
  destruct (Nat.eqb (length (chainOutputKeys u)) 1) eqn:Ho; [|done].
  apply length_one_inv in Hi as [ikey Hi].
  apply length_one_inv in Ho as [okey Ho].
  rewrite Hi, Ho in H. simpl in H.
  unfold bind at 1 in H. simpl in H.
  unfold bind at 1 in H. simpl in H.
  set (l := fresh (dom (heap st))) in *.
  fwd H.
  apply Call_trace in Hrun as (delta & Hlog & Htr).
  cbn [heap runs log ext] in Hlog, Htr.
  destruct o as [out|e|msg]; [|done..].
  unfold bind, read in H. simpl in H.
  destruct (deref (heap s0) out !! okey) as [[| s1 | | | |]|] eqn:Hout;
    try done.
  injection H as -> ->.
  inversion Htr as [ | | vars loads pre sub ret post r' tail h'
                         Hloaded Hfin]; subst.
  inversion Hfin; subst; [|discriminate].
  exists ikey, okey, pre, sub, out, (heap st'), vars.
  eexists. split; [done|]. split; [done|]. split; [exact Hlog|].
  destruct (Loaded_no_chain_call _ _ _ _ _ _ Hloaded) as (Hl & _ & _).
  split.
  { unfold trace.chainCalls. simpl. rewrite List.filter_app, Hl. simpl.
    unfold saves. by destruct (chainMemory u). }
  assert (Hd0 : deref (<[l := {[ikey := input]}]> (heap st)) (MapAt l)
                = {[ ikey := input ]}).
  { simpl. by rewrite lookup_insert_eq. }
  unfold Loaded in Hloaded.
  destruct (chainMemory u) as [mem|].
  - destruct Hloaded as [_ Hmerged].
    apply merged_deref in Hmerged as [Hd Hother]. rewrite Hd0 in Hd.
    split; [done|]. split; [done|]. split; [|done].
    intros l' Hl'. rewrite Hother by congruence.
    by rewrite lookup_insert_ne.
  - destruct Hloaded as (-> & _ & ->).
    split. { rewrite Hd0. by rewrite (left_id_L ∅ (∪)). }
    split; [done|]. split; [|done].
    intros l' Hl'. by rewrite lookup_insert_ne.
Qed.

(** The map built for a document after the first. *)
Lemma constructRefineInputs_ok (c : chain.RefineDocuments E)
    (doc : Document) (res : string) (rest r : mapref) (st st1 : state E) :
  chain.constructRefineInputs c doc res rest st = (Ok r, st1) →
  ∃ p rendering,
    chain.DocumentPrompt (chain.rdOpts c) = Some p ∧
    prompt.Format p (chain.docInfo doc) = inr rendering ∧
    r = MapAt (fresh (dom (heap st))) ∧
    heap st1 =
      <[fresh (dom (heap st)) :=
          <[chain.InitialResponseName (chain.rdOpts c) := AString res]>
            (<[chain.rdDocumentVariableName (chain.rdOpts c) :=
                 AString rendering]> (deref (heap st) rest))]> (heap st) ∧
    log st1 = log st.
Proof.
  unfold chain.constructRefineInputs, chain.formatDocument, util.CopyMap.
  unfold bind, read, alloc, chain.lift. simpl.
  destruct (chain.DocumentPrompt (chain.rdOpts c)) as [p|]; [|done].
  destruct (prompt.Format p (chain.docInfo doc)) as [e|rendering] eqn:Hf;
    [done|].
  simpl. intros [= <- <-]. simpl.
  exists p, rendering. rewrite !lookup_insert_eq. simpl.
  rewrite !insert_insert_eq. done.
Qed.

(** The map built for the first document. *)
Lemma constructInitialInputs_ok (c : chain.RefineDocuments E)
    (doc : Document) (rest r : mapref) (st st1 : state E) :
  chain.constructInitialInputs c doc rest st = (Ok r, st1) →
  ∃ p rendering,
    chain.DocumentPrompt (chain.rdOpts c) = Some p ∧
    prompt.Format p (chain.docInfo doc) = inr rendering ∧
    r = MapAt (fresh (dom (heap st))) ∧
    heap st1 =
      <[fresh (dom (heap st)) :=
          <[chain.rdDocumentVariableName (chain.rdOpts c) :=
              AString rendering]> (deref (heap st) rest)]> (heap st) ∧
    log st1 = log st.
Proof.
  unfold chain.constructInitialInputs, chain.formatDocument, util.CopyMap.
  unfold bind, read, alloc, chain.lift. simpl.
  destruct (chain.DocumentPrompt (chain.rdOpts c)) as [p|]; [|done].
  destruct (prompt.Format p (chain.docInfo doc)) as [e|rendering] eqn:Hf;
    [done|].
  simpl. intros [= <- <-]. simpl.
  exists p, rendering. rewrite !lookup_insert_eq. simpl.
  rewrite !insert_insert_eq. done.
Qed.

(** One step of the state machine: the unit [u] called through
    [golc.SimpleCall] on a map [r] just built for [doc]. *)
Lemma refine_step (c : chain.RefineDocuments E) (u : chain.LLM E)
    (doc : Document) (prior : option string) (l : loc)
    (content : gmap string any) (p : prompt.Template) (rendering : string)
    (st st' : state E) (answer : string) :
  heap st !! l = Some content →
  chain.DocumentPrompt (chain.rdOpts c) = Some p →
  prompt.Format p (chain.docInfo doc) = inr rendering →
  match prior with
  | None =>
      content !! chain.rdDocumentVariableName (chain.rdOpts c)
        = Some (AString rendering)
  | Some answer0 =>
      content !! chain.InitialResponseName (chain.rdOpts c)
        = Some (AString answer0) ∧
      (chain.rdDocumentVariableName (chain.rdOpts c)
         ≠ chain.InitialResponseName (chain.rdOpts c) →
       content !! chain.rdDocumentVariableName (chain.rdOpts c)
         = Some (AString rendering))
  end →
  golc.SimpleCall (chain.LLM_Chain TrimSpace u) (AMap (MapAt l)) [] st
    = (Ok answer, st') →
  ∃ delta ev,
    log st' = log st ++ delta ∧ trace.chainCalls delta = [ev] ∧
    chain.refineStep c u doc prior answer ev.
Proof.
  intros Hl Hp Hf Hcontent H.
  apply SimpleCall_ok in H
    as (ikey & okey & pre & sub & out & post & vars & delta &
        Hik & Hok & Hlog & Hcalls & Hpre & Hvars & Hother & Hpost & Hans).
  simpl in Hik, Hok, Hvars. injection Hok as <-.
  exists delta. eexists. split; [done|]. split; [exact Hcalls|].
  exists (MapAt (fresh (dom (heap st)))), pre, sub, out, post, ikey,
         (MapAt l), vars, p, rendering.
  assert (Hne : l ≠ fresh (dom (heap st))).
  { intros ->. by rewrite fresh_not_in_heap in Hl. }
  assert (Hr : deref pre (MapAt l) = content).
  { simpl. by rewrite (Hother l Hne), Hl. }
  rewrite Hr. repeat split; try done.
Qed.

Lemma chainCalls_app (l1 l2 : list event) :
  trace.chainCalls (l1 ++ l2) = trace.chainCalls l1 ++ trace.chainCalls l2.
Proof. apply List.filter_app. Qed.

(** The loop over the documents after the first. *)
Lemma refineLoop_ok (c : chain.RefineDocuments E) (rest : mapref)
    (docs : list Document) (res res' : string) (st st' : state E) :
  chain.refineLoop TrimSpace c rest docs res st = (Ok res', st') →
  ∃ delta answers,
    log st' = log st ++ delta ∧
    chain.refineSteps c docs res (trace.chainCalls delta) answers ∧
    res' = List.last answers res.
Proof.
  revert res st. induction docs as [|doc docs IH]; intros res st.
  - intros [= <- <-]. exists [], []. by rewrite app_nil_r.
  - simpl. intros H. fwd H.
    destruct o as [r| |]; [|done..].
    apply constructRefineInputs_ok in Hrun
      as (p & rendering & Hp & Hf & -> & Hheap & Hlog0).
    fwd H. destruct o as [answer| |]; [|done..].
    eapply (refine_step c (chain.refineLLMChain c) doc (Some res)) in Hrun
      as (delta1 & ev & Hlog1 & Hcalls1 & Hstep); try done.
    2: { rewrite Hheap. apply lookup_insert_eq. }
    2: { rewrite lookup_insert_eq. split; [done|].
         intros Hne. rewrite lookup_insert_ne by done.
         apply lookup_insert_eq. }
    apply IH in H as (delta2 & answers & Hlog2 & Hsteps & ->).
    exists (delta1 ++ delta2), (answer :: answers).
    split. { by rewrite Hlog2, Hlog1, Hlog0, app_assoc. }
    split.
    + rewrite chainCalls_app, Hcalls1. simpl. done.
    + destruct answers as [|a ans]; [done|].
      exact (last_cons_default a ans answer res).
Qed.


End RefineFacts.


(* ===================================================================== *)
(** * golc.Call: the notifications of a run *)
(* ===================================================================== *)

Section CallNotifications.
Context {E : Type}.
Import protocol.

(** The memory stage logs nothing but its load. *)
Lemma Loaded_top (chain : Chain E) (h0 pre : heapT)
    (inputs : mapref) (vars : gmap string any) (loads : list event) :
  Loaded chain h0 inputs vars loads pre →
  ∀ p, (∀ m v r, p (EvLoadMemoryVariables m v r) = false) →
       List.filter p loads = [].
Proof.
  unfold Loaded. destruct (chainMemory chain).
  - intros [[lres ->] _] p Hp. simpl. by rewrite Hp.
  - by intros (_ & -> & _).
Qed.

Lemma saves_top (chain : Chain E) (inputs out : mapref) (post : heapT) :
  ∀ p, (∀ m v r, p (EvSaveContext m v r) = false) →
       List.filter p (saves chain inputs out post) = [].
Proof.
  intros p Hp. unfold saves. destruct (chainMemory chain); [|done].
  simpl. by rewrite Hp.
Qed.

(** An event of a kind [p] that is neither a start notification, nor a
    load, nor a dispatch, comes after the dispatch of the unit's own
    call. *)
Lemma CallTrace_tail (chain : Chain E) (inputs : mapref)
    (opts : golc.CallOptions E) (h0 h' : heapT) (run : nat)
    (r : outcome mapref) (delta : list event) (ev : event)
    (p : event → bool) :
  CallTrace chain inputs opts h0 run r delta h' →
  In ev delta → p ev = true →
  (∀ id k m res, p (EvOnChainStart id k m res) = false) →
  (∀ m v res, p (EvLoadMemoryVariables m v res) = false) →
  (∀ a i pre sub ret post, p (EvChainCall a i pre sub ret post) = false) →
  ∃ vars loads pre sub ret post tail,
    Loaded chain h0 inputs vars loads pre ∧
    Finished chain inputs opts run post ret r tail h' ∧
    In ev tail ∧
    delta = EvOnChainStart run (chainType chain) (deref h0 inputs) None
              :: loads
              ++ EvChainCall (chainAddr chain) inputs pre sub ret post
              :: tail.
Proof.
  intros Htr Hin Hp Hstart Hload Hcall.
  inversion Htr as [e0 | vars lres msg | vars loads pre sub ret post r'
                                           tail h'' Hloaded Hfin]; subst.
  - destruct Hin as [<-|[]]. by rewrite Hstart in Hp.
  - destruct Hin as [<-|[<-|[]]]; [by rewrite Hstart in Hp|].
    by rewrite Hload in Hp.
  - exists vars, loads, pre, sub, ret, post, tail.
    split; [done|]. split; [done|]. split; [|done].
    destruct Hin as [<-|Hin]; [by rewrite Hstart in Hp|].
    apply in_app_or in Hin as [Hin|[<-|Hin]];
      [| by rewrite Hcall in Hp | done].
    exfalso.
    assert (In ev (List.filter p loads)) as Hf by (apply filter_In; done).
    by rewrite (Loaded_top _ _ _ _ _ _ Hloaded) in Hf.
Qed.

Lemma Finished_save_fails (chain : Chain E) (inputs : mapref)
    (opts : golc.CallOptions E) (run : nat) (post h' : heapT)
    (ret r : outcome mapref) (tail : list event)
    (mi mo : gmap string any) (e : error) :
  Finished chain inputs opts run post ret r tail h' →
  In (EvSaveContext mi mo (Some e)) tail →
  r = Err e ∧ h' = post ∧ tail = [EvSaveContext mi mo (Some e)] ∧
  ∃ out, ret = Ok out.
Proof.
  intros Hfin Hin.
  inversion Hfin; subst; unfold saves in Hin;
    try (destruct (chainMemory chain)); simpl in Hin;
    repeat (destruct Hin as [Hin|Hin]; try done); try done.
  injection Hin as <- <- <-. eauto.
Qed.

Lemma Finished_end_fails (chain : Chain E) (inputs : mapref)
    (opts : golc.CallOptions E) (run : nat) (post h' : heapT)
    (ret r : outcome mapref) (tail : list event)
    (id : nat) (mo : gmap string any) (e : error) :
  Finished chain inputs opts run post ret r tail h' →
  In (EvOnChainEnd id mo (Some e)) tail →
  r = Err e ∧ h' = post ∧ id = run ∧
  ∃ out, ret = Ok out ∧ mo = deref post out ∧
    tail = saves chain inputs out post ++ [EvOnChainEnd id mo (Some e)].
Proof.
  intros Hfin Hin.
  inversion Hfin; subst; unfold saves in *;
    try (destruct (chainMemory chain)); simpl in Hin;
    repeat (destruct Hin as [Hin|Hin]; try done); try done;
    injection Hin as <- <- <-; eauto 10.
Qed.

(** Every run of [golc.Call] sends one start notification. *)
Lemma CallTrace_one_start (chain : Chain E) (inputs : mapref)
    (opts : golc.CallOptions E) (h0 h' : heapT) (run : nat)
    (r : outcome mapref) (delta : list event) :
  CallTrace chain inputs opts h0 run r delta h' →
  trace.count trace.isOnChainStart delta = 1%nat.
Proof.
  intros Htr.
  inversion Htr as [e0 | vars lres msg | vars loads pre sub ret post r'
                                           tail h'' Hloaded Hfin]; subst;
    try done.
  unfold trace.count. simpl.
  rewrite List.filter_app, (Loaded_top _ _ _ _ _ _ Hloaded) by done.
  simpl.
  inversion Hfin; subst; simpl;
    rewrite ?List.filter_app, ?saves_top by done; done.
Qed.

(** X1: [golc.Call] fails closed.  When the start notification of a run
    is refused with an error, the call returns that error and has done
    nothing else: the refused notification is its only interaction (no
    memory load, no call of the unit, no further notification) and the
    store is as it was. *)
Theorem Call_fails_closed (chain : Chain E) (inputs : mapref)
    (optFns : list (golc.CallOptions E → golc.CallOptions E))
    (st st' : state E) (r : outcome mapref)
    (run : nat) (kind : string) (m : gmap string any) (e : error) :
  golc.Call chain inputs optFns st = (r, st') →
  In (EvOnChainStart run kind m (Some e)) (trace.since st st') →
  r = Err e ∧
  trace.since st st'
    = [EvOnChainStart (runs st) (chainType chain) (deref (heap st) inputs)
         (Some e)] ∧
  heap st' = heap st.
Proof.
  intros H Hin.
  apply Call_trace in H as (delta & Hlog & Htr).
  rewrite (since_app _ _ _ Hlog) in *.
  inversion Htr as [e0 | vars lres msg | vars loads pre sub ret post r'
                                           tail h' Hloaded Hfin]; subst.
  - destruct Hin as [[= <- <- <- <-]|[]]. done.
  - destruct Hin as [?|[?|[]]]; done.
  - exfalso. destruct Hin as [?|Hin]; [done|].
    assert (In (EvOnChainStart run kind m (Some e))
              (List.filter trace.isOnChainStart
                 (loads ++ EvChainCall (chainAddr chain) inputs pre sub ret
                                       post :: tail))) as Hf.
    { apply filter_In. by split. }
    rewrite List.filter_app in Hf. simpl in Hf.
    rewrite (Loaded_top _ _ _ _ _ _ Hloaded) in Hf by done.
    simpl in Hf.
    inversion Hfin; subst; simpl in Hf;
      try rewrite List.filter_app in Hf;
      try rewrite saves_top in Hf by done; simpl in Hf; done.
Qed.

(** X2: the notifications of a run of [golc.Call] are balanced.  The run
    opens with exactly one start notification, which carries the unit's
    type and the inputs as the caller supplied them (before any memory
    variable is merged in); the unit's own call is dispatched at most once;
    at most one closing notification is sent, never both a fail and an end
    notification; and a call that returns outputs has dispatched the unit
    once and sent the end notification, not the fail notification. *)
Theorem Call_notification_balance (chain : Chain E) (inputs : mapref)
    (optFns : list (golc.CallOptions E → golc.CallOptions E))
    (st st' : state E) (r : outcome mapref) :
  golc.Call chain inputs optFns st = (r, st') →
  let delta := trace.since st st' in
  (∃ res rest,
     delta = EvOnChainStart (runs st) (chainType chain)
               (deref (heap st) inputs) res :: rest ∧
     trace.count trace.isOnChainStart rest = 0%nat) ∧
  (trace.count trace.isChainCall delta ≤ 1)%nat ∧
  (trace.count trace.isOnChainError delta
     + trace.count trace.isOnChainEnd delta ≤ 1)%nat ∧
  (∀ out, r = Ok out →
     trace.count trace.isChainCall delta = 1%nat ∧
     trace.count trace.isOnChainEnd delta = 1%nat ∧
     trace.count trace.isOnChainError delta = 0%nat).
Proof.
  intros H delta. subst delta.
  apply Call_trace in H as (delta & Hlog & Htr).
  rewrite (since_app _ _ _ Hlog) in *.
  inversion Htr as [e0 | vars lres msg | vars loads pre sub ret post r'
                                           tail h' Hloaded Hfin]; subst.
  - split; [eauto|]. unfold trace.count. simpl. split; [lia|]. split; [lia|].
    done.
  - split; [eauto|]. unfold trace.count. simpl. split; [lia|]. split; [lia|].
    done.
  - pose proof (Loaded_top _ _ _ _ _ _ Hloaded) as Hl.
    pose proof (saves_top chain inputs) as Hs.
    split.
    { do 2 eexists. split; [done|]. unfold trace.count.
      rewrite List.filter_app, Hl by done. simpl.
      inversion Hfin; subst; simpl;
        try rewrite List.filter_app; try rewrite Hs by done; done. }
    unfold trace.count. simpl.
    rewrite !List.filter_app, !Hl by done. simpl.
    inversion Hfin; subst; simpl;
      rewrite ?List.filter_app, ?Hs by done; simpl;
      (split; [lia|]); (split; [lia|]); intros; simplify_eq; done.
Qed.

(** X3: failures after the unit's own call.  When [SaveContext] fails,
    [golc.Call] returns its error; neither the end nor the fail
    notification is sent.  When the end notification fails, [golc.Call]
    returns its error and sends no fail notification; a unit with Memory
    has then already saved the turn.  In both cases the unit's own call had
    succeeded, its outputs are not returned, and the store is as that call
    left it. *)
Theorem Call_late_failure (chain : Chain E) (inputs : mapref)
    (optFns : list (golc.CallOptions E → golc.CallOptions E))
    (st st' : state E) (r : outcome mapref) :
  golc.Call chain inputs optFns st = (r, st') →
  let delta := trace.since st st' in
  (∀ mi mo e, In (EvSaveContext mi mo (Some e)) delta →
     r = Err e ∧
     trace.count trace.isOnChainEnd delta = 0%nat ∧
     trace.count trace.isOnChainError delta = 0%nat ∧
     ∃ pre sub out,
       In (EvChainCall (chainAddr chain) inputs pre sub (Ok out) (heap st'))
          delta) ∧
  (∀ run mo e, In (EvOnChainEnd run mo (Some e)) delta →
     r = Err e ∧
     trace.count trace.isOnChainError delta = 0%nat ∧
     (chainMemory chain ≠ None →
      In (EvSaveContext (deref (heap st') inputs) mo None) delta) ∧
     ∃ pre sub out,
       In (EvChainCall (chainAddr chain) inputs pre sub (Ok out) (heap st'))
          delta).
Proof.
  intros H delta. subst delta.
  apply Call_trace in H as (delta & Hlog & Htr).
  rewrite (since_app _ _ _ Hlog) in *.
  split.
  - intros mi mo e Hin.
    destruct (CallTrace_tail _ _ _ _ _ _ _ _ _ trace.isSaveContext
                Htr Hin) as (vars & loads & pre & sub & ret & post & tail &
                             Hloaded & Hfin & Hin' & ->); try done.
    pose proof (Loaded_top _ _ _ _ _ _ Hloaded) as Hl.
    destruct (Finished_save_fails _ _ _ _ _ _ _ _ _ _ _ _ Hfin Hin')
      as (-> & -> & -> & out & ->).
    unfold trace.count. simpl. rewrite !List.filter_app, !Hl by done. simpl.
    split; [done|]. split; [done|]. split; [done|].
    exists pre, sub, out. right. apply in_or_app. right. by left.
  - intros run mo e Hin.
    destruct (CallTrace_tail _ _ _ _ _ _ _ _ _ trace.isOnChainEnd
                Htr Hin) as (vars & loads & pre & sub & ret & post & tail &
                             Hloaded & Hfin & Hin' & ->); try done.
    pose proof (Loaded_top _ _ _ _ _ _ Hloaded) as Hl.
    destruct (Finished_end_fails _ _ _ _ _ _ _ _ _ _ _ _ Hfin Hin')
      as (-> & -> & -> & out & -> & -> & ->).
    pose proof (saves_top chain inputs out post) as Hs.
    remember (saves chain inputs out post) as sv.
    unfold trace.count. simpl.
    rewrite List.filter_app, Hl by done. simpl.
    rewrite List.filter_app, Hs by done. simpl.
    split; [done|]. split; [done|]. split.
    + intros Hmem. right. apply in_or_app. right. right.
      apply in_or_app. left. subst sv. unfold saves.
      destruct (chainMemory chain); [by left | done].
    + exists pre, sub, out. right. apply in_or_app. right. by left.
Qed.

(** X4: run information.  With [IncludeRunInfo] set, a call of
    [golc.Call] that returns outputs returns the very mapping the unit
    returned, after the end notification, with the identifier of the run
    (the one its start notification carried) stored in it under
    ["runInfo"]; nothing else in the store differs from what the unit's
    call left.  A unit that returns the nil mapping with no error makes the
    call panic on that assignment, unless a failure comes first. *)
Theorem Call_run_info (chain : Chain E) (inputs : mapref)
    (optFns : list (golc.CallOptions E → golc.CallOptions E))
    (st st' : state E) (r : outcome mapref) :
  golc.Call chain inputs optFns st = (r, st') →
  golc.IncludeRunInfo (apply_opts optFns defaultCallOptions) = true →
  let delta := trace.since st st' in
  (∀ out, r = Ok out →
     ∃ lo pre sub post,
       out = MapAt lo ∧
       In (EvChainCall (chainAddr chain) inputs pre sub (Ok out) post)
          delta ∧
       In (EvOnChainEnd (runs st) (deref post out) None) delta ∧
       heap st'
         = <[lo := <["runInfo" := ARunID (runs st)]> (deref post out)]> post)
  ∧
  (∀ a i pre sub post,
     In (EvChainCall a i pre sub (Ok NilMap) post) delta →
     (∃ e, r = Err e) ∨
     (∃ msg, r = Panic msg ∧
             In (EvOnChainEnd (runs st) ∅ None) delta)).
Proof.
  intros H Hinfo delta. subst delta.
  apply Call_trace in H as (delta & Hlog & Htr).
  rewrite (since_app _ _ _ Hlog) in *.
  split.
  - intros out ->.
    inversion Htr as [e0 | vars lres msg | vars loads pre sub ret post r'
                                             tail h' Hloaded Hfin]; subst.
    inversion Hfin; subst; [congruence|].
    exists lo, pre, sub, post. split; [done|]. split.
    { right. apply in_or_app. right. by left. }
    split; [|done].
    right. apply in_or_app. right. right. apply in_or_app. right. by left.
  - intros a i pre sub post Hin.
    destruct (CallTrace_chain_call _ _ _ _ _ _ _ _ _ _ _ _ _ _ Htr Hin)
      as (vars & loads & tail & -> & -> & Hloaded & Hfin & ->).
    inversion Hfin; subst; eauto; [congruence|].
    right. eexists. split; [done|].
    right. apply in_or_app. right. right. apply in_or_app. right. by left.
Qed.

End CallNotifications.

(** An observer refuses the start of a run on a unit with Memory: error 4
    comes back and the refused notification is all that happened. *)
Lemma Call_fails_closed_witness :
  scenarios.refusedRun = (Err (ErrOther 4), scenarios.refusedRun.2) ∧
  In (EvOnChainStart 0 "Echo" examples.question (Some (ErrOther 4)))
     (trace.since examples.st0 scenarios.refusedRun.2) ∧
  @Err mapref (ErrOther 4) = Err (ErrOther 4) ∧
  trace.since examples.st0 scenarios.refusedRun.2
    = [EvOnChainStart 0 "Echo" examples.question (Some (ErrOther 4))] ∧
  heap scenarios.refusedRun.2 = heap examples.st0.
Proof.
  assert (Hrun : golc.Call examples.memoryChain (MapAt 0)
                   [examples.withCallbacks
                      [scenarios.refusing (ErrOther 4)]] examples.st0
                 = (Err (ErrOther 4), scenarios.refusedRun.2))
    by (vm_compute; reflexivity).
  assert (Hin : In (EvOnChainStart 0 "Echo" examples.question
                      (Some (ErrOther 4)))
                   (trace.since examples.st0 scenarios.refusedRun.2))
    by (vm_compute; left; reflexivity).
  split; [exact Hrun|]. split; [exact Hin|].
  exact (Call_fails_closed _ _ _ _ _ _ _ _ _ _ Hrun Hin).
Defined.

Lemma Call_notification_balance_witness :
  examples.memoryRun = (Ok (MapAt 1), examples.memoryRun.2) ∧
  trace.count trace.isChainCall
    (trace.since examples.st0 examples.memoryRun.2) = 1%nat ∧
  trace.count trace.isOnChainEnd
    (trace.since examples.st0 examples.memoryRun.2) = 1%nat ∧
  trace.count trace.isOnChainError
    (trace.since examples.st0 examples.memoryRun.2) = 0%nat.
Proof.
  assert (Hrun : golc.Call examples.memoryChain (MapAt 0) [] examples.st0
                 = (Ok (MapAt 1), examples.memoryRun.2))
    by (vm_compute; reflexivity).
  split; [exact Hrun|].
  exact (proj2 (proj2 (proj2 (Call_notification_balance _ _ _ _ _ _ Hrun)))
           (MapAt 1) eq_refl).
Defined.

(** The memory cannot save: error 5 comes back without end or fail
    notification.  An observer fails at the end of a run: error 4 comes
    back without fail notification. *)
Lemma Call_late_failure_witness :
  (scenarios.unendedRun.1 = Err (ErrOther 4) ∧
   trace.count trace.isOnChainError
     (trace.since examples.st0 scenarios.unendedRun.2) = 0%nat) ∧
  (examples.unsavedRun.1 = Err (ErrOther 5) ∧
   trace.count trace.isOnChainEnd
     (trace.since examples.st0 examples.unsavedRun.2) = 0%nat ∧
   trace.count trace.isOnChainError
     (trace.since examples.st0 examples.unsavedRun.2) = 0%nat).
Proof.
  split.
  - assert (Hin : In (EvOnChainEnd 0 {[ "text" := AString "q" ]}
                        (Some (ErrOther 4)))
                     (trace.since examples.st0 scenarios.unendedRun.2))
      by (vm_compute; do 4 right; left; reflexivity).
    pose proof (proj2 (Call_late_failure _ _ _ _ _ _
                         (surjective_pairing scenarios.unendedRun))
                  _ _ _ Hin) as (H1 & H2 & _).
    split; [exact H1 | exact H2].
  - assert (Hin : In (EvSaveContext
                        ({[ "history" := AString "h" ]} ∪ examples.question)
                        {[ "text" := AString "q" ]} (Some (ErrOther 5)))
                     (trace.since examples.st0 examples.unsavedRun.2))
      by (vm_compute; do 3 right; left; reflexivity).
    pose proof (proj1 (Call_late_failure _ _ _ _ _ _
                         (surjective_pairing examples.unsavedRun))
                  _ _ _ Hin) as (H1 & H2 & H3 & _).
    split; [exact H1|]. split; [exact H2 | exact H3].
Defined.

(** A call with run information: the outputs come back with the run
    identifier 0 beside the answer. *)
Lemma Call_run_info_witness :
  scenarios.runInfoRun = (Ok (MapAt 1), scenarios.runInfoRun.2) ∧
  deref (heap scenarios.runInfoRun.2) (MapAt 1)
    = {[ "runInfo" := ARunID 0; "text" := AString "q" ]} ∧
  ∃ lo pre sub post,
    MapAt 1 = MapAt lo ∧
    In (EvChainCall 1 (MapAt 0) pre sub (Ok (MapAt 1)) post)
       (trace.since examples.st0 scenarios.runInfoRun.2) ∧
    In (EvOnChainEnd 0 (deref post (MapAt 1)) None)
       (trace.since examples.st0 scenarios.runInfoRun.2) ∧
    heap scenarios.runInfoRun.2
      = <[lo := <["runInfo" := ARunID 0]> (deref post (MapAt 1))]> post.
Proof.
  assert (Hrun : golc.Call (examples.echo None) (MapAt 0)
                   [scenarios.withRunInfo] examples.st0
                 = (Ok (MapAt 1), scenarios.runInfoRun.2))
    by (vm_compute; reflexivity).
  split; [exact Hrun|]. split; [vm_compute; reflexivity|].
  exact (proj1 (Call_run_info _ _ _ _ _ _ Hrun eq_refl) (MapAt 1) eq_refl).
Defined.

(* ===================================================================== *)
(** * golc.SimpleCall and chain.Run: arity, output type, dispatch *)
(* ===================================================================== *)
Section EntryPoints.
Context {E : Type}.
Variable TrimSpace : string → string.
Import protocol.

(** X5: the errors of [golc.SimpleCall].  A unit that does not declare
    exactly one input key is rejected with [ErrMultipleInputs], and one with
    one input key but not exactly one output key with [ErrMultipleOutputs],
    in both cases before anything is done.  When the unit's call and the
    end notification have succeeded but the value under the output key is
    missing or is not text, the caller gets [ErrWrongOutputType], and no
    fail notification is sent for it. *)
Theorem SimpleCall_errors (chain : Chain E) (input : any)
    (optFns : list (golc.SimpleCallOptions E → golc.SimpleCallOptions E))
    (st : state E) :
  (length (chainInputKeys chain) ≠ 1%nat →
   golc.SimpleCall chain input optFns st = (Err ErrMultipleInputs, st)) ∧
  (length (chainInputKeys chain) = 1%nat →
   length (chainOutputKeys chain) ≠ 1%nat →
   golc.SimpleCall chain input optFns st = (Err ErrMultipleOutputs, st)) ∧
  (∀ r st' run m okey,
     golc.SimpleCall chain input optFns st = (r, st') →
     In (EvOnChainEnd run m None) (trace.since st st') →
     chainOutputKeys chain = [okey] →
     (∀ s, m !! okey ≠ Some (AString s)) →
     r = Err ErrWrongOutputType ∧
     trace.count trace.isOnChainError (trace.since st st') = 0%nat).
Proof.
  split; [|split].
  - intros Hlen. unfold golc.SimpleCall.
    apply Nat.eqb_neq in Hlen. by rewrite Hlen.
  - intros Hin Hout. unfold golc.SimpleCall.
    apply Nat.eqb_eq in Hin. apply Nat.eqb_neq in Hout.
    by rewrite Hin, Hout.
  - intros r st' run m okey H Hend Hkeys Hm.
    unfold golc.SimpleCall in H. rewrite Hkeys in H.
    destruct (Nat.eqb (length (chainInputKeys chain)) 1) eqn:Hlen;
      simpl in H.
    2: { injection H as <- <-. unfold trace.since in Hend.
         rewrite drop_all in Hend. done. }
    destruct (chainInputKeys chain) as [|ikey ikeys]; [done|].
    unfold bind at 1 in H. simpl in H.
    unfold bind at 1 in H. simpl in H.
    fwd H.
    apply Call_trace in Hrun as (delta & Hlog & Htr).
    cbn [heap runs log ext] in Hlog, Htr.
    assert (log st' = log s) as Hsame.
    { destruct o as [out| |]; try by injection H as <- <-.
      unfold bind, read in H. simpl in H.
      by destruct (deref (heap s) out !! okey) as [[]|];
        injection H as <- <-. }
    assert (trace.since st st' = delta) as Hd.
    { apply since_app. by rewrite Hsame. }
    rewrite Hd in *. clear Hd.
    inversion Htr as [e0 | vars lres msg | vars loads pre sub ret post r'
                                             tail h' Hloaded Hfin]; subst.
    { destruct Hend as [?|[]]; done. }
    { destruct Hend as [?|[?|[]]]; done. }
    assert (In (EvOnChainEnd run m None) tail) as Hend'.
    { destruct Hend as [?|Hend]; [done|].
      apply in_app_or in Hend as [Hend|[?|Hend]]; try done.
      exfalso.
      assert (In (EvOnChainEnd run m None)
                (List.filter trace.isOnChainEnd loads)) as Hf
        by (apply filter_In; done).
      by rewrite (Loaded_top _ _ _ _ _ _ Hloaded) in Hf. }
    assert (∃ out, o = Ok out ∧ ret = Ok out ∧ m = deref post out ∧
                   heap s = post ∧
                   List.filter trace.isOnChainError tail = [])
      as (out & -> & -> & -> & Hh & Htail).
    { inversion Hfin; subst; unfold saves in *;
        try (destruct (chainMemory chain)); simpl in Hend';
        repeat (destruct Hend' as [Hend'|Hend']; try done); try done;
        injection Hend' as <- <-; simpl; eauto 10. }
    unfold bind, read in H. simpl in H. rewrite Hh in H.
    split.
    + destruct (deref post out !! okey) as [[]|] eqn:Hv;
        injection H as <- <-; try done.
      by exfalso; eapply Hm.
    + unfold trace.count. simpl.
      rewrite List.filter_app, (Loaded_top _ _ _ _ _ _ Hloaded) by done.
      simpl. by rewrite Htail.
Qed.


End EntryPoints.

(** A unit that answers with a number: the run ends well for the
    observers, and the caller gets [ErrWrongOutputType]. *)
Lemma SimpleCall_errors_witness :
  scenarios.countingRun.1 = Err ErrWrongOutputType ∧
  trace.count trace.isOnChainError
    (trace.since examples.st0 scenarios.countingRun.2) = 0%nat.
Proof.
  assert (Hin : In (EvOnChainEnd 0 {[ "text" := AOther 1 ]} None)
                   (trace.since examples.st0 scenarios.countingRun.2))
    by (vm_compute; do 2 right; left; reflexivity).
  assert (Hm : ∀ s, ({[ "text" := AOther 1 ]} : gmap string any) !! "text"
                    ≠ Some (AString s))
    by (intros s; vm_compute; discriminate).
  exact (proj2 (proj2 (SimpleCall_errors scenarios.counting (AString "q") []
                         examples.st0))
           _ _ _ _ "text" (surjective_pairing scenarios.countingRun)
           Hin eq_refl Hm).
Defined.


(* ===================================================================== *)
(** * golc.BatchCall: every input is started *)
(* ===================================================================== *)
Section BatchStartFacts.
Context {E : Type}.
Variable cancel : E → E.
Variable chain : Chain E.
Variable opts : golc.BatchCallOptions E.
Variable inputs : list mapref.

Local Abbreviation run := (golc.errgroupRun cancel chain opts inputs).

Lemma count_app (p : event → bool) (l1 l2 : list event) :
  trace.count p (l1 ++ l2) = (trace.count p l1 + trace.count p l2)%nat.
Proof. unfold trace.count. by rewrite List.filter_app, length_app. Qed.

(** Every scheduled goroutine opens its run, whatever the others did. *)
Lemma errgroupRun_starts (sched : list nat) (firstErr : option error)
    (cv : list mapref) (st st' : state E)
    (r : option error * list mapref) :
  Forall (λ i, i < length inputs)%nat sched →
  run sched firstErr cv st = (Ok r, st') →
  ∃ delta, log st' = log st ++ delta ∧
    trace.count trace.isOnChainStart delta = length sched.
Proof.
  revert firstErr cv st.
  induction sched as [|i sched IH]; intros fe cv st Hall.
  - intros [= <- <-]. exists []. by rewrite app_nil_r.
  - apply Forall_cons in Hall as [Hi Hall].
    rewrite errgroupRun_cons.
    destruct (lookup_lt_is_Some_2 inputs i Hi) as [input Hin].
    rewrite Hin.
    destruct (golc.Call chain input _ st) as [[out|err|msg] st1] eqn:Hc;
      [| |done].
    + apply Call_trace in Hc as (d1 & Hl1 & Htr).
      apply CallTrace_one_start in Htr.
      intros H. apply IH in H as (d2 & Hl2 & Hc2); [|done].
      exists (d1 ++ d2). split.
      { by rewrite Hl2, Hl1, app_assoc. }
      rewrite count_app, Htr, Hc2. done.
    + apply Call_trace in Hc as (d1 & Hl1 & Htr).
      apply CallTrace_one_start in Htr.
      destruct fe as [e0|]; intros H;
        apply IH in H as (d2 & Hl2 & Hc2); try done;
        exists (d1 ++ d2); (split; [|by rewrite count_app, Htr, Hc2]).
      * by rewrite Hl2, Hl1, app_assoc.
      * simpl in Hl2. by rewrite Hl2, Hl1, app_assoc.
Qed.

End BatchStartFacts.

Section BatchStarts.
Context {E : Type}.
Variable cancel : E → E.

(** X7: [golc.BatchCall] opens a run for every input.  Whatever the
    completion order, and whether or not some invocation fails (the
    group's context is then cancelled, but the goroutines already launched
    still run), a batch that returns has sent exactly one start
    notification per input. *)
Theorem BatchCall_starts_every_input (chain : Chain E)
    (inputs : list mapref)
    (optFns : list (golc.BatchCallOptions E → golc.BatchCallOptions E))
    (sched : list nat) (st st' : state E) (r : outcome (list mapref)) :
  sched ≡ₚ seq 0 (length inputs) →
  golc.BatchCall cancel chain inputs optFns sched st = (r, st') →
  (∀ msg, r ≠ Panic msg) →
  trace.count trace.isOnChainStart (trace.since st st') = length inputs.
Proof.
  intros Hperm H Hnp. unfold golc.BatchCall in H.
  fwd H. destruct o as [[fe cv]|e|msg].
  - apply errgroupRun_starts in Hrun as (delta & Hlog & Hcount).
    2: { rewrite Hperm. apply Forall_forall. intros i Hi.
         apply elem_of_seq in Hi. lia. }
    assert (log st' = log s) as Hs.
    { simpl in H. destruct fe; [by injection H as <- <-|].
      unfold bind, collab, ret in H. simpl in H. by injection H as <- <-. }
    rewrite (since_app st st' delta) by (by rewrite Hs).
    rewrite Hcount, Hperm. apply length_seq.
  - by apply errgroupRun_no_Err in Hrun.
  - injection H as <- <-. by destruct (Hnp msg).
Qed.

End BatchStarts.

(** Three questions, the second refused, completing in the order 2, 0, 1:
    the batch fails with the unit's error, and three runs were opened. *)
Lemma BatchCall_starts_every_input_witness :
  [2; 0; 1] ≡ₚ seq 0 (length scenarios.mixedInputs) ∧
  scenarios.mixedBatch = (Err (ErrOther 6), scenarios.mixedBatch.2) ∧
  trace.count trace.isOnChainStart
    (trace.since scenarios.mixedState scenarios.mixedBatch.2)
    = length scenarios.mixedInputs.
Proof.
  assert (Hperm : [2; 0; 1] ≡ₚ seq 0 (length scenarios.mixedInputs)).
  { simpl. etrans; [apply perm_swap|]. apply perm_skip, perm_swap. }
  assert (Hrun : golc.BatchCall S scenarios.picky scenarios.mixedInputs []
                   [2; 0; 1] scenarios.mixedState
                 = (Err (ErrOther 6), scenarios.mixedBatch.2))
    by (vm_compute; reflexivity).
  split; [exact Hperm|]. split; [exact Hrun|].
  apply (BatchCall_starts_every_input S _ _ _ _ _ _ _ Hperm Hrun).
  intros msg. discriminate.
Defined.

(* ===================================================================== *)
(** * chain.Apply: one input after the other *)
(* ===================================================================== *)
Section ApplyFacts.
Context {E : Type}.
Variable ctxErr : E → option error.
Variable chain : Chain E.

Local Abbreviation sent :=
  (zip_with (λ (i o : mapref), (chainAddr chain, i, @Ok mapref o))).

Lemma dispatches_app (l1 l2 : list event) :
  trace.dispatches (l1 ++ l2) = trace.dispatches l1 ++ trace.dispatches l2.
Proof. unfold trace.dispatches. apply omap_app. Qed.

(** The loop of [Apply], one input after the other. *)
Lemma applyLoop_run (inputs acc : list mapref) (st st' : state E)
    (r : outcome (list mapref)) :
  chain.applyLoop ctxErr chain inputs acc st = (r, st') →
  ∃ delta outs,
    log st' = log st ++ delta ∧
    (length outs ≤ length inputs)%nat ∧
    match r with
    | Ok results =>
        results = acc ++ outs ∧ length outs = length inputs ∧
        length delta = length inputs ∧
        trace.dispatches delta = sent inputs outs
    | Err e =>
        (length outs < length inputs)%nat ∧
        ((ctxErr (ext st') = Some e ∧ length delta = length outs ∧
          trace.dispatches delta = sent inputs outs) ∨
         (∃ input, inputs !! length outs = Some input ∧
            length delta = S (length outs) ∧
            trace.dispatches delta
              = sent inputs outs ++ [(chainAddr chain, input, Err e)]))
    | Panic msg => True
    end.
Proof.
  revert acc st. induction inputs as [|input rest IH]; intros acc st H.
  - injection H as <- <-. exists [], []. rewrite !app_nil_r. done.
  - simpl in H. unfold bind at 1 in H. unfold collab at 1 in H.
    simpl in H.
    destruct (ctxErr (ext st)) as [err|] eqn:Hctx.
    { injection H as <- <-. exists [], []. rewrite app_nil_r. simpl.
      split; [done|]. split; [lia|]. split; [lia|]. left. done. }
    fwd H. apply invoke_inv in Hrun as (sub & _ & Hlog).
    cbn [heap runs log ext] in Hlog.
    destruct o as [vals|e|msg].
    + apply IH in H as (delta & outs & Hl & Hle & Hr).
      exists (EvChainCall (chainAddr chain) input (heap st) sub (Ok vals)
                (heap s) :: delta), (vals :: outs).
      split. { rewrite Hl, Hlog, <-app_assoc. done. }
      split; [simpl; lia|].
      destruct r as [results|e|msg]; [| |done].
      * destruct Hr as (-> & Hlen & Hd & Hs). simpl.
        rewrite <-app_assoc. simpl. rewrite Hlen, Hd, Hs. done.
      * destruct Hr as (Hlt & [(Hc & Hd & Hs) | (inp & Hi & Hd & Hs)]).
        -- split; [simpl; lia|]. left. simpl. rewrite Hd, Hs. done.
        -- split; [simpl; lia|]. right. exists inp. simpl.
           rewrite Hd, Hs. done.
    + injection H as <- <-.
      exists [EvChainCall (chainAddr chain) input (heap st) sub (Err e)
                (heap s)], [].
      split; [done|]. split; [simpl; lia|]. split; [simpl; lia|].
      right. exists input. done.
    + injection H as <- <-.
      exists [EvChainCall (chainAddr chain) input (heap st) sub (Panic msg)
                (heap s)], [].
      split; [done|]. split; [simpl; lia|]. done.
Qed.


(** X9: [chain.Apply] stops at the first failure.  A call that returns an
    error has dispatched the unit on a strict prefix of the inputs, in
    order, all of these dispatches but possibly the last having succeeded:
    either the context was found done before the next input, the error is
    the context's, and that input was not dispatched; or the last dispatch
    is the one that failed, with the error returned.  No later input is
    dispatched and no result is returned. *)
Theorem Apply_stops_at_first_error (inputs : list mapref)
    (st st' : state E) (e : error) :
  chain.Apply ctxErr chain inputs st = (Err e, st') →
  ∃ outs,
    (length outs < length inputs)%nat ∧
    ((ctxErr (ext st') = Some e ∧
      length (trace.since st st') = length outs ∧
      trace.dispatches (trace.since st st') = sent inputs outs) ∨
     (∃ input, inputs !! length outs = Some input ∧
        length (trace.since st st') = S (length outs) ∧
        trace.dispatches (trace.since st st')
          = sent inputs outs ++ [(chainAddr chain, input, Err e)])).
Proof.
  intros H. unfold chain.Apply in H.
  apply applyLoop_run in H as (delta & outs & Hl & _ & Hlt & Hr).
  rewrite (since_app _ _ _ Hl). eauto.
Qed.

End ApplyFacts.


(** Three questions, the second refused: the third is never asked. *)
Lemma Apply_stops_at_first_error_witness :
  scenarios.brokenApply = (Err (ErrOther 6), scenarios.brokenApply.2) ∧
  trace.dispatches
    (trace.since scenarios.mixedState scenarios.brokenApply.2)
    = [(6, MapAt 0, Ok (MapAt 3)); (6, MapAt 1, Err (ErrOther 6))] ∧
  ∃ outs,
    (length outs < length scenarios.mixedInputs)%nat ∧
    ((scenarios.neverDone (ext scenarios.brokenApply.2)
        = Some (ErrOther 6) ∧
      length (trace.since scenarios.mixedState scenarios.brokenApply.2)
        = length outs ∧
      trace.dispatches
        (trace.since scenarios.mixedState scenarios.brokenApply.2)
        = zip_with (λ i o, (chainAddr scenarios.picky, i, Ok o))
            scenarios.mixedInputs outs) ∨
     (∃ input,
        scenarios.mixedInputs !! length outs = Some input ∧
        length (trace.since scenarios.mixedState scenarios.brokenApply.2)
          = S (length outs) ∧
        trace.dispatches
          (trace.since scenarios.mixedState scenarios.brokenApply.2)
          = zip_with (λ i o, (chainAddr scenarios.picky, i, Ok o))
              scenarios.mixedInputs outs
            ++ [(chainAddr scenarios.picky, input, Err (ErrOther 6))])).
Proof.
  assert (Hrun : chain.Apply scenarios.neverDone scenarios.picky
                   scenarios.mixedInputs scenarios.mixedState
                 = (Err (ErrOther 6), scenarios.brokenApply.2))
    by (vm_compute; reflexivity).
  split; [exact Hrun|]. split; [vm_compute; reflexivity|].
  exact (Apply_stops_at_first_error _ _ _ _ _ _ Hrun).
Defined.

(* ===================================================================== *)
(** * chain.LLM: the answer of the single-model unit *)
(* ===================================================================== *)
Section LLMFacts.
Context {E : Type}.
Variable TrimSpace : string → string.

Lemma topTexts_ok (generations : list (list model.Generation))
    (st : state E) :
  Forall (λ gen, gen ≠ []) generations →
  ∃ tail,
    chain.topTexts TrimSpace generations st
      = (Ok (match generations with
             | (g :: _) :: _ => TrimSpace (model.Text g) :: tail
             | _ => []
             end), st).
Proof.
  induction generations as [|gen rest IH]; intros Hall.
  - by exists [].
  - apply Forall_cons in Hall as [Hgen Hall].
    destruct gen as [|g gen]; [done|].
    destruct (IH Hall) as [tail Htail].
    simpl. unfold bind. rewrite Htail. eauto.
Qed.

Lemma topTexts_panics (generations : list (list model.Generation))
    (st : state E) :
  Exists (λ gen, gen = []) generations →
  chain.topTexts TrimSpace generations st
    = (Panic "index out of range [0] with length 0", st).
Proof.
  induction generations as [|gen rest IH]; intros Hex.
  - by apply Exists_nil in Hex.
  - destruct gen as [|g gen]; [done|].
    apply Exists_cons in Hex as [?|Hex]; [done|].
    simpl. unfold bind. by rewrite (IH Hex).
Qed.

(** X10: [getFinalOutput] returns the trimmed text of the first generation
    of the first prompt, provided every prompt has at least one
    generation.  It panics (index out of range) when there is no prompt at
    all, and also when any prompt, even a later one whose text would not be
    returned, has no generation. *)
Theorem getFinalOutput_first (c : chain.LLM E)
    (generations : list (list model.Generation)) (st : state E) :
  (∀ g gen rest,
     generations = (g :: gen) :: rest →
     Forall (λ gen', gen' ≠ []) rest →
     chain.getFinalOutput TrimSpace c generations st
       = (Ok (TrimSpace (model.Text g)), st)) ∧
  (generations = [] ∨ Exists (λ gen, gen = []) generations →
   chain.getFinalOutput TrimSpace c generations st
     = (Panic "index out of range [0] with length 0", st)).
Proof.
  split.
  - intros g gen rest -> Hall.
    destruct (topTexts_ok ((g :: gen) :: rest) st) as [tail Htail].
    { by apply Forall_cons. }
    unfold chain.getFinalOutput, bind. by rewrite Htail.
  - intros [-> | Hex]; [done|].
    unfold chain.getFinalOutput, bind. by rewrite topTexts_panics.
Qed.

Lemma getFinalOutput_inv (c : chain.LLM E)
    (generations : list (list model.Generation)) (st st' : state E)
    (r : outcome string) :
  chain.getFinalOutput TrimSpace c generations st = (r, st') →
  st' = st ∧
  ((∃ g gen rest, generations = (g :: gen) :: rest ∧
                  r = Ok (TrimSpace (model.Text g))) ∨
   (∃ msg, r = Panic msg)).
Proof.
  destruct (decide (Forall (λ gen, gen ≠ []) generations)) as [Hall|Hex].
  - destruct (topTexts_ok generations st Hall) as [tail Htail].
    unfold chain.getFinalOutput, bind. rewrite Htail.
    destruct generations as [|[|g gen] rest]; simpl;
      intros [= <- <-]; eauto 10.
  - apply not_Forall_Exists in Hex; [|intros x; apply _].
    unfold chain.getFinalOutput, bind. rewrite topTexts_panics.
    + intros [= <- <-]. eauto.
    + eapply Exists_impl; [exact Hex|]. simpl. intros x Hx.
      by destruct (decide (x = [])); [|destruct Hx].
Qed.

(** X11: [LLM.Call].  The call logs nothing of its own and uses no run
    identifier.  When the prompt cannot be rendered from the inputs, the
    rendering error is returned and the backend is not asked.  Otherwise
    the backend is asked exactly the one rendered prompt, with the stop
    words of the call; its error is returned as it is; and a call that
    returns outputs returns a new mapping whose only entry is the trimmed
    text of the first generation under the output key, the store being
    otherwise unchanged. *)
Theorem LLM_Call_answer (c : chain.LLM E) (inputs : mapref)
    (optFns : list (CallOptions E → CallOptions E))
    (st st' : state E) (r : outcome mapref) :
  chain.LLM_Call TrimSpace c inputs optFns st = (r, st') →
  let l := fresh (dom (heap st)) in
  log st' = log st ∧ runs st' = runs st ∧
  match prompt.Format (chain.prompt c) (deref (heap st) inputs) with
  | inl e => r = Err e ∧ st' = st
  | inr p =>
      ∃ o res,
        model.GeneratePrompt (chain.llm c) [p] o (ext st) = (res, ext st') ∧
        model.Stop o
          = Stop (apply_opts optFns
                    {| CallbackManger := None; Stop := [] |}) ∧
        match res with
        | inl e => r = Err e ∧ heap st' = heap st
        | inr generations =>
            (∀ e, r ≠ Err e) ∧
            ∀ out, r = Ok out →
              ∃ g gen rest,
                generations = (g :: gen) :: rest ∧
                out = MapAt l ∧
                heap st'
                  = <[l := {[ chain.OutputKey (chain.opts c) :=
                                AString (TrimSpace (model.Text g)) ]}]>
                      (heap st)
        end
  end.
Proof.
  intros H l. unfold chain.LLM_Call in H.
  unfold bind at 1 in H. unfold read at 1 in H.
  unfold prompt.FormatPrompt in H.
  destruct (prompt.Format (chain.prompt c) (deref (heap st) inputs))
    as [e|p].
  { injection H as <- <-. done. }
  unfold bind at 1 in H. simpl in H.
  unfold bind at 1 in H. unfold bind at 1 in H. unfold collab at 1 in H.
  match type of H with
  | context [model.GeneratePrompt _ _ ?o _] => set (o' := o) in *
  end.
  destruct (model.GeneratePrompt (chain.llm c) [p] o' (ext st))
    as [res w] eqn:Hgen.
  destruct res as [e|generations]; simpl in H.
  { injection H as <- <-. simpl. split; [done|]. split; [done|].
    exists o', (inl e). done. }
  fwd H. apply getFinalOutput_inv in Hrun as (-> & Hres).
  destruct Hres as [(g & gen & rest & -> & ->) | (msg & ->)].
  - injection H as <- <-. simpl. split; [done|]. split; [done|].
    exists o', (inr ((g :: gen) :: rest)). split; [done|]. split; [done|].
    split; [done|]. intros out [= <-]. eauto 10.
  - injection H as <- <-. simpl. split; [done|]. split; [done|].
    exists o', (inr generations). done.
Qed.

(** [LLM.Call] only adds its output mapping to the store. *)
Lemma LLM_Call_extends (c : chain.LLM E) (inputs : mapref)
    (optFns : list (CallOptions E → CallOptions E))
    (st st' : state E) (r : outcome mapref) :
  chain.LLM_Call TrimSpace c inputs optFns st = (r, st') →
  heap st ⊆ heap st'.
Proof.
  intros H. unfold chain.LLM_Call in H.
  unfold bind at 1 in H. unfold read at 1 in H.
  destruct (prompt.FormatPrompt _ _) as [e|p].
  { by injection H as <- <-. }
  unfold bind at 1 in H. simpl in H.
  unfold bind at 1 in H. unfold bind at 1 in H. unfold collab at 1 in H.
  destruct (model.GeneratePrompt _ _ _ _) as [res w].
  destruct res as [e|generations]; simpl in H.
  { by injection H as <- <-. }
  fwd H. apply getFinalOutput_inv in Hrun as (-> & Hres).
  destruct Hres as [(g & gen & rest & -> & ->) | (msg & ->)].
  - injection H as <- <-. simpl. apply insert_subseteq.
    apply not_elem_of_dom, is_fresh.
  - by injection H as <- <-.
Qed.

End LLMFacts.

(** The answering unit asked about a context: the answer comes back
    trimmed in a new mapping, and nothing is logged. *)
Lemma LLM_Call_answer_witness :
  scenarios.answerRun = (Ok (MapAt 1), scenarios.answerRun.2) ∧
  deref (heap scenarios.answerRun.2) (MapAt 1)
    = {[ "text" := AString "re: Context: c" ]} ∧
  log scenarios.answerRun.2 = log scenarios.contextState ∧
  runs scenarios.answerRun.2 = runs scenarios.contextState.
Proof.
  assert (Hrun : chain.LLM_Call strings.TrimSpaceASCII examples.answerUnit
                   (MapAt 0) [] scenarios.contextState
                 = (Ok (MapAt 1), scenarios.answerRun.2))
    by (vm_compute; reflexivity).
  split; [exact Hrun|]. split; [vm_compute; reflexivity|].
  pose proof (LLM_Call_answer _ _ _ _ _ _ _ Hrun) as (Hl & Hr & _).
  split; [exact Hl | exact Hr].
Defined.

(* ===================================================================== *)
(** * StuffDocuments and RefineDocuments: the caller's store *)
(* ===================================================================== *)
Section DispatchFacts.
Context {E : Type}.
Import protocol.

(** The dispatch recorded by a run of [golc.Call] is a run of the unit's
    own [Call] from the recorded store to the recorded store, under the
    manager of the run and with the stop words of the call. *)
Lemma Call_dispatch (chain : Chain E) (inputs : mapref)
    (optFns : list (golc.CallOptions E → golc.CallOptions E))
    (st st' : state E) (r : outcome mapref)
    (a : nat) (i : mapref) (pre : heapT) (sub : list event)
    (ret : outcome mapref) (post : heapT) :
  golc.Call chain inputs optFns st = (r, st') →
  In (EvChainCall a i pre sub ret post) (trace.since st st') →
  let opts := apply_opts optFns defaultCallOptions in
  let rm := {| rmRunID := runs st;
               rmCallbacks := golc.Callbacks opts ++ chainCallbacks chain;
               rmInheritable := golc.Callbacks opts |} in
  ∃ w1 w2 n2,
    chainCall chain inputs
      [λ _, {| CallbackManger := Some rm; Stop := golc.Stop opts |}]
      (mkState pre w1 (S (runs st)) [])
      = (ret, mkState post w2 n2 sub).
Proof.
  intros H Hin opts rm.
  pose proof H as H0.
  apply Call_trace in H0 as (delta & Hlog & Htr).
  rewrite (since_app _ _ _ Hlog) in Hin.
  destruct (CallTrace_chain_call _ _ _ _ _ _ _ _ _ _ _ _ _ _ Htr Hin)
    as (vars & loads & tail & -> & -> & Hloaded & Hfin & ->).
  clear Hin Htr.
  destruct (Loaded_no_chain_call _ _ _ _ _ _ Hloaded) as (Hl & _ & _).
  pose proof (Finished_no_chain_call _ _ _ _ _ _ _ _ _ Hfin) as Ht.
  unfold golc.Call in H. fold (defaultCallOptions (E := E)) in H.
  fold opts in H, Hfin.
  fwd H.
  apply OnChainStart_inv in Hrun as (Hh & Hr & res & _ & Hl0 & Hres).
  destruct res as [e|]; subst o.
  { injection H as <- <-. rewrite Hl0 in Hlog.
    apply app_inv_head in Hlog. done. }
  fwd H.
  apply load_stage in Hrun as [Hr1 [(vars' & loads' & -> & Hl1 & Hloaded') |
    (vars' & lres & msg & -> & Hh1 & Hmem & -> & Hne & Hl1)]].
  2: { injection H as <- <-. rewrite Hl1, Hl0, <-app_assoc in Hlog.
       apply app_inv_head in Hlog. simpl in Hlog.
       injection Hlog as Hlog.
       apply (f_equal (List.filter trace.isChainCall)) in Hlog.
       rewrite List.filter_app, Hl in Hlog. done. }
  fwd H. unfold attempt in Hrun.
  destruct (invoke _ _ _ _) as [ret0 st2] eqn:Hinv.
  apply invoke_inv in Hinv as (sub' & Hcall & Hl2).
  unfold callback.observers, callback.NewManager in *. simpl in *.
  fold rm in H, Hcall.
  assert (∃ tail', log st' = log st2 ++ tail' ∧
            Finished chain inputs opts (rmRunID rm) (heap st2) ret0 r tail'
              (heap st')) as (tail' & Hl3 & Hfin').
  { destruct ret0 as [out|e|msg]; injection Hrun as <- <-.
    - by apply (finish_stage chain inputs opts rm (Ok out)) in H.
    - by apply (finish_stage chain inputs opts rm (Err e)) in H.
    - by apply (finish_stage chain inputs opts rm (Panic msg)). }
  rewrite Hl3, Hl2, Hl1, Hl0, <-!app_assoc in Hlog.
  apply app_inv_head in Hlog. simpl in Hlog. injection Hlog as Hlog.
  apply (f_equal (List.filter trace.isChainCall)) in Hlog.
  rewrite !List.filter_app in Hlog. simpl in Hlog.
  rewrite Hl, Ht in Hlog.
  rewrite Hh in Hloaded'.
  destruct (Loaded_no_chain_call _ _ _ _ _ _ Hloaded') as (Hl' & _ & _).
  rewrite Hl', (Finished_no_chain_call _ _ _ _ _ _ _ _ _ Hfin') in Hlog.
  injection Hlog as <- <- <- <-.
  rewrite Hr1, Hr in Hcall. eauto 10.
Qed.

(** [golc.Call] around a store-preserving unit: every map object of a
    base store [h0] that is not the mapping the unit is called on stays as
    it was; so does that mapping when the unit has no Memory. *)
Lemma Call_frame (chain : Chain E) (inputs : mapref)
    (optFns : list (golc.CallOptions E → golc.CallOptions E))
    (st st' : state E) (r : outcome mapref) (h0 : heapT) :
  storePreserving chain →
  golc.IncludeRunInfo (apply_opts optFns defaultCallOptions) = false →
  golc.Call chain inputs optFns st = (r, st') →
  h0 ⊆ heap st →
  (chainMemory chain ≠ None → ∀ l, inputs = MapAt l → h0 !! l = None) →
  h0 ⊆ heap st'.
Proof.
  intros Hpres Hinfo H Hbase Hfresh.
  pose proof H as H0.
  apply Call_trace in H0 as (delta & Hlog & Htr).
  inversion Htr as [e0 | vars lres msg | vars loads pre sub ret post r'
                                           tail h' Hloaded Hfin]; subst.
  - by replace (heap st') with (heap st) by congruence.
  - by replace (heap st') with (heap st) by congruence.
  - assert (In (EvChainCall (chainAddr chain) inputs pre sub ret post)
              (trace.since st st')) as Hin.
    { rewrite (since_app _ _ _ Hlog). right. apply in_or_app. right.
      by left. }
    destruct (Call_dispatch _ _ _ _ _ _ _ _ _ _ _ _ H Hin)
      as (w1 & w2 & n2 & Hcall).
    apply Hpres in Hcall. simpl in Hcall.
    assert (heap st' = post) as ->
      by (inversion Hfin; subst; congruence).
    etrans; [|exact Hcall].
    unfold Loaded in Hloaded.
    destruct (chainMemory chain) eqn:Hmem.
    + destruct Hloaded as [_ [[_ ->] | (l & -> & _ & ->)]]; [done|].
      apply map_subseteq_spec. intros l' v Hl'.
      destruct (decide (l' = l)) as [->|Hne].
      * rewrite Hfresh in Hl'; done.
      * rewrite lookup_insert_ne by done.
        by eapply lookup_weaken.
    + by destruct Hloaded as (_ & _ & ->).
Qed.

End DispatchFacts.

Section StuffFrame.
Context {E : Type}.
Variable TrimSpace : string → string.
Import protocol.

Lemma fresh_outside (h0 h : heapT) :
  h0 ⊆ h → h0 !! fresh (dom h) = None.
Proof.
  intros Hsub. apply not_elem_of_dom. intros Hin.
  apply (is_fresh (dom h)). by eapply subseteq_dom.
Qed.

Lemma insert_outside (h0 h : heapT) (l : loc) (m : gmap string any) :
  h0 ⊆ h → h0 !! l = None → h0 ⊆ <[l := m]> h.
Proof. intros Hsub Hl. by apply insert_subseteq_r. Qed.

Lemma LLM_storePreserving (u : chain.LLM E) :
  storePreserving (chain.LLM_Chain TrimSpace u).
Proof.
  intros inputs fns st st' r H. simpl in H.
  by eapply LLM_Call_extends.
Qed.

(** [golc.SimpleCall] around a store-preserving unit keeps every map
    object of the store it starts from. *)
Lemma SimpleCall_frame (chain : Chain E) (input : any)
    (st st' : state E) (r : outcome string) (h0 : heapT) :
  storePreserving chain →
  golc.SimpleCall chain input [] st = (r, st') →
  h0 ⊆ heap st → h0 ⊆ heap st'.
Proof.
  intros Hpres H Hbase. unfold golc.SimpleCall in H.
  destruct (Nat.eqb (length (chainInputKeys chain)) 1); simpl in H;
    [|by injection H as <- <-].
  destruct (Nat.eqb (length (chainOutputKeys chain)) 1); simpl in H;
    [|by injection H as <- <-].
  fwd H. apply index0_inv in Hrun as [-> Hk].
  destruct o as [ikey| |]; [|(by injection H as <- <-)..].
  unfold bind at 1 in H. simpl in H.
  fwd H.
  eapply (Call_frame _ _ _ _ _ _ h0) in Hrun; try done.
  2: { simpl. apply insert_outside; [done|]. by apply fresh_outside. }
  2: { intros _ l [= <-]. by apply fresh_outside. }
  destruct o as [out| |]; [|(by injection H as <- <-)..].
  fwd H. apply index0_inv in Hrun0 as [-> Hk'].
  destruct o as [okey| |]; [|(by injection H as <- <-)..].
  unfold bind, read in H. simpl in H.
  by destruct (deref (heap s) out !! okey) as [[]|]; injection H as <- <-.
Qed.

(** X12: [StuffDocuments.Call] leaves the caller's store alone.  Whatever
    the outcome, every map object that existed when the call started, the
    caller's input mapping included, has the contents it had: the joined
    text is written into a copy, and the inner unit works on that copy. *)
Theorem StuffDocuments_Call_preserves_store (c : chain.StuffDocuments E)
    (values : mapref) (optFns : list (CallOptions E → CallOptions E))
    (st st' : state E) (r : outcome mapref) :
  chain.StuffDocuments_Call TrimSpace c values optFns st = (r, st') →
  ∀ l m, heap st !! l = Some m → heap st' !! l = Some m.
Proof.
  intros H. apply map_subseteq_spec.
  destruct (deref (heap st) values !! chain.sdInputKey (chain.sdOpts c))
    as [v|] eqn:Hv.
  2: { unfold chain.StuffDocuments_Call, bind, read in H. simpl in H.
       rewrite Hv in H. by injection H as <- <-. }
  destruct v as [|s|docs|r0|id|tag];
    try (unfold chain.StuffDocuments_Call, bind, read in H; simpl in H;
         rewrite Hv in H; by injection H as <- <-).
  rewrite (StuffDocuments_Call_delegates TrimSpace c values optFns st docs
             Hv) in H.
  eapply (Call_frame _ _ _ _ _ _ (heap st)) in H; try done.
  - apply LLM_storePreserving.
  - simpl. apply insert_outside; [done|]. by apply fresh_outside.
  - intros _ l [= <-]. by apply fresh_outside.
Qed.

End StuffFrame.

Lemma StuffDocuments_Call_preserves_store_witness :
  heap examples.docsState !! 0
    = Some {[ "inputDocuments" := ADocs examples.docsAB ]} ∧
  examples.stuffRun.1 = Ok (MapAt 2) ∧
  heap examples.stuffRun.2 !! 0
    = Some {[ "inputDocuments" := ADocs examples.docsAB ]}.
Proof.
  assert (H0 : heap examples.docsState !! 0
               = Some {[ "inputDocuments" := ADocs examples.docsAB ]})
    by (vm_compute; reflexivity).
  split; [exact H0|]. split; [vm_compute; reflexivity|].
  exact (StuffDocuments_Call_preserves_store strings.TrimSpaceASCII
           examples.stuffUnit (MapAt 0) [] examples.docsState
           examples.stuffRun.2 examples.stuffRun.1
           (surjective_pairing examples.stuffRun) 0 _ H0).
Defined.

Section RefineFrame.
Context {E : Type}.
Variable TrimSpace : string → string.
Import protocol.

Lemma constructInitialInputs_frame (c : chain.RefineDocuments E)
    (doc : Document) (rest : mapref) (st st' : state E)
    (r : outcome mapref) (h0 : heapT) :
  chain.constructInitialInputs c doc rest st = (r, st') →
  h0 ⊆ heap st → h0 ⊆ heap st'.
Proof.
  intros H Hsub.
  pose proof (fresh_outside _ _ Hsub) as Hl.
  revert H.
  unfold chain.constructInitialInputs, chain.formatDocument, util.CopyMap.
  unfold bind, read, alloc, chain.lift. simpl.
  destruct (chain.DocumentPrompt (chain.rdOpts c)) as [p|].
  2: { intros [= <- <-]. simpl. by apply insert_outside. }
  destruct (prompt.Format p (chain.docInfo doc)) as [e|rendering];
    simpl; intros [= <- <-]; simpl; repeat apply insert_outside; done.
Qed.

Lemma constructRefineInputs_frame (c : chain.RefineDocuments E)
    (doc : Document) (last : string) (rest : mapref) (st st' : state E)
    (r : outcome mapref) (h0 : heapT) :
  chain.constructRefineInputs c doc last rest st = (r, st') →
  h0 ⊆ heap st → h0 ⊆ heap st'.
Proof.
  intros H Hsub.
  pose proof (fresh_outside _ _ Hsub) as Hl.
  revert H.
  unfold chain.constructRefineInputs, chain.formatDocument, util.CopyMap.
  unfold bind, read, alloc, chain.lift. simpl.
  destruct (chain.DocumentPrompt (chain.rdOpts c)) as [p|].
  2: { intros [= <- <-]. simpl. by apply insert_outside. }
  destruct (prompt.Format p (chain.docInfo doc)) as [e|rendering];
    simpl; intros [= <- <-]; simpl; repeat apply insert_outside; done.
Qed.

Lemma refineLoop_frame (c : chain.RefineDocuments E) (rest : mapref)
    (docs : list Document) (res : string) (st st' : state E)
    (r : outcome string) (h0 : heapT) :
  chain.refineLoop TrimSpace c rest docs res st = (r, st') →
  h0 ⊆ heap st → h0 ⊆ heap st'.
Proof.
  revert res st. induction docs as [|doc docs IH]; intros res st H Hsub.
  - by injection H as <- <-.
  - simpl in H. fwd H.
    eapply constructRefineInputs_frame in Hrun; [|done].
    destruct o as [refineInputs| |]; [|(by injection H as <- <-)..].
    fwd H.
    eapply SimpleCall_frame in Hrun0; [|apply LLM_storePreserving|done].
    destruct o as [res'| |]; [|(by injection H as <- <-)..].
    by eapply IH.
Qed.

(** X13: [RefineDocuments.Call] leaves the caller's store alone.
    Whatever the outcome and however many documents were processed, every
    map object that existed when the call started, the caller's input
    mapping included, has the contents it had: every mapping handed to an
    inner unit is built in a fresh copy. *)
Theorem RefineDocuments_Call_preserves_store (c : chain.RefineDocuments E)
    (values : mapref) (optFns : list (CallOptions E → CallOptions E))
    (st st' : state E) (r : outcome mapref) :
  chain.RefineDocuments_Call TrimSpace c values optFns st = (r, st') →
  ∀ l m, heap st !! l = Some m → heap st' !! l = Some m.
Proof.
  intros H. apply map_subseteq_spec.
  unfold chain.RefineDocuments_Call in H.
  unfold bind at 1 in H. unfold read at 1 in H.
  destruct (deref (heap st) values !! chain.rdInputKey (chain.rdOpts c))
    as [v|]; [|by injection H as <- <-].
  destruct v as [|s|docs|r0|id|tag]; try (by injection H as <- <-).
  destruct docs as [|doc0 docs]; [by injection H as <- <-|].
  unfold bind at 1 in H. unfold util.OmitByKeys, bind at 1 in H.
  simpl in H.
  set (l := fresh (dom (heap st))) in *.
  match type of H with
  | context [<[l := ?m]> (heap st)] =>
      assert (Hsub : heap st ⊆ <[l := m]> (heap st))
        by (apply insert_outside; [done | by apply fresh_outside])
  end.
  fwd H.
  eapply constructInitialInputs_frame in Hrun; [|exact Hsub].
  destruct o as [initialInputs| |]; [|(by injection H as <- <-)..].
  fwd H.
  eapply SimpleCall_frame in Hrun0; [|apply LLM_storePreserving|exact Hrun].
  destruct o as [res| |]; [|(by injection H as <- <-)..].
  fwd H.
  eapply refineLoop_frame in Hrun1; [|exact Hrun0].
  destruct o as [res'| |]; [|(by injection H as <- <-)..].
  injection H as <- <-. simpl.
  apply insert_outside; [done|]. by apply fresh_outside.
Qed.

End RefineFrame.

Lemma RefineDocuments_Call_preserves_store_witness :
  heap examples.refineState !! 0
    = Some {[ "inputDocuments" := ADocs examples.docsABC ]} ∧
  examples.refineRun.1 = Ok (MapAt 11) ∧
  heap examples.refineRun.2 !! 0
    = Some {[ "inputDocuments" := ADocs examples.docsABC ]}.
Proof.
  assert (H0 : heap examples.refineState !! 0
               = Some {[ "inputDocuments" := ADocs examples.docsABC ]})
    by (vm_compute; reflexivity).
  split; [exact H0|]. split; [vm_compute; reflexivity|].
  exact (RefineDocuments_Call_preserves_store strings.TrimSpaceASCII
           examples.refineUnit (MapAt 0) [] examples.refineState
           examples.refineRun.2 examples.refineRun.1
           (surjective_pairing examples.refineRun) 0 _ H0).
Defined.

(* ===================================================================== *)
(** * NewRefineDocuments: the document prompt *)
(* ===================================================================== *)
Section Constructors.
Context {E : Type}.
Variable NewTemplate : string → error + prompt.Template.


End Constructors.

(* ===================================================================== *)
(** * ConversationalRetrieval.Call *)
(* ===================================================================== *)

Section RetrievalKeys.
Context {E : Type}.
Variable TrimSpace : string → string.
Import protocol.

(** X15: the mapping returned by [ConversationalRetrieval.Call] holds
    exactly the keys that [OutputKeys] declares: the output key, and
    ["sourceDocuments"] and ["generatedQuestion"] when and only when the
    corresponding option is set. *)
Theorem ConversationalRetrieval_Call_keys
    (c : rag.ConversationalRetrieval E) (inputs : mapref)
    (optFns : list (CallOptions E → CallOptions E))
    (st st' : state E) (out : mapref) :
  rag.Call TrimSpace c inputs optFns st = (Ok out, st') →
  dom (deref (heap st') out) = list_to_set (C := gset string) (rag.OutputKeys c).
Proof.
  intros H. unfold rag.Call in H.
  fwd H. destruct o as [generatedQuestion| |]; [|done..].
  fwd H. destruct o as [ikey| |]; [|done..].
  fwd H. destruct o as [question| |]; [|done..].
  fwd H. destruct o as [fn| |]; [|done..].
  fwd H. destruct o as [retrievalOutput| |]; [|done..].
  fwd H. destruct o as [okey| |]; [|done..].
  fwd H. destruct o as [answer| |]; [|done..].
  clear -H. revert H.
  unfold rag.OutputKeys, bind, alloc, read, store, ret. simpl.
  destruct (rag.ReturnSourceDocuments (rag.opts c));
    destruct (rag.ReturnGeneratedQuestion (rag.opts c)); simpl;
    intros [= <- <-]; simpl; rewrite ?lookup_insert_eq; simpl;
    rewrite ?dom_insert_L, ?dom_singleton_L;
    apply set_eq; intros x;
    rewrite ?elem_of_union, ?elem_of_singleton, ?elem_of_empty; tauto.
Qed.

End RetrievalKeys.

Section RetrievalFirstTurn.
Context {E : Type}.
Variable TrimSpace : string → string.
Import protocol.

(** What follows the retrieval stage only builds the result mapping. *)
Lemma Call_returns_log (c : rag.ConversationalRetrieval E)
    (retrievalOutput : mapref) (generatedQuestion : string)
    (st st' : state E) (r : outcome mapref) :
  (okey <- index0 (chainOutputKeys (rag.retrievalQAChain c)) ;;
   answer <- rag.GetString retrievalOutput okey ;;
   returns <- alloc {[ rag.OutputKey (rag.opts c) := AString answer ]} ;;
   (if rag.ReturnSourceDocuments (rag.opts c)
    then
      ro <- read retrievalOutput ;;
      store returns "sourceDocuments" (index ro "sourceDocuments")
    else ret tt) ;;
   (if rag.ReturnGeneratedQuestion (rag.opts c)
    then store returns "generatedQuestion" (AString generatedQuestion)
    else ret tt) ;;
   ret returns) st = (r, st') →
  log st' = log st.
Proof.
  intros H.
  fwd H. apply index0_inv in Hrun as [-> _].
  destruct o as [okey| |]; [|(by injection H as <- <-)..].
  fwd H. apply GetString_state in Hrun as ->.
  destruct o as [answer| |]; [|(by injection H as <- <-)..].
  revert H. unfold bind, alloc, read, store, ret. simpl.
  destruct (rag.ReturnSourceDocuments (rag.opts c));
    destruct (rag.ReturnGeneratedQuestion (rag.opts c)); simpl;
    by intros [= <- <-].
Qed.

(** X16: the first turn of a conversation.  When the history is the empty
    text and the question is a text [q], [ConversationalRetrieval.Call]
    goes straight to the retrieval unit: the first interaction is the start
    notification of that unit's run, on a new mapping whose only entry is
    [q], unchanged, under the unit's first input key, and every dispatch
    of the call is a dispatch of the retrieval unit on that mapping. *)
Theorem ConversationalRetrieval_Call_first_turn
    (c : rag.ConversationalRetrieval E) (inputs : mapref)
    (optFns : list (CallOptions E → CallOptions E))
    (st st' : state E) (r : outcome mapref)
    (q ikey : string) (ikeys : list string) (rm : RunManager E) :
  deref (heap st) inputs !! "history" = Some (AString EmptyString) →
  deref (heap st) inputs !! rag.InputKey (rag.opts c) = Some (AString q) →
  chainInputKeys (rag.retrievalQAChain c) = ikey :: ikeys →
  CallbackManger
    (apply_opts optFns
       {| CallbackManger := Some rag.NoopManager; Stop := [] |}) = Some rm →
  rag.Call TrimSpace c inputs optFns st = (r, st') →
  let l := fresh (dom (heap st)) in
  (∃ res rest,
     trace.since st st'
       = EvOnChainStart (runs st) (chainType (rag.retrievalQAChain c))
           {[ ikey := AString q ]} res :: rest) ∧
  (∀ a i pre sub ret post,
     In (EvChainCall a i pre sub ret post) (trace.since st st') →
     a = chainAddr (rag.retrievalQAChain c) ∧ i = MapAt l ∧
     ∃ vars, deref pre (MapAt l) = vars ∪ {[ ikey := AString q ]} ∧
             (chainMemory (rag.retrievalQAChain c) = None → vars = ∅)).
Proof.
  intros Hhist Hq Hkeys Hrm H l.
  unfold rag.Call in H.
  assert (Hgen : rag.generateQuestion TrimSpace c inputs
                   (apply_opts optFns
                      {| CallbackManger := Some rag.NoopManager;
                         Stop := [] |}) st = (Ok q, st)).
  { unfold rag.generateQuestion, bind, read. simpl.
    unfold index. rewrite Hhist. simpl.
    unfold rag.GetString, bind, read. simpl. by rewrite Hq. }
  unfold bind at 1 in H. rewrite Hgen in H.
  rewrite Hkeys in H.
  unfold bind at 1 in H. simpl in H.
  unfold bind at 1 in H. simpl in H. fold l in H.
  unfold bind at 1 in H. unfold rag.inherit at 1 in H. rewrite Hrm in H.
  unfold ret at 1 in H.
  fwd H.
  apply Call_trace in Hrun as (delta & Hlog & Htr).
  cbn [heap runs log ext] in Hlog, Htr.
  assert (Hd : deref (<[l := {[ikey := AString q]}]> (heap st)) (MapAt l)
               = {[ ikey := AString q ]}).
  { simpl. by rewrite lookup_insert_eq. }
  assert (log st' = log s) as Hsame.
  { destruct o as [retrievalOutput| |]; [|(by injection H as <- <-)..].
    by apply Call_returns_log in H. }
  rewrite (since_app st st' delta) by (by rewrite Hsame).
  split.
  - inversion Htr; subst; rewrite Hd; eauto.
  - intros a i pre sub ret post Hin.
    destruct (CallTrace_chain_call _ _ _ _ _ _ _ _ _ _ _ _ _ _ Htr Hin)
      as (vars & loads & tail & -> & -> & Hloaded & _ & _).
    split; [done|]. split; [done|].
    unfold Loaded in Hloaded.
    destruct (chainMemory (rag.retrievalQAChain c)).
    + destruct Hloaded as [_ Hmerged].
      apply merged_deref in Hmerged as [Hd' _]. rewrite Hd in Hd'.
      exists vars. done.
    + destruct Hloaded as (-> & _ & ->).
      exists ∅. rewrite Hd. by rewrite (left_id_L ∅ (∪)).
Qed.

End RetrievalFirstTurn.

Lemma ConversationalRetrieval_Call_keys_witness :
  scenarios.firstTurnCall = (Ok (MapAt 3), scenarios.firstTurnCall.2) ∧
  deref (heap scenarios.firstTurnCall.2) (MapAt 3)
    = {[ "answer" := AString "q"; "generatedQuestion" := AString "q" ]} ∧
  dom (deref (heap scenarios.firstTurnCall.2) (MapAt 3))
    = list_to_set (C := gset string) (rag.OutputKeys scenarios.talkative).
Proof.
  assert (Hrun : rag.Call strings.TrimSpaceASCII scenarios.talkative
                   (MapAt 0) [] examples.firstTurnState
                 = (Ok (MapAt 3), scenarios.firstTurnCall.2))
    by (vm_compute; reflexivity).
  split; [exact Hrun|]. split; [vm_compute; reflexivity|].
  exact (ConversationalRetrieval_Call_keys _ _ _ _ _ _ _ Hrun).
Defined.

Lemma ConversationalRetrieval_Call_first_turn_witness :
  deref (heap examples.firstTurnState) (MapAt 0) !! "history"
    = Some (AString EmptyString) ∧
  deref (heap examples.firstTurnState) (MapAt 0) !! "question"
    = Some (AString "q") ∧
  ∃ res rest,
    trace.since examples.firstTurnState scenarios.firstTurnCall.2
      = EvOnChainStart 0 "Echo" {[ "question" := AString "q" ]} res :: rest.
Proof.
  assert (Hh : deref (heap examples.firstTurnState) (MapAt 0) !! "history"
               = Some (AString EmptyString)) by (vm_compute; reflexivity).
  assert (Hq : deref (heap examples.firstTurnState) (MapAt 0)
                 !! rag.InputKey (rag.opts scenarios.talkative)
               = Some (AString "q")) by (vm_compute; reflexivity).
  split; [exact Hh|]. split; [exact Hq|].
  exact (proj1 (ConversationalRetrieval_Call_first_turn
                  strings.TrimSpaceASCII scenarios.talkative (MapAt 0) []
                  examples.firstTurnState scenarios.firstTurnCall.2
                  scenarios.firstTurnCall.1 "q" "question" []
                  rag.NoopManager Hh Hq eq_refl eq_refl
                  (surjective_pairing scenarios.firstTurnCall))).
Defined.

(* ===================================================================== *)
(** * Cohere.Generate *)
(* ===================================================================== *)

Section CohereGenerate.
Context {E : Type}.
Variable retryDefaults : retry.Config.
Variable l : llm.Cohere E llm.GenerateOptions llm.GenerateResponse.

(** The retry loop leaves the store alone. *)
Lemma loop_heap (req : llm.GenerateOptions) (budget n : nat)
    (s : option llm.GenerateResponse) (last : option error)
    (st st' : state E)
    (r : outcome (option llm.GenerateResponse * option error)) :
  retry.loop (apply_opts (llm.retryOpts l) retryDefaults)
    (llm.generateOnce l req) budget n s last st = (r, st') →
  heap st' = heap st.
Proof.
  revert n s last st. induction budget as [|b IH]; intros n s last st.
  - by intros [= <- <-].
  - simpl. unfold bind at 1.
    unfold llm.generateOnce at 1. unfold bind at 1. unfold collab at 1.
    destruct (llm.Generate (llm.client l) req (ext st)) as [[cErr|r'] w1];
      simpl.
    + destruct (llm.retryable cErr).
      * destruct b as [|b']; [by intros [= <- <-]|].
        unfold bind at 1. unfold emit at 1.
        intros H. by apply IH in H.
      * by intros [= <- <-].
    + by intros [= <- <-].
Qed.

(** The response kept by the retry loop is the one the backend gave to the
    last request, which ended the loop. *)
Lemma loop_response (req : llm.GenerateOptions) (budget n : nat)
    (s : option llm.GenerateResponse) (last : option error)
    (st st' : state E) (res : option llm.GenerateResponse)
    (err : option error) :
  retry.loop (apply_opts (llm.retryOpts l) retryDefaults)
    (llm.generateOnce l req) budget n s last st = (Ok (res, err), st') →
  (res = s ∧ err = last ∧ st' = st) ∨
  (∃ e, err = Some e) ∨
  (err = None ∧
   ∃ resp w, res = Some resp ∧
     llm.Generate (llm.client l) req w = (inr resp, ext st')).
Proof.
  revert n s last st. induction budget as [|b IH]; intros n s last st.
  - intros [= <- <- <-]. by left.
  - simpl. unfold bind at 1.
    unfold llm.generateOnce at 1. unfold bind at 1. unfold collab at 1.
    destruct (llm.Generate (llm.client l) req (ext st)) as [[cErr|r'] w1]
      eqn:Hg; simpl.
    + destruct (llm.retryable cErr).
      * destruct b as [|b'].
        -- intros [= <- <- <-]. right. left. eauto.
        -- unfold bind at 1. unfold emit at 1.
           intros H. apply IH in H as [(-> & -> & ->) | H]; [|by right].
           right. left. eauto.
      * intros [= <- <- <-]. right. left. eauto.
    + intros [= <- <- <-]. right. right. split; [done|].
      exists r', (ext st). done.
Qed.

(** X17: [Cohere.Generate].  The call does not touch the store and makes
    at most [MaxRetries] requests to the backend.  When it returns an
    error, that is the error of its last request.  When it returns a
    result, the result holds exactly one generation, the text of the first
    generation of the response to a request that carried the prompt, the
    stop words of the call and the model settings, together with the
    likelihoods of that generation; further generations of the response
    are dropped. *)
Theorem Cohere_Generate_first_generation (prompt : string)
    (optFns : list (model.GenerateOptions E → model.GenerateOptions E))
    (st st' : state E) (r : outcome model.ModelResult) :
  llm.Cohere_Generate retryDefaults l prompt optFns st = (r, st') →
  let req :=
    {| llm.reqModel := llm.Model (llm.opts l);
       llm.reqNumGenerations := llm.NumGenerations (llm.opts l);
       llm.reqMaxTokens := llm.MaxTokens (llm.opts l);
       llm.reqK := llm.K (llm.opts l);
       llm.reqReturnLikelihoods := llm.ReturnLikelihoods (llm.opts l);
       llm.Prompt := prompt;
       llm.StopSequences :=
         model.goStop
           (apply_opts optFns
              {| model.goCallbackManger := Some rag.NoopManager;
                 model.goStop := [] |}) |} in
  let results := trace.attemptResults (trace.since st st') in
  heap st' = heap st ∧
  (length results ≤ llm.MaxRetries (llm.opts l))%nat ∧
  (∀ e, r = Err e → List.last results None = Some e) ∧
  (∀ result, r = Ok result →
     ∃ resp g rest w,
       llm.Generate (llm.client l) req w = (inr resp, ext st') ∧
       llm.Generations resp = g :: rest ∧
       result =
         {| model.Generations := [{| model.Text := llm.Text g |}];
            model.LLMOutput :=
              <[ "Likelihood" := llm.Likelihood g ]>
                {[ "TokenLikelihoods" := llm.TokenLikelihoods g ]} |}).
Proof.
  intros H req results. unfold llm.Cohere_Generate in H. fold req in H.
  fwd H. subst results.
  pose proof Hrun as Hpol.
  unfold llm.generateWithRetry, retry.Do in Hpol.
  apply loop_policy in Hpol as (delta & res & err & Hl & -> & Hpol).
  assert (heap s = heap st) as Hh.
  { unfold llm.generateWithRetry, retry.Do in Hrun.
    by apply loop_heap in Hrun. }
  assert (log st' = log s ∧ heap st' = heap s ∧ ext st' = ext s)
    as (Hl' & Hh' & He').
  { simpl in H. destruct err; [by injection H as <- <-|].
    destruct res as [resp|]; [|by injection H as <- <-].
    by destruct (llm.Generations resp); injection H as <- <-. }
  rewrite (since_app st st' delta) by (by rewrite Hl').
  destruct Hpol as (Hle & _ & _ & _ & Herr & _).
  split; [congruence|]. split; [done|]. simpl in H.
  split.
  - intros e ->. destruct err as [e'|].
    + injection H as <- _. done.
    + destruct res as [resp|]; [|done].
      by destruct (llm.Generations resp).
  - intros result ->. destruct err as [e'|]; [done|].
    destruct res as [resp|]; [|done].
    unfold llm.generateWithRetry, retry.Do in Hrun.
    apply loop_response in Hrun as [(? & _) | [(e & ?) | (_ & resp' & w & Hres & Hg)]];
      try done.
    injection Hres as <-.
    destruct (llm.Generations resp) as [|g rest] eqn:Hgens; [done|].
    injection H as <- _. rewrite He'. eauto 10.
Qed.

End CohereGenerate.

(** A server fault, then two generations: two requests, and the first
    generation comes back alone. *)
Lemma Cohere_Generate_first_generation_witness :
  scenarios.songRun.1
    = Ok {| model.Generations := [{| model.Text := "la" |}];
            model.LLMOutput :=
              {[ "Likelihood" := AOther 1;
                 "TokenLikelihoods" := AOther 2 ]} |} ∧
  trace.attemptResults (trace.since examples.st0 scenarios.songRun.2)
    = [Some (APIError 500 "server fault"); None] ∧
  heap scenarios.songRun.2 = heap examples.st0 ∧
  (length (trace.attemptResults
             (trace.since examples.st0 scenarios.songRun.2)) ≤ 3)%nat.
Proof.
  split; [vm_compute; reflexivity|]. split; [vm_compute; reflexivity|].
  pose proof (Cohere_Generate_first_generation examples.retryDefaults
                (llm.NewCohereFromClient scenarios.songClient []) "sing" []
                examples.st0 scenarios.songRun.2 scenarios.songRun.1
                (surjective_pairing scenarios.songRun)) as (Hh & Hle & _).
  split; [exact Hh | exact Hle].
Defined.

(* ===================================================================== *)
(** * Ollama.Generate *)
(* ===================================================================== *)

Section OllamaGenerate.
Context {E : Type}.
Context {ChatMessageType : Type} `{EqDecision ChatMessageType}.
Variables tSystem tAI tHuman : ChatMessageType.
Variable unknownMessageType : ChatMessageType → error.
Variable newChatGeneraton : string → model.Generation.

Local Abbreviation handled := (chatmodel.handled tSystem tAI tHuman).
Local Abbreviation standsFor := (chatmodel.standsFor tSystem tAI tHuman).
Local Abbreviation convert :=
  (chatmodel.ollamaMessages tSystem tAI tHuman unknownMessageType).
Local Abbreviation Generate :=
  (chatmodel.Generate (E := E) tSystem tAI tHuman unknownMessageType
     newChatGeneraton).

Lemma role_handled (t : ChatMessageType) :
  match chatmodel.role tSystem tAI tHuman t with
  | Some r =>
      (t = tSystem ∧ r = "system") ∨ (t = tAI ∧ r = "assistant")
      ∨ (t = tHuman ∧ r = "user")
  | None => ¬ handled t
  end.
Proof.
  unfold chatmodel.role, chatmodel.handled.
  destruct (decide (t = tSystem)) as [->|Hs]; [by left|].
  destruct (decide (t = tAI)) as [->|Ha]; [by right; left|].
  destruct (decide (t = tHuman)) as [->|Hh]; [by right; right|].
  by intros [?|[?|?]].
Qed.

Lemma ollamaMessages_handled (messages : list (chatmodel.ChatMessage ChatMessageType)) :
  Forall (λ m, handled (chatmodel.msgType m)) messages →
  ∃ converted,
    convert messages = inr converted ∧ Forall2 standsFor messages converted.
Proof.
  induction messages as [|m rest IH]; intros Hall.
  - exists []. split; [done|]. constructor.
  - apply Forall_cons in Hall as [Hm Hall].
    destruct (IH Hall) as (converted & Hc & Hf).
    pose proof (role_handled (chatmodel.msgType m)) as Hr.
    simpl. destruct (chatmodel.role _ _ _ _) as [r|]; [|done].
    rewrite Hc. eexists. split; [done|].
    constructor; [|done]. split; [done|]. exact Hr.
Qed.

Lemma ollamaMessages_unhandled
    (known rest : list (chatmodel.ChatMessage ChatMessageType))
    (m : chatmodel.ChatMessage ChatMessageType) :
  Forall (λ m', handled (chatmodel.msgType m')) known →
  ¬ handled (chatmodel.msgType m) →
  convert (known ++ m :: rest)
    = inl (unknownMessageType (chatmodel.msgType m)).
Proof.
  intros Hall Hm. induction known as [|k known IH].
  - pose proof (role_handled (chatmodel.msgType m)) as Hr.
    simpl. destruct (chatmodel.role _ _ _ _) as [r|]; [|done].
    exfalso. apply Hm. unfold chatmodel.handled.
    destruct Hr as [[? _]|[[? _]|[? _]]];
      [by left | by right; left | by right; right].
  - apply Forall_cons in Hall as [Hk Hall].
    pose proof (role_handled (chatmodel.msgType k)) as Hr.
    simpl. destruct (chatmodel.role _ _ _ _) as [r|]; [|done].
    by rewrite (IH Hall).
Qed.


(** X19: [Ollama.Generate] rejects unknown message types.  When some chat
    message has a type other than the three handled ones, the call fails
    with the unknown-message-type error of the first such message, whatever
    the backend, in the state in which it started: no request is sent. *)
Theorem Ollama_Generate_unknown_type (cm : chatmodel.Ollama E)
    (known rest : list (chatmodel.ChatMessage ChatMessageType))
    (m : chatmodel.ChatMessage ChatMessageType)
    (optFns : list (model.GenerateOptions E → model.GenerateOptions E))
    (st : state E) :
  Forall (λ m', handled (chatmodel.msgType m')) known →
  ¬ handled (chatmodel.msgType m) →
  Generate cm (known ++ m :: rest) optFns st
    = (Err (unknownMessageType (chatmodel.msgType m)), st).
Proof.
  intros Hall Hm. unfold chatmodel.Generate.
  by rewrite (ollamaMessages_unhandled known rest m Hall Hm).
Qed.

End OllamaGenerate.


Lemma Ollama_Generate_unknown_type_witness :
  Forall (λ m, chatmodel.handled "system" "ai" "human" (chatmodel.msgType m))
    scenarios.chat ∧
  ¬ chatmodel.handled "system" "ai" "human"
      (chatmodel.msgType scenarios.functionCall) ∧
  chatmodel.Generate "system" "ai" "human" scenarios.unknownType
    scenarios.newGeneration scenarios.tallying
    (scenarios.chat ++ scenarios.functionCall :: scenarios.chat) []
    examples.st0
    = (Err (ErrOther 11), examples.st0).
Proof.
  assert (Hall : Forall (λ m, chatmodel.handled "system" "ai" "human"
                                (chatmodel.msgType m)) scenarios.chat).
  { apply Forall_cons_2; [by left|].
    apply Forall_cons_2; [by right; right|].
    apply Forall_cons_2; [by right; left|].
    apply Forall_nil_2. }
  assert (Hun : ¬ chatmodel.handled "system" "ai" "human"
                    (chatmodel.msgType scenarios.functionCall)).
  { intros [H|[H|H]]; discriminate H. }
  split; [exact Hall|]. split; [exact Hun|].
  exact (Ollama_Generate_unknown_type "system" "ai" "human"
           scenarios.unknownType scenarios.newGeneration scenarios.tallying
           scenarios.chat scenarios.chat scenarios.functionCall []
           examples.st0 Hall Hun).
Defined.

(* ===================================================================== *)
(** * How the entry points compose with the units *)
(* ===================================================================== *)

Section Composition.
Context {E : Type}.
Variable TrimSpace : string → string.
Import protocol.

(** A call of [golc.Call] without run information that returns outputs:
    its one dispatch, on the caller's mapping with the loaded variables
    merged in, returned those outputs and left the store as it is at the
    end. *)
Lemma Call_ok (chain : Chain E) (inputs out : mapref)
    (optFns : list (golc.CallOptions E → golc.CallOptions E))
    (st st' : state E) :
  golc.Call chain inputs optFns st = (Ok out, st') →
  golc.IncludeRunInfo (apply_opts optFns defaultCallOptions) = false →
  ∃ delta pre sub vars,
    log st' = log st ++ delta ∧
    trace.chainCalls delta
      = [EvChainCall (chainAddr chain) inputs pre sub (Ok out) (heap st')] ∧
    deref pre inputs = vars ∪ deref (heap st) inputs ∧
    (chainMemory chain = None → vars = ∅).
Proof.
  intros H Hinfo.
  apply Call_trace in H as (delta & Hlog & Htr).
  inversion Htr as [ | | vars loads pre sub ret post r' tail h'
                         Hloaded Hfin]; subst.
  inversion Hfin; subst; [|congruence].
  exists (EvOnChainStart (runs st) (chainType chain)
            (deref (heap st) inputs) None
          :: loads ++ EvChainCall (chainAddr chain) inputs pre sub (Ok out)
                        (heap st')
          :: saves chain inputs out (heap st')
             ++ [EvOnChainEnd (runs st) (deref (heap st') out) None]),
         pre, sub, vars.
  split; [done|].
  destruct (Loaded_no_chain_call _ _ _ _ _ _ Hloaded) as (Hl & _ & _).
  split.
  { unfold trace.chainCalls. simpl. rewrite List.filter_app, Hl. simpl.
    rewrite List.filter_app. unfold saves. by destruct (chainMemory chain). }
  unfold Loaded in Hloaded. destruct (chainMemory chain).
  - destruct Hloaded as [_ Hmerged].
    apply merged_deref in Hmerged as [Hd _]. done.
  - destruct Hloaded as (-> & _ & ->).
    by rewrite (left_id_L ∅ (∪)).
Qed.

(** A call of [LLM.Call] that returns outputs. *)
Lemma LLM_Call_ok (c : chain.LLM E) (inputs out : mapref)
    (optFns : list (CallOptions E → CallOptions E)) (st st' : state E) :
  chain.LLM_Call TrimSpace c inputs optFns st = (Ok out, st') →
  let opts' := apply_opts optFns {| CallbackManger := None; Stop := [] |} in
  ∃ p g gen rest,
    prompt.Format (chain.prompt c) (deref (heap st) inputs) = inr p ∧
    model.GeneratePrompt (chain.llm c) [p]
      {| model.Stop := Stop opts';
         model.Callbacks :=
           match CallbackManger opts' with
           | Some rm => callback.GetInheritableCallbacks rm
           | None => []
           end;
         model.ParentRunID :=
           match CallbackManger opts' with
           | Some rm => Some (callback.RunID rm)
           | None => None
           end |} (ext st)
      = (inr ((g :: gen) :: rest), ext st') ∧
    deref (heap st') out
      = {[ chain.OutputKey (chain.opts c) :=
             AString (TrimSpace (model.Text g)) ]}.
Proof.
  intros H opts'. unfold chain.LLM_Call in H. fold opts' in H.
  unfold bind at 1 in H. unfold read at 1 in H.
  unfold prompt.FormatPrompt in H.
  destruct (prompt.Format (chain.prompt c) (deref (heap st) inputs))
    as [e|p]; [done|].
  unfold bind at 1 in H. simpl in H.
  unfold bind at 1 in H. unfold bind at 1 in H. unfold collab at 1 in H.
  destruct (model.GeneratePrompt (chain.llm c) [p] _ (ext st))
    as [res w] eqn:Hgen.
  destruct res as [e|generations]; simpl in H; [done|].
  fwd H. apply getFinalOutput_inv in Hrun as (-> & Hres).
  destruct Hres as [(g & gen & rest & -> & ->) | (msg & ->)]; [|done].
  injection H as <- <-. simpl.
  exists p, g, gen, rest. split; [done|]. split; [done|].
  by rewrite lookup_insert_eq.
Qed.

(** X20: the options of [golc.SimpleCall] reach the backend.  When
    [golc.SimpleCall] on a single-model unit returns a text, the generation
    backend was asked one prompt with the stop words given to
    [SimpleCall], with the call-scoped callbacks of [SimpleCall] as
    inherited callbacks, and with the run opened by [golc.Call] as parent
    run; the text returned is the trimmed text of the first generation of
    the backend's answer. *)
Theorem SimpleCall_LLM_options (u : chain.LLM E) (input : any)
    (optFns : list (golc.SimpleCallOptions E → golc.SimpleCallOptions E))
    (st st' : state E) (s : string) :
  golc.SimpleCall (chain.LLM_Chain TrimSpace u) input optFns st
    = (Ok s, st') →
  let sopts := apply_opts optFns
                 {| golc.scCallbacks := []; golc.scStop := [] |} in
  ∃ p o w w' g gen rest,
    model.GeneratePrompt (chain.llm u) [p] o w
      = (inr ((g :: gen) :: rest), w') ∧
    model.Stop o = golc.scStop sopts ∧
    model.Callbacks o = golc.scCallbacks sopts ∧
    model.ParentRunID o = Some (runs st) ∧
    s = TrimSpace (model.Text g).
Proof.
  intros H sopts. unfold golc.SimpleCall in H. fold sopts in H.
  destruct (Nat.eqb (length (chainInputKeys (chain.LLM_Chain TrimSpace u)))
              1) eqn:Hi; [|done].
  destruct (Nat.eqb (length (chainOutputKeys (chain.LLM_Chain TrimSpace u)))
              1) eqn:Ho; [|done].
  apply length_one_inv in Hi as [ikey Hi].
  rewrite Hi in H. simpl in H.
  unfold bind at 1 in H. simpl in H.
  unfold bind at 1 in H. simpl in H.
  set (l := fresh (dom (heap st))) in *.
  fwd H. destruct o as [out| |]; [|done..].
  pose proof Hrun as Hcall.
  apply Call_ok in Hrun as (delta & pre & sub & vars & Hlog & Hcalls & _);
    [|done].
  eapply (Call_dispatch _ _ _ _ _ _ _ _ pre sub (Ok out) (heap s0))
    in Hcall.
  2: { rewrite (since_app _ _ _ Hlog).
       assert (In (EvChainCall (chain.addr u) (MapAt l) pre sub (Ok out)
                     (heap s0)) (trace.chainCalls delta)) as Hin
         by (rewrite Hcalls; by left).
       apply filter_In in Hin. exact (proj1 Hin). }
  destruct Hcall as (w1 & w2 & n2 & Hcall).
  cbn [chainCall chain.LLM_Chain runs] in Hcall.
  apply LLM_Call_ok in Hcall as (p & g & gen & rest & _ & Hgen & Hout).
  cbn [heap ext apply_opts fold_left CallbackManger Stop] in Hgen, Hout.
  unfold bind, read in H. simpl in H. rewrite Hout in H.
  rewrite lookup_singleton_eq in H. injection H as <- <-.
  eexists p, _, w1, w2, g, gen, rest. split; [exact Hgen|]. done.
Qed.

(** What a call of [RefineDocuments.Call] returns: a mapping with one
    entry, under the output key of the unit's own options. *)
Lemma RefineDocuments_Call_result (c : chain.RefineDocuments E)
    (values out : mapref) (optFns : list (CallOptions E → CallOptions E))
    (st st' : state E) :
  chain.RefineDocuments_Call TrimSpace c values optFns st = (Ok out, st') →
  ∃ res, deref (heap st') out
         = {[ chain.rdOutputKey (chain.rdOpts c) := AString res ]}.
Proof.
  intros H. unfold chain.RefineDocuments_Call in H.
  unfold bind at 1 in H. unfold read at 1 in H.
  destruct (deref (heap st) values !! chain.rdInputKey (chain.rdOpts c))
    as [v|]; [|done].
  destruct v as [|s|docs|r0|id|tag]; try done.
  destruct docs as [|doc0 docs]; [done|].
  fwd H. destruct o as [rest| |]; [|done..].
  fwd H. destruct o as [initialInputs| |]; [|done..].
  fwd H. destruct o as [res| |]; [|done..].
  fwd H. destruct o as [res'| |]; [|done..].
  injection H as <- <-. simpl. rewrite lookup_insert_eq. eauto.
Qed.

(** X21: the output key of a refine unit.  [RefineDocuments.OutputKeys]
    declares the output key of the initial inner unit, while
    [RefineDocuments.Call] returns a mapping whose only key is the output
    key of the refine unit's own options.  So [golc.SimpleCall] on a refine
    unit can return a text only if the two keys are the same: when they
    differ, it fails even though every inner call succeeded. *)
Theorem RefineDocuments_output_key (c : chain.RefineDocuments E) :
  chainOutputKeys (chain.RefineDocuments_Chain TrimSpace c)
    = [chain.OutputKey (chain.opts (chain.rdLlmChain c))] ∧
  (∀ values optFns (st st' : state E) out,
     chain.RefineDocuments_Call TrimSpace c values optFns st
       = (Ok out, st') →
     dom (deref (heap st') out) = {[ chain.rdOutputKey (chain.rdOpts c) ]}) ∧
  (∀ input (st st' : state E) s,
     golc.SimpleCall (chain.RefineDocuments_Chain TrimSpace c) input [] st
       = (Ok s, st') →
     chain.rdOutputKey (chain.rdOpts c)
       = chain.OutputKey (chain.opts (chain.rdLlmChain c))).
Proof.
  split; [done|]. split.
  - intros values optFns st st' out H.
    apply RefineDocuments_Call_result in H as [res ->].
    apply dom_singleton_L.
  - intros input st st' s H. unfold golc.SimpleCall in H.
    simpl in H.
    unfold bind at 1 in H. simpl in H.
    unfold bind at 1 in H. simpl in H.
    set (l := fresh (dom (heap st))) in *.
    fwd H. destruct o as [out| |]; [|done..].
    pose proof Hrun as Hcall.
    apply Call_ok in Hrun as (delta & pre & sub & vars & Hlog & Hcalls & _);
      [|done].
    eapply (Call_dispatch _ _ _ _ _ _ _ _ pre sub (Ok out) (heap s0))
      in Hcall.
    2: { rewrite (since_app _ _ _ Hlog).
         assert (In (EvChainCall (chain.rdAddr c) (MapAt l) pre sub (Ok out)
                       (heap s0)) (trace.chainCalls delta)) as Hin
           by (rewrite Hcalls; by left).
         apply filter_In in Hin. exact (proj1 Hin). }
    destruct Hcall as (w1 & w2 & n2 & Hcall).
    cbn [chainCall chain.RefineDocuments_Chain] in Hcall.
    apply RefineDocuments_Call_result in Hcall as [res Hout].
    cbn [heap] in Hout.
    unfold bind, read in H. simpl in H. rewrite Hout in H.
    destruct (decide (chain.rdOutputKey (chain.rdOpts c)
                      = chain.OutputKey (chain.opts (chain.rdLlmChain c))))
      as [Heq|Hne]; [done|].
    by rewrite lookup_singleton_ne in H.
Qed.

End Composition.
Section RetrievalStages.
Context {E : Type}.
Variable TrimSpace : string → string.
Import protocol.

Lemma GetString_ok (values : mapref) (name : string) (st st' : state E)
    (s : string) :
  rag.GetString values name st = (Ok s, st') →
  st' = st ∧ deref (heap st) values !! name = Some (AString s).
Proof.
  unfold rag.GetString, bind, read. simpl.
  destruct (deref (heap st) values !! name) as [[]|]; try done.
  by intros [= <- <-].
Qed.

(** X22: the stages of a follow-up turn.  When the history is not the
    empty text, a call of [ConversationalRetrieval.Call] that returns
    outputs has dispatched two units, in this order: the condensing unit,
    on the caller's own mapping, and then the retrieval unit, on a new
    mapping whose only entry (before that unit's memory variables) is the
    text that the condensing unit returned under its output key, under the
    retrieval unit's first input key. *)
Theorem ConversationalRetrieval_Call_follow_up
    (c : rag.ConversationalRetrieval E) (inputs out : mapref)
    (optFns : list (CallOptions E → CallOptions E))
    (st st' : state E) (ikey : string) (ikeys : list string)
    (rm : RunManager E) :
  rag.isEmptyText (index (deref (heap st) inputs) "history") = false →
  chainInputKeys (rag.retrievalQAChain c) = ikey :: ikeys →
  CallbackManger
    (apply_opts optFns
       {| CallbackManger := Some rag.NoopManager; Stop := [] |}) = Some rm →
  rag.Call TrimSpace c inputs optFns st = (Ok out, st') →
  ∃ pre1 sub1 out1 post1 l2 pre2 sub2 out2 post2 q vars,
    trace.chainCalls (trace.since st st')
      = [EvChainCall (chain.addr (rag.condenseQuestionChain c)) inputs
           pre1 sub1 (Ok out1) post1;
         EvChainCall (chainAddr (rag.retrievalQAChain c)) (MapAt l2)
           pre2 sub2 (Ok out2) post2] ∧
    deref post1 out1
      !! chain.OutputKey (chain.opts (rag.condenseQuestionChain c))
      = Some (AString q) ∧
    deref pre2 (MapAt l2) = vars ∪ {[ ikey := AString q ]} ∧
    (chainMemory (rag.retrievalQAChain c) = None → vars = ∅).
Proof.
  intros Hhist Hkeys Hrm H.
  unfold rag.Call in H.
  fwd H. destruct o as [generatedQuestion| |]; [|done..].
  unfold rag.generateQuestion in Hrun.
  unfold bind at 1 in Hrun. unfold read at 1 in Hrun.
  rewrite Hhist in Hrun.
  unfold bind at 1 in Hrun. unfold rag.inherit at 1 in Hrun.
  rewrite Hrm in Hrun. unfold ret at 1 in Hrun.
  fwd Hrun. destruct o as [output| |]; [|done..].
  apply Call_ok in Hrun0 as (d1 & pre1 & sub1 & vars1 & Hl1 & Hc1 & _);
    [|done].
  unfold bind at 1 in Hrun. simpl in Hrun.
  apply GetString_ok in Hrun as (-> & Hq).
  rewrite Hkeys in H.
  unfold bind at 1 in H. simpl in H.
  unfold bind at 1 in H. simpl in H.
  set (l2 := fresh (dom (heap s0))) in *.
  unfold bind at 1 in H. unfold rag.inherit at 1 in H. rewrite Hrm in H.
  unfold ret at 1 in H.
  fwd H. destruct o as [retrievalOutput| |]; [|done..].
  apply Call_ok in Hrun as (d2 & pre2 & sub2 & vars2 & Hl2 & Hc2 & Hd2 & Hv2);
    [|done].
  cbn [heap runs log ext] in Hl2, Hd2.
  apply Call_returns_log in H.
  rewrite (since_app st st' (d1 ++ d2))
    by (by rewrite H, Hl2, Hl1, app_assoc).
  rewrite chainCalls_app, Hc1, Hc2. cbn [app].
  exists pre1, sub1, output, (heap s0), l2, pre2, sub2, retrievalOutput,
         (heap s), generatedQuestion, vars2.
  split; [done|]. split; [done|]. split; [|done].
  rewrite Hd2. simpl. by rewrite lookup_insert_eq.
Qed.

End RetrievalStages.

(** The answering unit called with the stop word ["END"]: the backend
    is asked with that stop word, under run 0. *)
Lemma SimpleCall_LLM_options_witness :
  scenarios.stopRun = (Ok "re: Context: c", scenarios.stopRun.2) ∧
  ∃ p o w w' g gen rest,
    model.GeneratePrompt (chain.llm examples.answerUnit) [p] o w
      = (inr ((g :: gen) :: rest), w') ∧
    model.Stop o = ["END"] ∧
    model.Callbacks o = [] ∧
    model.ParentRunID o = Some 0 ∧
    "re: Context: c" = strings.TrimSpaceASCII (model.Text g).
Proof.
  assert (Hrun : golc.SimpleCall
                   (chain.LLM_Chain strings.TrimSpaceASCII
                      examples.answerUnit)
                   (AString "c") [scenarios.withStop ["END"]] examples.st0
                 = (Ok "re: Context: c", scenarios.stopRun.2))
    by (vm_compute; reflexivity).
  split; [exact Hrun|].
  exact (SimpleCall_LLM_options _ _ _ _ _ _ _ Hrun).
Defined.

(** The refine unit of the examples returns its answer under ["text"];
    with the output key ["answer"] and an inner unit that answers under
    ["text"], [golc.SimpleCall] fails. *)
Lemma RefineDocuments_output_key_witness :
  examples.refineRun = (Ok (MapAt 11), examples.refineRun.2) ∧
  dom (deref (heap examples.refineRun.2) (MapAt 11)) = {[ "text" ]} ∧
  scenarios.mismatchedRun.1 = Err ErrWrongOutputType.
Proof.
  assert (Hrun : chain.RefineDocuments_Call strings.TrimSpaceASCII
                   examples.refineUnit (MapAt 0) [] examples.refineState
                 = (Ok (MapAt 11), examples.refineRun.2))
    by (vm_compute; reflexivity).
  split; [exact Hrun|]. split; [|vm_compute; reflexivity].
  exact (proj1 (proj2 (RefineDocuments_output_key strings.TrimSpaceASCII
                         examples.refineUnit))
           _ _ _ _ _ Hrun).
Defined.

(** A follow-up question: the condensing unit, then the retrieval unit on
    the condensed question. *)
Lemma ConversationalRetrieval_Call_follow_up_witness :
  rag.isEmptyText
    (index (deref (heap examples.followUpState) (MapAt 0)) "history")
    = false ∧
  scenarios.followUpCall = (Ok (MapAt 4), scenarios.followUpCall.2) ∧
  trace.dispatches
    (trace.since examples.followUpState scenarios.followUpCall.2)
    = [(20, MapAt 0, Ok (MapAt 1)); (1, MapAt 2, Ok (MapAt 3))] ∧
  ∃ pre1 sub1 out1 post1 l2 pre2 sub2 out2 post2 q vars,
    trace.chainCalls
      (trace.since examples.followUpState scenarios.followUpCall.2)
      = [EvChainCall 20 (MapAt 0) pre1 sub1 (Ok out1) post1;
         EvChainCall 1 (MapAt l2) pre2 sub2 (Ok out2) post2] ∧
    deref post1 out1 !! "text" = Some (AString q) ∧
    deref pre2 (MapAt l2) = vars ∪ {[ "question" := AString q ]} ∧
    (chainMemory (rag.retrievalQAChain scenarios.talkative) = None →
     vars = ∅).
Proof.
  assert (Hh : rag.isEmptyText
                 (index (deref (heap examples.followUpState) (MapAt 0))
                        "history") = false) by (vm_compute; reflexivity).
  assert (Hrun : rag.Call strings.TrimSpaceASCII scenarios.talkative
                   (MapAt 0) [] examples.followUpState
                 = (Ok (MapAt 4), scenarios.followUpCall.2))
    by (vm_compute; reflexivity).
  split; [exact Hh|]. split; [exact Hrun|].
  split; [vm_compute; reflexivity|].
  exact (ConversationalRetrieval_Call_follow_up strings.TrimSpaceASCII
           scenarios.talkative (MapAt 0) (MapAt 4) []
           examples.followUpState scenarios.followUpCall.2 "question" []
           rag.NoopManager Hh eq_refl eq_refl Hrun).
Defined.

Section StuffResult.
Context {E : Type}.
Variable TrimSpace : string → string.
Import protocol.

(** X23: what [StuffDocuments.Call] returns.  A call that returns outputs
    found a Document sequence under the input key, rendered the inner
    unit's prompt from the caller's entries with the joined page contents
    under the document variable (over the inner unit's memory variables,
    if it has a Memory), and returns a mapping whose only entry is the
    trimmed text of the first generation of the backend's answer to that
    prompt, under the inner unit's output key, which is the output key the
    unit declares. *)
Theorem StuffDocuments_Call_result (c : chain.StuffDocuments E)
    (values out : mapref) (optFns : list (CallOptions E → CallOptions E))
    (st st' : state E) :
  chain.StuffDocuments_Call TrimSpace c values optFns st = (Ok out, st') →
  let inner := chain.sdLlmChain c in
  ∃ docs vars p o w w' g gen rest,
    deref (heap st) values !! chain.sdInputKey (chain.sdOpts c)
      = Some (ADocs docs) ∧
    (chain.LLM_Memory inner = None → vars = ∅) ∧
    prompt.Format (chain.prompt inner)
      (vars ∪ chain.stuffed c (deref (heap st) values) docs) = inr p ∧
    model.GeneratePrompt (chain.llm inner) [p] o w
      = (inr ((g :: gen) :: rest), w') ∧
    deref (heap st') out
      = {[ chain.OutputKey (chain.opts inner) :=
             AString (TrimSpace (model.Text g)) ]} ∧
    chainOutputKeys (chain.StuffDocuments_Chain TrimSpace c)
      = [chain.OutputKey (chain.opts inner)].
Proof.
  intros H inner.
  destruct (deref (heap st) values !! chain.sdInputKey (chain.sdOpts c))
    as [v|] eqn:Hv.
  2: { unfold chain.StuffDocuments_Call, bind, read in H. simpl in H.
       by rewrite Hv in H. }
  destruct v as [|s|docs|r0|id|tag];
    try (unfold chain.StuffDocuments_Call, bind, read in H; simpl in H;
         by rewrite Hv in H).
  rewrite (StuffDocuments_Call_delegates TrimSpace c values optFns st docs
             Hv) in H.
  set (l := fresh (dom (heap st))) in *.
  pose proof H as Hcall.
  apply Call_ok in H as (delta & pre & sub & vars & Hlog & Hcalls & Hd & Hvars);
    [|done].
  cbn [heap runs log ext] in Hlog, Hd.
  eapply (Call_dispatch _ _ _ _ _ _ _ _ pre sub (Ok out) (heap st'))
    in Hcall.
  2: { unfold trace.since. cbn [log]. rewrite Hlog, drop_app_length.
       assert (In (EvChainCall (chain.addr inner) (MapAt l) pre sub (Ok out)
                     (heap st')) (trace.chainCalls delta)) as Hin
         by (rewrite Hcalls; by left).
       apply filter_In in Hin. exact (proj1 Hin). }
  destruct Hcall as (w1 & w2 & n2 & Hcall).
  cbn [chainCall chain.LLM_Chain] in Hcall.
  apply LLM_Call_ok in Hcall as (p & g & gen & rest & Hf & Hgen & Hout).
  cbn [heap ext] in Hf, Hgen, Hout.
  rewrite Hd in Hf. simpl in Hf. rewrite lookup_insert_eq in Hf.
  simpl in Hf.
  exists docs, vars, p. eexists _, w1, w2, g, gen, rest.
  split; [done|]. split; [exact Hvars|]. split; [exact Hf|].
  split; [exact Hgen|]. split; [exact Hout|]. done.
Qed.

End StuffResult.

(** The documents ["A"] and ["B"] stuffed into the answering unit. *)
Lemma StuffDocuments_Call_result_witness :
  examples.stuffRun = (Ok (MapAt 2), examples.stuffRun.2) ∧
  ∃ docs vars p o w w' g gen rest,
    deref (heap examples.docsState) (MapAt 0) !! "inputDocuments"
      = Some (ADocs docs) ∧
    (chain.LLM_Memory examples.answerUnit = None → vars = ∅) ∧
    prompt.Format examples.contextTemplate
      (vars ∪ chain.stuffed examples.stuffUnit
                (deref (heap examples.docsState) (MapAt 0)) docs) = inr p ∧
    model.GeneratePrompt examples.answering [p] o w
      = (inr ((g :: gen) :: rest), w') ∧
    deref (heap examples.stuffRun.2) (MapAt 2)
      = {[ "text" := AString (strings.TrimSpaceASCII (model.Text g)) ]} ∧
    chainOutputKeys
      (chain.StuffDocuments_Chain strings.TrimSpaceASCII examples.stuffUnit)
      = ["text"].
Proof.
  assert (Hrun : chain.StuffDocuments_Call strings.TrimSpaceASCII
                   examples.stuffUnit (MapAt 0) [] examples.docsState
                 = (Ok (MapAt 2), examples.stuffRun.2))
    by (vm_compute; reflexivity).
  split; [exact Hrun|].
  exact (StuffDocuments_Call_result strings.TrimSpaceASCII
           examples.stuffUnit (MapAt 0) (MapAt 2) [] examples.docsState
           examples.stuffRun.2 Hrun).
Defined.
